(** * mcp-ssh: connection pool, job supervisor, snapshot store, hang watchdog

  A shallow embedding of the TypeScript sources of [@enrichedlab/mcp-ssh]
  ([connection-manager.ts], [audit-logger.ts] (class [JobTracker]),
  [snapshot-manager.ts], [hang-detector.ts], [types.ts]) and the
  properties of the specification that were checked against them.

  Conventions of the embedding:
  - JavaScript numbers that hold integers (epoch milliseconds, exit
    codes, process ids, counts) are [Z]; [NaN] is [None] where the code
    can produce it.
  - ISO-8601 timestamps written by [new Date().toISOString()] are held
    as the epoch milliseconds [new Date(ts).getTime()] reads back.
  - [throw new Error(msg)] is the left injection of a sum; a rejected
    promise is the same thing.
  - an [await]ed remote command is one call of an oracle for the remote
    side; every call is appended to a trace of issued commands.
  - every method runs to completion before the next one starts (the
    single-writer model of the job table and of the pool).
  - strings are sequences of bytes; [trim] and [parseInt] know the ASCII
    white space, and integers are exact. *)

From Stdlib Require Import ZArith String Ascii Lia DecimalString Permutation Sorted.
From stdpp Require Import gmap strings list.

Open Scope Z_scope.

(** ** JavaScript built-ins used by the sources *)

Module JS.

(** [String(n)] / template interpolation of an integer number. *)
Definition string_of_Z (z : Z) : string := NilZero.string_of_int (Z.to_int z).

(** Template interpolation of a number that may be [NaN]. *)
Definition string_of_number (n : option Z) : string :=
  match n with
  | Some z => string_of_Z z
  | None => "NaN"
  end.

(** [Math.round(n / 1000)] for an integer [n]: the nearest integer, halves
    rounded towards plus infinity. *)
Definition round_div_1000 (n : Z) : Z := (n + 500) / 1000.

(** The delay [setTimeout] really uses (Node.js): a delay below 1 or above
    2^31-1 is replaced by 1. *)
Definition timer_delay (ms : Z) : Z :=
  if (1 <=? ms) && (ms <=? 2147483647) then ms else 1.

(** The double-quote character, for the shell commands the sources build. *)
Definition dq : string := String (ascii_of_nat 34) EmptyString.

(** [`"${s}"`] *)
Definition quoted (s : string) : string := dq +:+ s +:+ dq.

(** A string is truthy when it is not empty; an absent optional field
    ([undefined]) is falsy. *)
Definition truthy (o : option string) : bool :=
  match o with
  | Some s => negb (String.eqb s "")
  | None => false
  end.

(** White space removed by [String.prototype.trim] and skipped by
    [parseInt] (the ASCII part: TAB, LF, VT, FF, CR and space). *)
Definition is_space (c : ascii) : bool :=
  let n := nat_of_ascii c in
  (n =? 32)%nat || ((9 <=? n)%nat && (n <=? 13)%nat).

Fixpoint trimStart (s : string) : string :=
  match s with
  | String c s' => if is_space c then trimStart s' else s
  | EmptyString => EmptyString
  end.

Fixpoint trimEnd (s : string) : string :=
  match s with
  | String c s' =>
      match trimEnd s' with
      | EmptyString => if is_space c then EmptyString else String c EmptyString
      | r => String c r
      end
  | EmptyString => EmptyString
  end.

Definition trim (s : string) : string := trimEnd (trimStart s).

Definition digit_of (c : ascii) : option Z :=
  let n := nat_of_ascii c in
  if (48 <=? n)%nat && (n <=? 57)%nat then Some (Z.of_nat (n - 48)) else None.

(** The longest prefix of decimal digits, read as a number; [acc] is [None]
    until a digit has been seen. *)
Fixpoint parse_digits (s : string) (acc : option Z) : option Z :=
  match s with
  | String c s' =>
      match digit_of c with
      | Some d => parse_digits s' (Some (10 * default 0 acc + d))
      | None => acc
      end
  | EmptyString => acc
  end.

(** [parseInt(s, 10)]; [None] is [NaN]. *)
Definition parseInt (s : string) : option Z :=
  match trimStart s with
  | String "-" s' => Z.opp <$> parse_digits s' None
  | String "+" s' => parse_digits s' None
  | s' => parse_digits s' None
  end.

(** [n || 0] for a number [n]: [NaN] and zero both give zero. *)
Definition or_zero (n : option Z) : Z := default 0 n.

(** [Array.prototype.sort(cmp)]: the sort is stable, and [cmp a b > 0]
    asks for [a] after [b].  For a comparator that is a difference of keys
    the result is the one stable arrangement, built here by insertion from
    the right. *)
Fixpoint insert_by {A} (cmp : A -> A -> Z) (x : A) (l : list A) : list A :=
  match l with
  | [] => [x]
  | y :: l' => if 0 <? cmp x y then y :: insert_by cmp x l' else x :: l
  end.

Definition sort {A} (cmp : A -> A -> Z) (l : list A) : list A :=
  foldr (insert_by cmp) [] l.

(** Descending by [key]: the order the comparator [key b - key a] asks
    for. *)
Definition descending {A} (key : A -> Z) : A -> A -> Prop :=
  fun a b => key b <= key a.

(** [Array.prototype.slice(0, limit)] *)
Definition slice0 {A} (limit : Z) (l : list A) : list A :=
  take (Z.to_nat (if limit <? 0 then Z.of_nat (length l) + limit else limit)) l.

(** [Array.prototype.find] *)
Definition find {A} (p : A -> bool) (l : list A) : option A := List.find p l.

End JS.

(** ** types.ts *)

Record ExecResult := mkExecResult {
  stdout : string;
  stderr : string;
  exitCode : Z;
  duration : Z
}.

(** A JavaScript [Error]; the sources throw nothing else. *)
Record Error := mkError { message : string }.

Inductive JobStatus := running | completed | failed.

(** [interface Job]; [pid] is the result of a [parseInt], [NaN] included. *)
Module Job.
Record t := mk {
  id : string;
  host : string;
  command : string;
  name : option string;
  status : JobStatus;
  pid : option Z;
  startTime : Z;
  endTime : option Z;
  exitCode : option Z;
  outputFile : string
}.
End Job.

Inductive SnapshotType := sftp | git | tar.

(** [interface SnapshotMetadata], with [type] in its declared values. *)
Module Snapshot.
Record t := mk {
  ts : Z;
  id : string;
  type : SnapshotType;
  host : string;
  path : string;
  backup : option string;
  commit : option string
}.
End Snapshot.

Record SnapshotRetention := mkRetention {
  maxAgeDays : Z;
  maxSizeMB : Z;
  keepMinCount : Z
}.

(** ** hang-detector.ts *)

Module HangDetector.

(** The fields of [class HangDetector].  [timer] holds the earliest time
    at which the pending [setTimeout] may run its handler; [callback] is
    [true] when a callback is registered (the field is not [null]). *)
Record t := mk {
  timeoutMs : Z;
  timer : option Z;
  lastActivity : Z;
  callback : bool;
  alertSent : bool
}.

(** [constructor(config)], run at time [now]. *)
Definition create (hangTimeoutMs now : Z) : t :=
  {| timeoutMs := hangTimeoutMs; timer := None; lastActivity := now;
     callback := false; alertSent := false |}.

(** [scheduleCheck()]: drop the pending timer, arm a new one. *)
Definition scheduleCheck (d : t) (now : Z) : t :=
  {| timeoutMs := timeoutMs d;
     timer := Some (now + JS.timer_delay (timeoutMs d));
     lastActivity := lastActivity d;
     callback := callback d;
     alertSent := alertSent d |}.

(** [start(callback)] *)
Definition start (d : t) (now : Z) : t :=
  scheduleCheck
    {| timeoutMs := timeoutMs d; timer := timer d; lastActivity := now;
       callback := true; alertSent := false |} now.

(** [onActivity()] *)
Definition onActivity (d : t) (now : Z) : t :=
  {| timeoutMs := timeoutMs d; timer := timer d; lastActivity := now;
     callback := callback d; alertSent := false |}.

(** [stop()] *)
Definition stop (d : t) : t :=
  {| timeoutMs := timeoutMs d; timer := None; lastActivity := lastActivity d;
     callback := false; alertSent := alertSent d |}.

Definition alert_message (elapsed : Z) : string :=
  "No output for " +:+ JS.string_of_Z (JS.round_div_1000 elapsed)
    +:+ "s - command may be hung or waiting for input".

(** [checkHang()]: returns the new state and the messages passed to the
    callback by this call (none or one). *)
Definition checkHang (d : t) (now : Z) : t * list string :=
  let elapsed := now - lastActivity d in
  if (timeoutMs d <=? elapsed) && negb (alertSent d) && callback d then
    (scheduleCheck
       {| timeoutMs := timeoutMs d; timer := timer d;
          lastActivity := lastActivity d; callback := callback d;
          alertSent := true |} now,
     [alert_message elapsed])
  else (scheduleCheck d now, []).

(** What can happen to a detector: the caller's three methods and the
    event loop running the timer handler.  Each carries the value of
    [Date.now()] at that moment. *)
Inductive event :=
| Start (now : Z)
| Activity (now : Z)
| Fire (now : Z)
| Stop.

(** The handler of a timer runs only if the timer is armed and its delay
    has passed; otherwise nothing happens. *)
Definition step (d : t) (e : event) : t * list string :=
  match e with
  | Start now => (start d now, [])
  | Activity now => (onActivity d now, [])
  | Fire now =>
      match timer d with
      | Some due => if due <=? now then checkHang d now else (d, [])
      | None => (d, [])
      end
  | Stop => (stop d, [])
  end.

Fixpoint run (d : t) (es : list event) : t * list string :=
  match es with
  | [] => (d, [])
  | e :: es' =>
      let '(d1, out1) := step d e in
      let '(d2, out2) := run d1 es' in
      (d2, out1 ++ out2)
  end.

(** A stretch of silence: only the timer runs. *)
Definition is_fire (e : event) : bool :=
  match e with Fire _ => true | _ => false end.

Definition silent (es : list event) : Prop := Forall (fun e => is_fire e = true) es.

(** The timer handler runs at the times [ts], never early: the first run
    not before [due], each later one not before [delay] after the run
    before it (the handler re-arms the timer when it runs). *)
Fixpoint on_schedule (due delay : Z) (ts : list Z) : Prop :=
  match ts with
  | [] => True
  | t :: ts' => due <= t /\ on_schedule (t + delay) delay ts'
  end.

(** [d] is the detector right after [start] or, once started, right after
    [onActivity], called at time [a] on [d0]. *)
Definition after_signal (d0 : t) (a : Z) (d : t) : Prop :=
  d = start d0 a \/
  (d = onActivity d0 a /\ callback d0 = true /\ timer d0 <> None).

(** The messages delivered over a run. *)
Definition alerts (d : t) (es : list event) : list string := (run d es).2.

(** The detector is not started anew during the events. *)
Definition is_start (e : event) : bool :=
  match e with Start _ => true | _ => false end.

End HangDetector.

(** The host filter of both [list] methods,
    [if (hostName) xs = xs.filter(x => x.host === hostName)]:
    an absent or empty [hostName] keeps everything. *)
Definition selects (hostName : option string) (h : string) : bool :=
  if JS.truthy hostName then
    match hostName with Some n => String.eqb h n | None => true end
  else true.

(** ** connection-manager.ts *)

Module ConnectionManager.

(** [interface ConnectionEntry]; an ssh2 [Client] object is named by a
    number. *)
Record ConnectionEntry := mkEntry {
  client : nat;
  lastUsed : Z;
  connecting : bool;
  ready : bool
}.

(** The pool ([this.connections]) and, as the visible effect of
    [client.end()], the set of clients that were told to end. *)
Record t := mk {
  connections : gmap string ConnectionEntry;
  ended : gset nat
}.

Definition idleTimeout : Z := 300000.

(** [close(hostName)] *)
Definition close (hostName : string) (m : t) : t :=
  match connections m !! hostName with
  | Some entry =>
      {| connections := delete hostName (connections m);
         ended := {[client entry]} ∪ ended m |}
  | None => m
  end.

(** The handler [startIdleCheck] gives to [setInterval], run at [now]:
    one sweep over the entries of the pool. *)
Definition idleCheck (now : Z) (m : t) : t :=
  map_fold
    (fun name entry acc =>
       if idleTimeout <? now - lastUsed entry then close name acc else acc)
    m (connections m).

(** [isConnected(hostName)] *)
Definition isConnected (hostName : string) (m : t) : bool :=
  match connections m !! hostName with
  | Some entry => ready entry
  | None => false
  end.

(** How an attempt to connect ends: the host is not configured, its key
    file cannot be read, the client reports ready (at time [now]) or an
    error, or the 30 s timer wins. *)
Inductive ConnectOutcome :=
| NoHostConfig
| KeyUnreadable (keyPath : string)
| ClientReady (c : nat) (now : Z)
| ClientError (c : nat) (msg : string)
| ClientTimeout (c : nat).

(** [connect(hostName)].  After a timeout the client is told to end; its
    [close] event then deletes the entry of the host, of which there is
    none at that point. *)
Definition connect (hostName : string) (o : ConnectOutcome) (m : t)
  : (Error + nat) * t :=
  match o with
  | NoHostConfig => (inl (mkError ("Unknown host: " +:+ hostName)), m)
  | KeyUnreadable keyPath =>
      (inl (mkError ("Failed to read SSH key: " +:+ keyPath)), m)
  | ClientReady c now =>
      (inr c,
       {| connections :=
            <[hostName := {| client := c; lastUsed := now;
                             connecting := false; ready := true |}]>
              (connections m);
          ended := ended m |})
  | ClientError c msg =>
      (inl (mkError ("SSH connection error: " +:+ msg)),
       {| connections := delete hostName (connections m); ended := ended m |})
  | ClientTimeout c =>
      (inl (mkError ("Connection timeout to " +:+ hostName)),
       {| connections := connections m; ended := {[c]} ∪ ended m |})
  end.

(** [getConnection(hostName)], called at [now] *)
Definition getConnection (hostName : string) (now : Z) (o : ConnectOutcome)
    (m : t) : (Error + nat) * t :=
  match connections m !! hostName with
  | Some entry =>
      if ready entry then
        (inr (client entry),
         {| connections :=
              <[hostName := {| client := client entry; lastUsed := now;
                               connecting := connecting entry;
                               ready := ready entry |}]> (connections m);
            ended := ended m |})
      else
        connect hostName o
          {| connections := delete hostName (connections m);
             ended := {[client entry]} ∪ ended m |}
  | None => connect hostName o m
  end.

(** What the ssh2 stream of one command emits, in order. [Close] carries
    the value of [Date.now()] when its handler runs. *)
Inductive StreamEvent :=
| Data (chunk : string)
| StderrData (chunk : string)
| StreamFailure (msg : string)
| Close (code : Z) (now : Z).

(** What [client.exec] passes to its callback. *)
Inductive ExecStart :=
| StartError (msg : string)
| Stream (events : list StreamEvent).

(** The variables of one call: the two buffers, the state of the promise
    ([None] while pending), and the calls made to [onData]. *)
Record Call := mkCall {
  out : string;
  err : string;
  settled : option (Error + ExecResult);
  chunks : list (string * bool)
}.

(** [resolve] and [reject] act on a pending promise only. *)
Definition settle (r : Error + ExecResult) (c : Call) : Call :=
  {| out := out c; err := err c;
     settled := match settled c with Some r0 => Some r0 | None => Some r end;
     chunks := chunks c |}.

(** The four stream handlers; [streaming] tells [execStreaming] (which
    calls [onData]) from [exec]. *)
Definition on_event (streaming : bool) (startTime : Z) (c : Call)
    (e : StreamEvent) : Call :=
  match e with
  | Close code now =>
      settle (inr {| stdout := out c; stderr := err c; exitCode := code;
                     duration := now - startTime |}) c
  | Data chunk =>
      {| out := out c +:+ chunk; err := err c; settled := settled c;
         chunks := if streaming then chunks c ++ [(chunk, false)] else chunks c |}
  | StderrData chunk =>
      {| out := out c; err := err c +:+ chunk; settled := settled c;
         chunks := if streaming then chunks c ++ [(chunk, true)] else chunks c |}
  | StreamFailure msg => settle (inl (mkError ("Stream error: " +:+ msg))) c
  end.

Definition new_call : Call :=
  {| out := ""; err := ""; settled := None; chunks := [] |}.

(** The promise built by [exec] / [execStreaming] once a client is at
    hand. *)
Definition run_command (streaming : bool) (startTime : Z) (s : ExecStart) : Call :=
  match s with
  | StartError msg => settle (inl (mkError ("Exec failed: " +:+ msg))) new_call
  | Stream events => foldl (on_event streaming startTime) new_call events
  end.

(** [exec(hostName, command)]: the result of the promise ([None] if it
    never settles) and the pool afterwards. *)
Definition exec (hostName : string) (now : Z) (o : ConnectOutcome)
    (startTime : Z) (s : ExecStart) (m : t)
  : option (Error + ExecResult) * t :=
  match getConnection hostName now o m with
  | (inl e, m') => (Some (inl e), m')
  | (inr _, m') => (settled (run_command false startTime s), m')
  end.

(** [execStreaming(hostName, command, onData)]: as [exec], with the calls
    made to [onData]. *)
Definition execStreaming (hostName : string) (now : Z) (o : ConnectOutcome)
    (startTime : Z) (s : ExecStart) (m : t)
  : option (Error + ExecResult) * list (string * bool) * t :=
  match getConnection hostName now o m with
  | (inl e, m') => (Some (inl e), [], m')
  | (inr _, m') =>
      let c := run_command true startTime s in (settled c, chunks c, m')
  end.

(** Output events, and what they add to the two buffers. *)
Definition is_output (e : StreamEvent) : Prop :=
  match e with
  | Data _ | StderrData _ => True
  | _ => False
  end.

Definition captured_stdout (es : list StreamEvent) : string :=
  foldl (fun acc e => match e with Data chunk => acc +:+ chunk | _ => acc end) "" es.

Definition captured_stderr (es : list StreamEvent) : string :=
  foldl (fun acc e => match e with StderrData chunk => acc +:+ chunk | _ => acc end) "" es.

(** The error classes of the specification, read off the messages. *)
Definition ExecFailed (e : Error) : Prop :=
  exists msg, message e = "Exec failed: " +:+ msg.

Definition StreamError (e : Error) : Prop :=
  exists msg, message e = "Stream error: " +:+ msg.

(** [closeAll()], with [armed] telling whether the interval timer of
    [startIdleCheck] is running: the timer is cleared and every entry of
    the pool is closed. *)
Definition closeAll (armed : bool) (m : t) : bool * t :=
  (false, map_fold (fun name _ acc => close name acc) m (connections m)).

(** The call of [onData] an event of the stream causes in
    [execStreaming]. *)
Definition chunk_of (e : StreamEvent) : option (string * bool) :=
  match e with
  | Data chunk => Some (chunk, false)
  | StderrData chunk => Some (chunk, true)
  | _ => None
  end.

(** The chunks handed to [onData] for one of the two streams, joined. *)
Definition joined (isStderr : bool) (calls : list (string * bool)) : string :=
  foldr (fun c acc => if Bool.eqb c.2 isStderr then c.1 +:+ acc else acc) "" calls.

End ConnectionManager.

(** ** The server process as seen by [JobTracker] and [SnapshotManager]

    Both classes reach the remote side only through
    [connectionManager.exec(host, command)] and read the clock with
    [Date.now()].  The remote side is an oracle: a call either throws or
    returns an [ExecResult], and may change the world. *)

Class Remote := {
  World : Type;
  remote_exec : string -> string -> World -> (Error + ExecResult) * World;
  date_now : World -> Z
}.

(** An object created by [JSON.parse]: its address tells it from an equal
    object parsed from another line. *)
Record Obj := mkObj {
  addr : nat;
  val : Snapshot.t
}.

Section Server.
Context `{Remote}.

(** The mutable state: the remote world, the trace of commands handed to
    [connectionManager.exec], the job table ([JobTracker.jobs], a [Map] in
    insertion order) and the lines of [snapshots/metadata.jsonl] ([None] is
    a line [JSON.parse] rejects). *)
Record Server := mkServer {
  world : World;
  issued : list (string * string);
  jobs : list (string * Job.t);
  metadata : list (option Snapshot.t)
}.

(** Computations that may throw; the state survives a throw. *)
Definition M (A : Type) : Type := Server -> (Error + A) * Server.

Definition ret {A} (a : A) : M A := fun s => (inr a, s).

Definition throw {A} (msg : string) : M A := fun s => (inl (mkError msg), s).

Definition bind {A B} (m : M A) (k : A -> M B) : M B :=
  fun s =>
    match m s with
    | (inr a, s') => k a s'
    | (inl e, s') => (inl e, s')
    end.

(** [try { m } catch { }] *)
Definition try_ (m : M unit) : M unit :=
  fun s =>
    match m s with
    | (inr _, s') => (inr tt, s')
    | (inl _, s') => (inr tt, s')
    end.

Definition gets {A} (f : Server -> A) : M A := fun s => (inr (f s), s).

(** [Date.now()] / [new Date()] *)
Definition now : M Z := gets (fun s => date_now (world s)).

(** [await this.connectionManager.exec(hostName, command)] *)
Definition exec (hostName command : string) : M ExecResult :=
  fun s =>
    let '(r, w) := remote_exec hostName command (world s) in
    (r, {| world := w; issued := issued s ++ [(hostName, command)];
           jobs := jobs s; metadata := metadata s |}).

(** [for (const x of l) { body(x) }] *)
Fixpoint for_each {A} (l : list A) (body : A -> M unit) : M unit :=
  match l with
  | [] => ret tt
  | x :: l' => bind (body x) (fun _ => for_each l' body)
  end.

End Server.

Declare Scope server_scope.
Delimit Scope server_scope with server.
Notation "'let*' x := m 'in' k" := (bind m (fun x => k))
  (at level 10, x name, m at level 100, k at level 200) : server_scope.
Notation "m ;; k" := (bind m (fun _ => k))
  (at level 100, k at level 200, right associativity) : server_scope.

(** ** audit-logger.ts, class [JobTracker] *)

Module JobTracker.
Section JobTracker.
Context `{Remote}.
Open Scope server_scope.

(** [Map.prototype.get] and the update of an object held by the map. *)
Fixpoint get (key : string) (l : list (string * Job.t)) : option Job.t :=
  match l with
  | [] => None
  | (k, j) :: l' => if String.eqb k key then Some j else get key l'
  end.

Fixpoint update (key : string) (j : Job.t) (l : list (string * Job.t))
  : list (string * Job.t) :=
  match l with
  | [] => []
  | (k, j0) :: l' =>
      if String.eqb k key then (k, j) :: l' else (k, j0) :: update key j l'
  end.

Definition lookup_job (jobId : string) : M Job.t :=
  let* table := gets jobs in
  match get jobId table with
  | Some job => ret job
  | None => throw ("Job not found: " +:+ jobId)
  end.

(** The job object after the three assignments
    [job.status = st; job.exitCode = code; job.endTime = end_]. *)
Definition finalized (job : Job.t) (st : JobStatus) (code : Z) (end_ : Z) : Job.t :=
  {| Job.id := Job.id job; Job.host := Job.host job;
     Job.command := Job.command job; Job.name := Job.name job;
     Job.status := st; Job.pid := Job.pid job;
     Job.startTime := Job.startTime job; Job.endTime := Some end_;
     Job.exitCode := Some code; Job.outputFile := Job.outputFile job |}.

(** Those assignments, made to the job object found under [jobId]. *)
Definition finalize (jobId : string) (job : Job.t) (st : JobStatus)
    (code : Z) (end_ : Z) : M Job.t :=
  let job' := finalized job st code end_ in
  fun s =>
    (inr job',
     {| world := world s; issued := issued s;
        jobs := update jobId job' (jobs s); metadata := metadata s |}).

Definition checkCmd (job : Job.t) : string :=
  "ps -p " +:+ JS.string_of_number (Job.pid job)
    +:+ " -o pid= 2>/dev/null || echo " +:+ JS.quoted "done".

Definition waitCmd (job : Job.t) : string :=
  "wait " +:+ JS.string_of_number (Job.pid job) +:+ " 2>/dev/null; echo $?".

Definition killCmd (job : Job.t) : string :=
  "kill " +:+ JS.string_of_number (Job.pid job) +:+ " 2>/dev/null && echo "
    +:+ JS.quoted "killed" +:+ " || echo " +:+ JS.quoted "failed".

(** [result.stdout.trim() === 'done' || result.stdout.trim() === ''] *)
Definition process_gone (result : ExecResult) : bool :=
  String.eqb (JS.trim (stdout result)) "done"
  || String.eqb (JS.trim (stdout result)) "".

(** [parseInt(exitResult.stdout.trim(), 10) || 0] *)
Definition recovered_exit_code (exitResult : ExecResult) : Z :=
  JS.or_zero (JS.parseInt (JS.trim (stdout exitResult))).

(** [getStatus(jobId)] *)
Definition getStatus (jobId : string) : M Job.t :=
  let* job := lookup_job jobId in
  match Job.status job with
  | running =>
      let* result := exec (Job.host job) (checkCmd job) in
      if process_gone result then
        let* exitResult := exec (Job.host job) (waitCmd job) in
        let exitCode := recovered_exit_code exitResult in
        let* t := now in
        finalize jobId job (if exitCode =? 0 then completed else failed)
          exitCode t
      else ret job
  | _ => ret job
  end.

(** [kill(jobId)] *)
Definition kill (jobId : string) : M bool :=
  let* job := lookup_job jobId in
  match Job.status job with
  | running =>
      let* result := exec (Job.host job) (killCmd job) in
      if String.eqb (JS.trim (stdout result)) "killed" then
        let* t := now in
        finalize jobId job failed (-9) t ;;
        ret true
      else ret false
  | _ => ret false
  end.

Definition is_running (job : Job.t) : bool :=
  match Job.status job with running => true | _ => false end.

(** The body of the refresh loop of [list], for the job object held under
    [key]. *)
Definition refresh (key : string) : M unit :=
  let* table := gets jobs in
  match get key table with
  | Some job => if is_running job then getStatus (Job.id job) ;; ret tt else ret tt
  | None => ret tt
  end.

(** Every job object sits under its own identifier, and no identifier is
    used twice: what [start], the only writer of keys, maintains. *)
Definition wf_jobs (table : list (string * Job.t)) : Prop :=
  NoDup (fst <$> table) /\ Forall (fun e => Job.id e.2 = e.1) table.

Definition byStartTimeDesc (a b : Job.t) : Z := Job.startTime b - Job.startTime a.

(** [list(hostName)]: the array holds the job objects themselves, so what
    is sorted and returned are the objects as the refresh loop left
    them. *)
Definition list (hostName : option string) : M (list Job.t) :=
  let* table := gets jobs in
  let keys := fst <$> filter (fun e => selects hostName (Job.host e.2) = true) table in
  for_each keys refresh ;;
  let* table' := gets jobs in
  ret (JS.sort byStartTimeDesc (omap (fun k => get k table') keys)).

(** The error class of the specification, read off the message. *)
Definition JobNotFound (jobId : string) : Error :=
  mkError ("Job not found: " +:+ jobId).

(** [Map.prototype.set]: the value of a key already present is replaced
    in place, a new key comes last. *)
Definition set (key : string) (j : Job.t) (l : Datatypes.list (string * Job.t))
  : Datatypes.list (string * Job.t) :=
  match get key l with
  | Some _ => update key j l
  | None => l ++ [(key, j)]
  end.

(** [Map.prototype.delete] *)
Fixpoint remove (key : string) (l : Datatypes.list (string * Job.t))
  : Datatypes.list (string * Job.t) :=
  match l with
  | [] => []
  | (k, j) :: l' =>
      if String.eqb k key then remove key l' else (k, j) :: remove key l'
  end.

(** [command.replace(/'/g, "'\\''")]: every single quote becomes the four
    characters quote, backslash, quote, quote. *)
Fixpoint escape_quotes (s : string) : string :=
  match s with
  | EmptyString => EmptyString
  | String c s' =>
      if Ascii.eqb c "'" then "'\''" +:+ escape_quotes s'
      else String c (escape_quotes s')
  end.

Definition outputFileOf (id : string) : string :=
  "/tmp/enrichedlab_job_" +:+ id +:+ ".out".

Definition pidFileOf (id : string) : string :=
  "/tmp/enrichedlab_job_" +:+ id +:+ ".pid".

Definition wrappedCmd (id command : string) : string :=
  "nohup sh -c '" +:+ escape_quotes command +:+ "' > "
    +:+ JS.quoted (outputFileOf id) +:+ " 2>&1 & echo $! > "
    +:+ JS.quoted (pidFileOf id).

Definition readPidCmd (id : string) : string :=
  "cat " +:+ JS.quoted (pidFileOf id).

(** [start(hostName, command, name)]; [id] is what [generateId()] returned
    (it draws on the clock and on [Math.random]). *)
Definition start (id hostName command : string) (name : option string) : M Job.t :=
  exec hostName (wrappedCmd id command) ;;
  let* pidResult := exec hostName (readPidCmd id) in
  let pid := JS.parseInt (JS.trim (stdout pidResult)) in
  let* t := now in
  let job :=
    {| Job.id := id; Job.host := hostName; Job.command := command;
       Job.name := name; Job.status := running; Job.pid := pid;
       Job.startTime := t; Job.endTime := None; Job.exitCode := None;
       Job.outputFile := outputFileOf id |} in
  fun s =>
    (inr job,
     {| world := world s; issued := issued s;
        jobs := set id job (jobs s); metadata := metadata s |}).

Definition outputCmd (job : Job.t) (tail : option Z) : string :=
  match tail with
  | Some n =>
      if 0 <? n then
        "tail -n " +:+ JS.string_of_Z n +:+ " " +:+ JS.quoted (Job.outputFile job)
          +:+ " 2>/dev/null || echo " +:+ JS.quoted "[No output yet]"
      else
        "cat " +:+ JS.quoted (Job.outputFile job)
          +:+ " 2>/dev/null || echo " +:+ JS.quoted "[No output yet]"
  | None =>
      "cat " +:+ JS.quoted (Job.outputFile job)
        +:+ " 2>/dev/null || echo " +:+ JS.quoted "[No output yet]"
  end.

(** [getOutput(jobId, tail)] *)
Definition getOutput (jobId : string) (tail : option Z) : M string :=
  let* job := lookup_job jobId in
  let* result := exec (Job.host job) (outputCmd job tail) in
  ret (stdout result).

Definition removeFilesCmd (job : Job.t) : string :=
  "rm -f " +:+ JS.quoted (Job.outputFile job) +:+ " "
    +:+ JS.quoted ("/tmp/enrichedlab_job_" +:+ Job.id job +:+ ".pid").

(** [cleanup(jobId)] *)
Definition cleanup (jobId : string) : M unit :=
  let* table := gets jobs in
  match get jobId table with
  | None => ret tt
  | Some job =>
      try_ (exec (Job.host job) (removeFilesCmd job) ;; ret tt) ;;
      fun s =>
        (inr tt,
         {| world := world s; issued := issued s;
            jobs := remove jobId (jobs s); metadata := metadata s |})
  end.

(** A computation keeps the job table well formed. *)
Definition keeps_wf {A} (m : M A) : Prop :=
  forall s, wf_jobs (jobs s) -> wf_jobs (jobs (m s).2).

(** *** Calls that overlap

    The methods are [async]: a call runs until it awaits the answer of a
    remote command, and goes on when the answer is there; in between the
    server runs other calls, begun or resumed.  A suspended call holds
    the job object it looked up, which is the object the table holds
    under [key] for as long as it holds one (identifiers are not used
    twice).  [getStatus], [kill] and [list] above are the runs in which
    nothing happens in between. *)

(** Handing a command to [connectionManager.exec], and taking its answer
    when the awaited promise settles. *)
Definition send (hostName command : string) : M unit :=
  fun s =>
    (inr tt,
     {| world := world s; issued := issued s ++ [(hostName, command)];
        jobs := jobs s; metadata := metadata s |}).

Definition receive (hostName command : string) : M ExecResult :=
  fun s =>
    let '(r, w) := remote_exec hostName command (world s) in
    (r, {| world := w; issued := issued s; jobs := jobs s; metadata := metadata s |}).

(** The two [await]s of [getStatus]: on the probe (line 124) and on the
    wait command (line 128). *)
Inductive StatusWait := AtCheck | AtWait.

(** [getStatus(jobId)] up to its first [await]: the job that is returned
    at once, or the job object held while waiting for the probe. *)
Definition getStatus_begin (jobId : string) : M (Job.t + Job.t) :=
  let* job := lookup_job jobId in
  match Job.status job with
  | running => send (Job.host job) (checkCmd job) ;; ret (inr job)
  | _ => ret (inl job)
  end.

(** The job object as it is now. *)
Definition current (key : string) (job : Job.t) : M Job.t :=
  let* table := gets jobs in
  ret (default job (get key table)).

(** [getStatus] from one [await] to the next, or to its [return]: the
    status is not tested again. *)
Definition getStatus_resume (key : string) (job : Job.t) (at_ : StatusWait)
  : M (Job.t + StatusWait) :=
  match at_ with
  | AtCheck =>
      let* result := receive (Job.host job) (checkCmd job) in
      if process_gone result then
        send (Job.host job) (waitCmd job) ;; ret (inr AtWait)
      else
        let* job' := current key job in
        ret (inl job')
  | AtWait =>
      let* exitResult := receive (Job.host job) (waitCmd job) in
      let exitCode := recovered_exit_code exitResult in
      let* t := now in
      let* job' :=
        finalize key job (if exitCode =? 0 then completed else failed) exitCode t in
      ret (inl job')
  end.

(** [kill(jobId)] up to its [await] (line 193), and from there on. *)
Definition kill_begin (jobId : string) : M (bool + Job.t) :=
  let* job := lookup_job jobId in
  match Job.status job with
  | running => send (Job.host job) (killCmd job) ;; ret (inr job)
  | _ => ret (inl false)
  end.

Definition kill_resume (key : string) (job : Job.t) : M bool :=
  let* result := receive (Job.host job) (killCmd job) in
  if String.eqb (JS.trim (stdout result)) "killed" then
    let* t := now in
    finalize key job failed (-9) t ;;
    ret true
  else ret false.

(** A suspended call: [getStatus] or [kill] waiting for an answer; [list]
    waiting for the [getStatus] call it made for one of its jobs, with
    the keys it selected and those still to visit; [list] whose
    [getStatus] call has returned and which goes on at its next turn. *)
Inductive Pending :=
| InGetStatus (key : string) (job : Job.t) (at_ : StatusWait)
| InKill (key : string) (job : Job.t)
| InList (keys rest : Datatypes.list string) (key : string) (job : Job.t)
    (at_ : StatusWait)
| InListNext (keys rest : Datatypes.list string).

(** What a call returns. *)
Inductive Value :=
| VJob (job : Job.t)
| VBool (b : bool)
| VJobs (js : Datatypes.list Job.t).

(** The loop of [list] from the job under its hand to its next [await],
    or to the [return]. *)
Fixpoint list_loop (keys rest : Datatypes.list string) : M (Value + Pending) :=
  match rest with
  | [] =>
      let* table := gets jobs in
      ret (inl (VJobs (JS.sort byStartTimeDesc (omap (fun k => get k table) keys))))
  | k :: rest' =>
      let* table := gets jobs in
      match get k table with
      | Some job =>
          if is_running job then
            let* r := getStatus_begin (Job.id job) in
            match r with
            | inl _ => ret (inr (InListNext keys rest'))
            | inr job0 => ret (inr (InList keys rest' (Job.id job) job0 AtCheck))
            end
          else list_loop keys rest'
      | None => list_loop keys rest'
      end
  end.

(** The calls a client makes. *)
Inductive Request :=
| ReqGetStatus (jobId : string)
| ReqKill (jobId : string)
| ReqList (hostName : option string).

(** A call from its start to its first [await] or to its end. *)
Definition begin (req : Request) : M (Value + Pending) :=
  match req with
  | ReqGetStatus jobId =>
      let* r := getStatus_begin jobId in
      match r with
      | inl job => ret (inl (VJob job))
      | inr job => ret (inr (InGetStatus jobId job AtCheck))
      end
  | ReqKill jobId =>
      let* r := kill_begin jobId in
      match r with
      | inl b => ret (inl (VBool b))
      | inr job => ret (inr (InKill jobId job))
      end
  | ReqList hostName =>
      let* table := gets jobs in
      let keys :=
        fst <$> filter (fun e => selects hostName (Job.host e.2) = true) table in
      list_loop keys keys
  end.

(** A suspended call from the answer it waited for to its next [await]
    or to its end. *)
Definition resume (p : Pending) : M (Value + Pending) :=
  match p with
  | InGetStatus key job at_ =>
      let* r := getStatus_resume key job at_ in
      match r with
      | inl job' => ret (inl (VJob job'))
      | inr at' => ret (inr (InGetStatus key job at'))
      end
  | InKill key job =>
      let* b := kill_resume key job in
      ret (inl (VBool b))
  | InList keys rest key job at_ =>
      let* r := getStatus_resume key job at_ in
      match r with
      | inl _ => ret (inr (InListNext keys rest))
      | inr at' => ret (inr (InList keys rest key job at'))
      end
  | InListNext keys rest => list_loop keys rest
  end.

(** The server with its calls in flight and the replies given so far. *)
Record System := mkSystem {
  state : Server;
  calls : Datatypes.list Pending;
  replies : Datatypes.list (Error + Value)
}.

(** What happens next: a client makes a call, or the answer awaited by the
    [n]-th call in flight arrives. *)
Inductive Action :=
| Call (req : Request)
| Resume (n : nat).

Definition act (sys : System) (a : Action) : System :=
  match a with
  | Call req =>
      match begin req (state sys) with
      | (inr (inr p), s') => mkSystem s' (calls sys ++ [p]) (replies sys)
      | (inr (inl v), s') => mkSystem s' (calls sys) (replies sys ++ [inr v])
      | (inl e, s') => mkSystem s' (calls sys) (replies sys ++ [inl e])
      end
  | Resume n =>
      match calls sys !! n with
      | None => sys
      | Some p =>
          match resume p (state sys) with
          | (inr (inr p'), s') => mkSystem s' (<[n := p']> (calls sys)) (replies sys)
          | (inr (inl v), s') =>
              mkSystem s' (delete n (calls sys)) (replies sys ++ [inr v])
          | (inl e, s') =>
              mkSystem s' (delete n (calls sys)) (replies sys ++ [inl e])
          end
      end
  end.

Definition schedule (sys : System) (acts : Datatypes.list Action) : System :=
  foldl act sys acts.

(** A call run by itself: every answer it awaits arrives before anything
    else happens ([fuel] bounds the number of answers). *)
Fixpoint finish (fuel : nat) (r : (Error + (Value + Pending)) * Server)
  : (Error + (Value + Pending)) * Server :=
  match fuel, r with
  | S fuel', (inr (inr p), s) => finish fuel' (resume p s)
  | _, _ => r
  end.

(** The call holds the job object found under [k]: it found the job
    running and has not finished with it. *)
Definition holds (k : string) (p : Pending) : Prop :=
  match p with
  | InGetStatus key _ _ | InKill key _ | InList _ _ key _ _ => key = k
  | InListNext _ _ => False
  end.

(** What a refresh may have done to a job object: nothing, or, for a
    running job, the three assignments of [getStatus]. *)
Definition refreshed (job job' : Job.t) : Prop :=
  job' = job \/
  (Job.status job = running /\
   exists code t,
     job' = finalized job (if code =? 0 then completed else failed) code t).

(** The commands one refresh of [job] hands to the remote side: none for a
    finished job; for a running job the probe, followed by the wait command
    when the probe found the process gone. *)
Definition probes (job : Job.t) (cmds : Datatypes.list (string * string)) : Prop :=
  if is_running job then
    cmds = [(Job.host job, checkCmd job)] \/
    cmds = [(Job.host job, checkCmd job); (Job.host job, waitCmd job)]
  else cmds = [].

(** The job object held under [k] is left as it is by a computation. *)
Definition keeps {A} (k : string) (job : Job.t) (m : M A) : Prop :=
  forall s, get k (jobs s) = Some job -> get k (jobs (m s).2) = Some job.

(** The remote side answers every command. *)
Definition answers_all : Prop :=
  forall h c w, exists r w', remote_exec h c w = (inr r, w').

End JobTracker.
End JobTracker.

(** ** The listing of jobs, in the words of the specification

    A second description of what [JobTracker.list] does to the jobs it
    selects, written from the sentences of the specification about the
    liveness probe, the wait-for-pid idiom and the finalization, job by job
    and without the job table.  It is compared with the embedding of the
    code in the properties of [list]. *)

Module JobListSpec.
Section JobListSpec.
Context `{Remote}.

(** The liveness probe and the wait-for-pid idiom, as sent. *)
Definition probeText (job : Job.t) : string :=
  "ps -p " +:+ JS.string_of_number (Job.pid job) +:+ " -o pid= 2>/dev/null || echo "
    +:+ String "034"%char EmptyString +:+ "done" +:+ String "034"%char EmptyString.

Definition waitText (job : Job.t) : string :=
  "wait " +:+ JS.string_of_number (Job.pid job) +:+ " 2>/dev/null; echo $?".

(** The record of a job whose exit status was recovered: completed for
    status 0, failed otherwise, with exit code and end time. *)
Definition closed (job : Job.t) (code end_ : Z) : Job.t :=
  {| Job.id := Job.id job; Job.host := Job.host job;
     Job.command := Job.command job; Job.name := Job.name job;
     Job.status := if code =? 0 then completed else failed;
     Job.pid := Job.pid job; Job.startTime := Job.startTime job;
     Job.endTime := Some end_; Job.exitCode := Some code;
     Job.outputFile := Job.outputFile job |}.

(** What one refresh gives: the record afterwards or the error, the remote
    world afterwards, and the commands sent. *)
Record Refresh := mkRefresh {
  outcome : Error + Job.t;
  world_after : World;
  sent : list (string * string)
}.

(** A job that is not running is left alone.  A running job is probed;
    when the probe prints [done] or nothing the process is gone: the wait
    command is sent and the exit status it prints (0 when it prints no
    number) closes the record.  A failing command ends the refresh with
    its error. *)
Definition refresh_one (job : Job.t) (w : World) : Refresh :=
  match Job.status job with
  | running =>
      let probe := (Job.host job, probeText job) in
      let wait := (Job.host job, waitText job) in
      match remote_exec probe.1 probe.2 w with
      | (inl e, w1) => mkRefresh (inl e) w1 [probe]
      | (inr r1, w1) =>
          let printed := JS.trim (stdout r1) in
          if String.eqb printed "done" || String.eqb printed "" then
            match remote_exec wait.1 wait.2 w1 with
            | (inl e, w2) => mkRefresh (inl e) w2 [probe; wait]
            | (inr r2, w2) =>
                let code :=
                  match JS.parseInt (JS.trim (stdout r2)) with
                  | Some n => n
                  | None => 0
                  end in
                mkRefresh (inr (closed job code (date_now w2))) w2 [probe; wait]
            end
          else mkRefresh (inr job) w1 [probe]
      end
  | _ => mkRefresh (inr job) w []
  end.

(** A round over the selected jobs, in order: the records of the jobs
    refreshed, the error that ended the round early if one did, the remote
    world at the end and all the commands sent. *)
Record Round := mkRound {
  refreshed : list Job.t;
  failure : option Error;
  world_end : World;
  sent_all : list (string * string)
}.

Fixpoint refresh_all (selected : list Job.t) (w : World) : Round :=
  match selected with
  | [] => mkRound [] None w []
  | job :: rest =>
      let r := refresh_one job w in
      match outcome r with
      | inl e => mkRound [] (Some e) (world_after r) (sent r)
      | inr job' =>
          let round := refresh_all rest (world_after r) in
          mkRound (job' :: refreshed round) (failure round) (world_end round)
            (sent r ++ sent_all round)
      end
  end.

End JobListSpec.
End JobListSpec.

(** ** snapshot-manager.ts *)

Module SnapshotManager.
Section SnapshotManager.
Context `{Remote}.
Open Scope server_scope.

(** [config.snapshots.retention] *)
Variable retention : SnapshotRetention.

(** [dirname] of [node:path]. *)
Variable dirname : string -> string.

(** [saveMetadata(metadata)]: one more line at the end of the file. *)
Definition saveMetadata (metadata_ : Snapshot.t) : M unit :=
  fun s =>
    (inr tt,
     {| world := world s; issued := issued s; jobs := jobs s;
        metadata := metadata s ++ [Some metadata_] |}).

(** [lines.map(JSON.parse).filter(s => s !== null)]: the object parsed
    from line [i] lives at address [i]. *)
Fixpoint parse_lines (i : nat) (lines : list (option Snapshot.t)) : list Obj :=
  match lines with
  | [] => []
  | Some s :: ls => mkObj i s :: parse_lines (S i) ls
  | None :: ls => parse_lines (S i) ls
  end.

Definition byTsDesc (a b : Obj) : Z := Snapshot.ts (val b) - Snapshot.ts (val a).

(** The parsed records that pass the host filter of [list], in file
    order. *)
Definition matching (hostName : option string) (lines : list (option Snapshot.t))
  : list Obj :=
  filter (fun s => selects hostName (Snapshot.host (val s)) = true)
    (parse_lines 0 lines).

(** What [list] computes from the lines of the file (an absent file gives
    the same as an empty one). *)
Definition listed (hostName : option string) (limit : Z)
    (lines : list (option Snapshot.t)) : list Obj :=
  JS.slice0 limit (JS.sort byTsDesc (matching hostName lines)).

(** [snapshots.indexOf(snapshot)]: the first position holding that very
    object, or [-1]. *)
Fixpoint indexOf_from (i : Z) (l : list Obj) (x : Obj) : Z :=
  match l with
  | [] => -1
  | y :: l' => if (addr y =? addr x)%nat then i else indexOf_from (i + 1) l' x
  end.

Definition indexOf (l : list Obj) (x : Obj) : Z := indexOf_from 0 l x.

(** The loop that fills [byHost]. *)
Definition group (snapshots : list Obj) : gmap string (list Obj) :=
  foldl
    (fun byHost s =>
       let l := default [] (byHost !! Snapshot.host (val s)) in
       <[Snapshot.host (val s) := l ++ [s]]> byHost)
    ∅ snapshots.

(** [list(hostName, limit)] *)
Definition list (hostName : option string) (limit : Z) : M (Datatypes.list Obj) :=
  let* lines := gets metadata in
  ret (listed hostName limit lines).

Definition checkoutCmd (path commit : string) : string :=
  "cd " +:+ JS.quoted path +:+ " && git checkout " +:+ commit.

Definition untarCmd (backup parentDir : string) : string :=
  "tar -xzf " +:+ JS.quoted backup +:+ " -C " +:+ JS.quoted parentDir.

Definition copyCmd (backup path : string) : string :=
  "cp " +:+ JS.quoted backup +:+ " " +:+ JS.quoted path.

Definition rmCmd (backup : string) : string := "rm -rf " +:+ JS.quoted backup.

(** [restoreGit(snapshot)] *)
Definition restoreGit (snapshot : Snapshot.t) : M string :=
  if JS.truthy (Snapshot.commit snapshot) then
    let commit := default "" (Snapshot.commit snapshot) in
    exec (Snapshot.host snapshot) (checkoutCmd (Snapshot.path snapshot) commit) ;;
    ret ("Restored git commit " +:+ substring 0 8 commit +:+ " in "
           +:+ Snapshot.path snapshot)
  else throw "Git snapshot missing commit hash".

(** [restoreTar(snapshot)] *)
Definition restoreTar (snapshot : Snapshot.t) : M string :=
  if JS.truthy (Snapshot.backup snapshot) then
    let backup := default "" (Snapshot.backup snapshot) in
    let parentDir := dirname (Snapshot.path snapshot) in
    exec (Snapshot.host snapshot) (untarCmd backup parentDir) ;;
    ret ("Restored " +:+ Snapshot.path snapshot +:+ " from tar backup")
  else throw "Tar snapshot missing backup path".

(** [restoreFile(snapshot)] *)
Definition restoreFile (snapshot : Snapshot.t) : M string :=
  if JS.truthy (Snapshot.backup snapshot) then
    let backup := default "" (Snapshot.backup snapshot) in
    exec (Snapshot.host snapshot) (copyCmd backup (Snapshot.path snapshot)) ;;
    ret ("Restored file " +:+ Snapshot.path snapshot)
  else throw "File snapshot missing backup path".

(** [restore(snapshotId)].  The [default] branch of the [switch] cannot be
    reached by a value of the declared type of [type]. *)
Definition restore (snapshotId : string) : M string :=
  let* snapshots := list None 1000 in
  match JS.find (fun s => String.eqb (Snapshot.id (val s)) snapshotId) snapshots with
  | None => throw ("Snapshot not found: " +:+ snapshotId)
  | Some snapshot =>
      match Snapshot.type (val snapshot) with
      | git => restoreGit (val snapshot)
      | tar => restoreTar (val snapshot)
      | sftp => restoreFile (val snapshot)
      end
  end.

(** [removeSnapshot(snapshot)]: nothing is written to the metadata file. *)
Definition removeSnapshot (snapshot : Snapshot.t) : M unit :=
  if JS.truthy (Snapshot.backup snapshot) then
    try_ (exec (Snapshot.host snapshot)
            (rmCmd (default "" (Snapshot.backup snapshot))) ;; ret tt)
  else ret tt.

(** The second loop of [cleanup]; [removed] is the counter. *)
Fixpoint cleanup_loop (cutoffDate : Z) (byHost : gmap string (Datatypes.list Obj))
    (snapshots : Datatypes.list Obj) (removed : Z) : M Z :=
  match snapshots with
  | [] => ret removed
  | snapshot :: rest =>
      let hostSnapshots := default [] (byHost !! Snapshot.host (val snapshot)) in
      let index := indexOf hostSnapshots snapshot in
      if index <? keepMinCount retention then
        cleanup_loop cutoffDate byHost rest removed
      else if Snapshot.ts (val snapshot) <? cutoffDate then
        removeSnapshot (val snapshot) ;;
        cleanup_loop cutoffDate byHost rest (removed + 1)
      else cleanup_loop cutoffDate byHost rest removed
  end.

Definition cutoff (t : Z) : Z := t - maxAgeDays retention * 24 * 60 * 60 * 1000.

(** [cleanup(hostName)] *)
Definition cleanup (hostName : option string) : M Z :=
  let* t := now in
  let cutoffDate := cutoff t in
  let* snapshots := list hostName 10000 in
  cleanup_loop cutoffDate (group snapshots) snapshots 0.

(** *** Creating snapshots *)

(** [config.logging.remotePath] and [config.snapshots.autoSnapshotOnUpload] *)
Variable remotePath : string.
Variable autoSnapshotOnUpload : bool.

(** [basename] of [node:path] and [Date.prototype.toISOString]. *)
Variable basename : string -> string.
Variable toISOString : Z -> string.

(** [try { return await m } catch { return d }] *)
Definition try_or {A} (m : M A) (d : A) : M A :=
  fun s =>
    match m s with
    | (inr a, s') => (inr a, s')
    | (inl _, s') => (inr d, s')
    end.

Definition isGitCmd (path : string) : string :=
  "[ -d " +:+ JS.quoted (path +:+ "/.git") +:+ " ] && echo " +:+ JS.quoted "git".

Definition fileExistsCmd (path : string) : string :=
  "[ -f " +:+ JS.quoted path +:+ " ] && echo " +:+ JS.quoted "exists".

(** [isGitDirectory(hostName, path)] *)
Definition isGitDirectory (hostName path : string) : M bool :=
  try_or
    (let* result := exec hostName (isGitCmd path) in
     ret (String.eqb (JS.trim (stdout result)) "git"))
    false.

(** [fileExists(hostName, path)] *)
Definition fileExists (hostName path : string) : M bool :=
  try_or
    (let* result := exec hostName (fileExistsCmd path) in
     ret (String.eqb (JS.trim (stdout result)) "exists"))
    false.

Definition commitCmd (path : string) (t : Z) : string :=
  "cd " +:+ JS.quoted path +:+ " && git add -A && git commit -m "
    +:+ JS.quoted ("snapshot: " +:+ toISOString t)
    +:+ " --allow-empty 2>/dev/null; git rev-parse HEAD".

(** [createGitSnapshot(hostName, path)] *)
Definition createGitSnapshot (hostName path : string) : M string :=
  let* t := now in
  let* result := exec hostName (commitCmd path t) in
  ret (JS.trim (stdout result)).

Definition snapshotDirOf (timestamp : Z) : string :=
  remotePath +:+ "/snapshots/" +:+ JS.string_of_Z timestamp.

Definition tarFileOf (path : string) (timestamp : Z) : string :=
  snapshotDirOf timestamp +:+ "/" +:+ basename path +:+ ".tar.gz".

Definition tarCmd (path : string) (timestamp : Z) : string :=
  "mkdir -p " +:+ JS.quoted (snapshotDirOf timestamp) +:+ " && tar -czf "
    +:+ JS.quoted (tarFileOf path timestamp)
    +:+ " -C " +:+ JS.quoted ("$(dirname " +:+ path +:+ ")")
    +:+ " " +:+ JS.quoted ("$(basename " +:+ path +:+ ")").

(** [createTarSnapshot(hostName, path, timestamp)] *)
Definition createTarSnapshot (hostName path : string) (timestamp : Z) : M string :=
  exec hostName (tarCmd path timestamp) ;;
  ret (tarFileOf path timestamp).

(** [create(hostName, path)]; [id] is what [generateId()] returned.  The
    clock is read twice in a row, for [timestamp] and for [ts]; no command
    runs in between and the two readings are one here. *)
Definition create (id hostName path : string) : M string :=
  let* timestamp := now in
  let* isGit := isGitDirectory hostName path in
  let* metadata_ :=
    if isGit then
      let* commit := createGitSnapshot hostName path in
      ret {| Snapshot.ts := timestamp; Snapshot.id := id; Snapshot.type := git;
             Snapshot.host := hostName; Snapshot.path := path;
             Snapshot.backup := None; Snapshot.commit := Some commit |}
    else
      let* backup := createTarSnapshot hostName path timestamp in
      ret {| Snapshot.ts := timestamp; Snapshot.id := id; Snapshot.type := tar;
             Snapshot.host := hostName; Snapshot.path := path;
             Snapshot.backup := Some backup; Snapshot.commit := None |} in
  saveMetadata metadata_ ;;
  ret id.

Definition backupPathOf (path : string) (timestamp : Z) : string :=
  snapshotDirOf timestamp +:+ "/" +:+ basename path.

Definition backupCmd (path : string) (timestamp : Z) : string :=
  "mkdir -p " +:+ JS.quoted (snapshotDirOf timestamp) +:+ " && cp "
    +:+ JS.quoted path +:+ " " +:+ JS.quoted (backupPathOf path timestamp).

(** [createFileSnapshot(hostName, remotePath)]; [id] is what
    [generateId()] returns when it is reached, and [None] is [null]. *)
Definition createFileSnapshot (id hostName path : string) : M (option string) :=
  if negb autoSnapshotOnUpload then ret None
  else
    let* exists_ := fileExists hostName path in
    if negb exists_ then ret None
    else
      let* timestamp := now in
      exec hostName (backupCmd path timestamp) ;;
      saveMetadata
        {| Snapshot.ts := timestamp; Snapshot.id := id; Snapshot.type := sftp;
           Snapshot.host := hostName; Snapshot.path := path;
           Snapshot.backup := Some (backupPathOf path timestamp);
           Snapshot.commit := None |} ;;
      ret (Some id).

(** *** Vocabulary of the properties *)

(** The records of host [h]. *)
Definition of_host (h : string) (o : Obj) : Prop := Snapshot.host (val o) = h.

#[global] Instance of_host_dec h o : Decision (of_host h o) :=
  decide (Snapshot.host (val o) = h).

(** Created before the cutoff that [cleanup] computes when the clock reads
    [t]. *)
Definition expired (t : Z) (o : Obj) : Prop := Snapshot.ts (val o) < cutoff t.

#[global] Instance expired_dec t o : Decision (expired t o) :=
  decide (Snapshot.ts (val o) < cutoff t).

(** The command by which [removeSnapshot] deletes the remote artifact of a
    record, if it issues one. *)
Definition rm_command (o : Obj) : option (string * string) :=
  if JS.truthy (Snapshot.backup (val o)) then
    Some (Snapshot.host (val o), rmCmd (default "" (Snapshot.backup (val o))))
  else None.

(** The test of the second loop of [cleanup]: beyond the kept ones of its
    host, and older than the cutoff. *)
Definition doomed (cutoffDate : Z) (byHost : gmap string (Datatypes.list Obj))
    (o : Obj) : bool :=
  negb (indexOf (default [] (byHost !! Snapshot.host (val o))) o
          <? keepMinCount retention)
  && (Snapshot.ts (val o) <? cutoffDate).

(** The records on which [cleanup], called with the clock reading [t] on a
    file with the given lines, calls [removeSnapshot], in that order. *)
Definition removed_by_cleanup (hostName : option string) (t : Z)
    (lines : Datatypes.list (option Snapshot.t)) : Datatypes.list Obj :=
  let snapshots := listed hostName 10000 lines in
  filter (fun o => doomed (cutoff t) (group snapshots) o = true) snapshots.

(** The reference field a record of each variant needs for [restore], the
    command [restore] then issues, and the summary it returns. *)
Definition required_reference (snapshot : Snapshot.t) : option string :=
  match Snapshot.type snapshot with
  | git => Snapshot.commit snapshot
  | tar | sftp => Snapshot.backup snapshot
  end.

Definition restore_command (snapshot : Snapshot.t) (ref : string) : string :=
  match Snapshot.type snapshot with
  | git => checkoutCmd (Snapshot.path snapshot) ref
  | tar => untarCmd ref (dirname (Snapshot.path snapshot))
  | sftp => copyCmd ref (Snapshot.path snapshot)
  end.

Definition restore_summary (snapshot : Snapshot.t) (ref : string) : string :=
  match Snapshot.type snapshot with
  | git => "Restored git commit " +:+ substring 0 8 ref +:+ " in "
             +:+ Snapshot.path snapshot
  | tar => "Restored " +:+ Snapshot.path snapshot +:+ " from tar backup"
  | sftp => "Restored file " +:+ Snapshot.path snapshot
  end.

(** The error classes of the specification, read off the messages. *)
Definition SnapshotNotFound (snapshotId : string) : Error :=
  mkError ("Snapshot not found: " +:+ snapshotId).

Definition CorruptRecord (ty : SnapshotType) : Error :=
  match ty with
  | git => mkError "Git snapshot missing commit hash"
  | tar => mkError "Tar snapshot missing backup path"
  | sftp => mkError "File snapshot missing backup path"
  end.

End SnapshotManager.
End SnapshotManager.

(** ** audit-logger.ts, class [AuditLogger] *)

Module AuditLogger.

(** [AuditLogEntry] of types.ts; [ts] as milliseconds. *)
Record Entry := mkEntry {
  ts : Z;
  host : string;
  cmd : string;
  exit : Z;
  duration_ms : Z;
  user : string;
  output : option string;
  sudo : option bool
}.

(** The local audit files: what has been appended to each path. *)
Definition Files := gmap string (list string).

Section AuditLogger.
Context `{Remote}.
Local Open Scope server_scope.

(** [config.logging.localPath] and [config.logging.remotePath]; [join] and
    [dirname] of [node:path]; [JSON.stringify] on audit entries. *)
Variable localPath : string.
Variable remotePath : string.
Variable join : list string -> string.
Variable dirname : string -> string.
Variable stringify : Entry -> string.

Definition nl : string := String (ascii_of_nat 10) EmptyString.

(** [getLocalLogPath(hostName)] *)
Definition getLocalLogPath (hostName : string) : string :=
  join [localPath; hostName; "audit.log"].

(** [getRemoteLogPath()] *)
Definition getRemoteLogPath : string := remotePath +:+ "/audit.log".

(** [logLocal(hostName, line)]: the directory is created when missing and
    the line appended to the file (failures of the local file system are
    not modelled). *)
Definition logLocal (hostName line : string) (files : Files) : Files :=
  let localPath_ := getLocalLogPath hostName in
  <[localPath_ := default [] (files !! localPath_) ++ [line]]> files.

Definition remoteLogCmd (line : string) : string :=
  "mkdir -p " +:+ JS.quoted (dirname getRemoteLogPath) +:+ " && echo '"
    +:+ JobTracker.escape_quotes line +:+ "' >> " +:+ JS.quoted getRemoteLogPath.

(** [logRemote(hostName, line)] *)
Definition logRemote (hostName line : string) : M unit :=
  try_ (exec hostName (remoteLogCmd line) ;; ret tt).

(** [log(entry)]: the local append comes first, then the remote one, whose
    rejection is swallowed once more by [.catch]. *)
Definition log (entry : Entry) (files : Files) : M Files :=
  let line := stringify entry +:+ nl in
  let files' := logLocal (host entry) line files in
  try_ (logRemote (host entry) line) ;;
  ret files'.

End AuditLogger.
End AuditLogger.

(** ** server.ts, the [sudo_exec] tool *)

Module SudoTool.

(** What a tool handler returns: the text of its one content item, and
    [isError] ([false] when absent). *)
Record ToolResult := mkToolResult {
  text : string;
  isError : bool
}.

(** [String.prototype.includes] *)
Fixpoint includes (s pattern : string) : bool :=
  match s with
  | EmptyString => String.prefix pattern EmptyString
  | String _ s' => String.prefix pattern s || includes s' pattern
  end.

Section SudoTool.
Context `{Remote}.
Local Open Scope server_scope.

Variable localPath : string.
Variable remotePath : string.
Variable join : list string -> string.
Variable dirname : string -> string.
Variable stringify : AuditLogger.Entry -> string.

(** [config.defaultHost], the [user] of each entry of [config.hosts], and
    [config.sudo?.blockedPatterns]. *)
Variable defaultHost : string.
Variable users : gmap string string.
Variable blockedPatterns : option (list string).

(** [host || this.config.defaultHost] *)
Definition hostOrDefault (host : option string) : string :=
  if JS.truthy host then default "" host else defaultHost.

(** [this.config.sudo?.blockedPatterns || []] *)
Definition blocked : list string := default [] blockedPatterns.

(** The message of the [TypeError] thrown by [this.config.hosts[hostName].user]
    for a host that is not configured (as worded by V8). *)
Definition noUserMessage : string :=
  "Cannot read properties of undefined (reading 'user')".

Definition blockedText (pattern : string) : string :=
  "Blocked: matches dangerous pattern " +:+ JS.quoted pattern.

Definition sudoText (result : ExecResult) : string :=
  "[SUDO] Exit code: " +:+ JS.string_of_Z (exitCode result) +:+ AuditLogger.nl
    +:+ AuditLogger.nl +:+ stdout result.

(** The body of the [try] block. *)
Definition run_sudo (startTime : Z) (hostName command : string)
    (files : AuditLogger.Files) : M (ToolResult * AuditLogger.Files) :=
  let* result := exec hostName ("sudo " +:+ command) in
  let* ts_ := now in
  let* endTime := now in
  match users !! hostName with
  | None => throw noUserMessage
  | Some user_ =>
      let* files' :=
        AuditLogger.log localPath remotePath join dirname stringify
          {| AuditLogger.ts := ts_; AuditLogger.host := hostName;
             AuditLogger.cmd := "[SUDO] " +:+ command;
             AuditLogger.exit := exitCode result;
             AuditLogger.duration_ms := endTime - startTime;
             AuditLogger.user := user_;
             AuditLogger.output := Some (substring 0 500 (stdout result));
             AuditLogger.sudo := Some true |} files in
      ret ({| text := sudoText result; isError := false |}, files')
  end.

(** The handler of [sudo_exec]. *)
Definition sudo_exec (command : string) (host : option string)
    (files : AuditLogger.Files) : M (ToolResult * AuditLogger.Files) :=
  let* startTime := now in
  let hostName := hostOrDefault host in
  match JS.find (fun pattern => includes command pattern) blocked with
  | Some pattern => ret ({| text := blockedText pattern; isError := true |}, files)
  | None =>
      fun s =>
        match run_sudo startTime hostName command files s with
        | (inr r, s') => (inr r, s')
        | (inl err, s') =>
            (inr ({| text := "Sudo failed: " +:+ message err; isError := true |},
                  files), s')
        end
  end.

End SudoTool.
End SudoTool.

(** ** progress-parser.ts, [ProgressParser.summarize] *)

Module ProgressParser.

(** A JavaScript string is a sequence of UTF-16 code units: [length]
    counts them, and [split], [trim] and [join] work on them. *)
Definition ustring : Type := list N.

(** The code unit of the line feed. *)
Definition LF : N := 10%N.

(** What [String.prototype.trim] strips: the WhiteSpace and LineTerminator
    code points of ECMAScript (TAB, VT, FF, the space separators of
    Unicode, the byte order mark, LF, CR, LS and PS), each one code
    unit. *)
Definition is_white (u : N) : bool :=
  (((9 <=? u) && (u <=? 13)) || (u =? 32) || (u =? 160) || (u =? 5760)
   || ((8192 <=? u) && (u <=? 8202)) || (u =? 8232) || (u =? 8233)
   || (u =? 8239) || (u =? 8287) || (u =? 12288) || (u =? 65279))%N.

Fixpoint trimStart (s : ustring) : ustring :=
  match s with
  | u :: s' => if is_white u then trimStart s' else s
  | [] => []
  end.

Definition trimEnd (s : ustring) : ustring := rev (trimStart (rev s)).

(** [line.trim()] *)
Definition trim (s : ustring) : ustring := trimEnd (trimStart s).

(** [output.split('\n')]: never empty; the empty string gives one empty
    line. *)
Fixpoint split_nl (s : ustring) : list ustring :=
  match s with
  | [] => [[]]
  | u :: s' =>
      if (u =? LF)%N then [] :: split_nl s'
      else
        match split_nl s' with
        | l :: ls => (u :: l) :: ls
        | [] => [[u]]
        end
  end.

(** [lines.join('\n')] *)
Fixpoint join_nl (lines : list ustring) : ustring :=
  match lines with
  | [] => []
  | [l] => l
  | l :: ls => l ++ LF :: join_nl ls
  end.

(** [line && line.length > 0 && line.length < 200] *)
Definition meaningful (line : ustring) : bool :=
  negb (bool_decide (line = [])) && (0 <? length line)%nat
    && (length line <? 200)%nat.

(** The loop of [summarize], from the last line backwards: [rest] holds
    [lines[i], lines[i-1], ..., lines[0]], and [lastMeaningfulLines] grows
    at its front. *)
Fixpoint summarize_loop (rest lastMeaningfulLines : list ustring) : list ustring :=
  match rest with
  | [] => lastMeaningfulLines
  | raw :: rest' =>
      if (length lastMeaningfulLines <? 3)%nat then
        let line := trim raw in
        if meaningful line then summarize_loop rest' (line :: lastMeaningfulLines)
        else summarize_loop rest' lastMeaningfulLines
      else lastMeaningfulLines
  end.

(** [summarize(output)] *)
Definition summarize (output : ustring) : ustring :=
  let lines := split_nl output in
  join_nl (summarize_loop (rev lines) []).

(** The code units of a text of the model that is ASCII. *)
Definition units (s : string) : ustring :=
  (fun c => N.of_nat (nat_of_ascii c)) <$> list_ascii_of_string s.

End ProgressParser.

(** ** Concrete situations used to exercise the model *)

Module Examples.

Definition web_entry : ConnectionManager.ConnectionEntry :=
  {| ConnectionManager.client := 1; ConnectionManager.lastUsed := 0;
     ConnectionManager.connecting := false; ConnectionManager.ready := true |}.

Definition db_entry : ConnectionManager.ConnectionEntry :=
  {| ConnectionManager.client := 2; ConnectionManager.lastUsed := 200000;
     ConnectionManager.connecting := false; ConnectionManager.ready := true |}.

(** A pool with a session to "web" last used at 0 ms and one to "db" last
    used at 200 000 ms. *)
Definition pool : ConnectionManager.t :=
  {| ConnectionManager.connections := <["web" := web_entry]> (<["db" := db_entry]> ∅);
     ConnectionManager.ended := ∅ |}.

(** A remote side played from a script: every command takes the next
    answer of the script (an empty success once the script is used up) and
    one millisecond of the clock. *)
Definition scripted : Remote :=
  {| World := Z * list (Error + ExecResult);
     remote_exec := fun _ _ w =>
       match w.2 with
       | r :: rs => (r, (w.1 + 1, rs))
       | [] => (inr (mkExecResult "" "" 0 0), (w.1 + 1, []))
       end;
     date_now := fst |}.

(** A remote command that printed the line [line]. *)
Definition answer (line : string) : Error + ExecResult :=
  inr (mkExecResult (line +:+ String (ascii_of_nat 10) EmptyString) "" 0 5).

Definition build_job : Job.t :=
  {| Job.id := "job_a"; Job.host := "web"; Job.command := "make";
     Job.name := None; Job.status := running; Job.pid := Some 4242;
     Job.startTime := 1000; Job.endTime := None; Job.exitCode := None;
     Job.outputFile := "/tmp/enrichedlab_job_job_a.out" |}.

Definition backup_job : Job.t :=
  {| Job.id := "job_b"; Job.host := "db"; Job.command := "pg_dump";
     Job.name := Some "dump"; Job.status := completed; Job.pid := Some 77;
     Job.startTime := 3000; Job.endTime := Some 3500; Job.exitCode := Some 0;
     Job.outputFile := "/tmp/enrichedlab_job_job_b.out" |}.

Definition test_job : Job.t :=
  {| Job.id := "job_c"; Job.host := "web"; Job.command := "make test";
     Job.name := None; Job.status := running; Job.pid := Some 4300;
     Job.startTime := 2000; Job.endTime := None; Job.exitCode := None;
     Job.outputFile := "/tmp/enrichedlab_job_job_c.out" |}.

(** A server with three tracked jobs and the given remote script. *)
Definition server (clock : Z) (script : list (Error + ExecResult))
    (lines : list (option Snapshot.t)) : @Server scripted :=
  @mkServer scripted (clock, script) []
    [("job_a", build_job); ("job_b", backup_job); ("job_c", test_job)] lines.

(** A remote side on which no process is found any more: every command
    prints [done] and takes one millisecond. *)
Definition steady : Remote :=
  {| World := Z;
     remote_exec := fun _ _ w => (inr (mkExecResult "done" "" 0 1), w + 1);
     date_now := fun w => w |}.

Definition steady_server : @Server steady :=
  @mkServer steady 5000 []
    [("job_a", build_job); ("job_b", backup_job); ("job_c", test_job)] [].

(** Snapshot records, a retention policy and a log. *)
Definition old_tar : Snapshot.t :=
  {| Snapshot.ts := 0; Snapshot.id := "snap_old"; Snapshot.type := tar;
     Snapshot.host := "web"; Snapshot.path := "/srv/app";
     Snapshot.backup := Some "/var/log/mcp/snapshots/0/app.tar.gz";
     Snapshot.commit := None |}.

Definition old_git : Snapshot.t :=
  {| Snapshot.ts := 1000; Snapshot.id := "snap_git"; Snapshot.type := git;
     Snapshot.host := "web"; Snapshot.path := "/srv/repo";
     Snapshot.backup := None;
     Snapshot.commit := Some "0123456789abcdef" |}.

Definition recent_file : Snapshot.t :=
  {| Snapshot.ts := 999999000; Snapshot.id := "snap_new"; Snapshot.type := sftp;
     Snapshot.host := "web"; Snapshot.path := "/etc/app.conf";
     Snapshot.backup := Some "/var/log/mcp/snapshots/999999000/app.conf";
     Snapshot.commit := None |}.

(** A tar record created at [ts]. *)
Definition tar_at (ts : Z) : Snapshot.t :=
  {| Snapshot.ts := ts; Snapshot.id := "snap_" +:+ JS.string_of_Z ts;
     Snapshot.type := tar; Snapshot.host := "web"; Snapshot.path := "/srv/app";
     Snapshot.backup :=
       Some ("/var/log/mcp/snapshots/" +:+ JS.string_of_Z ts +:+ "/app.tar.gz");
     Snapshot.commit := None |}.

(** Keep the newest record of each host, and every record of the last
    day. *)
Definition one_day : SnapshotRetention :=
  {| maxAgeDays := 1; maxSizeMB := 1000; keepMinCount := 1 |}.

(** Keep every record of the last day, and nothing else. *)
Definition one_day_only : SnapshotRetention :=
  {| maxAgeDays := 1; maxSizeMB := 1000; keepMinCount := 0 |}.

Definition log : list (option Snapshot.t) :=
  [Some old_tar; None; Some old_git; Some recent_file].

(** A log of 10001 tar records of one host, created in the first ten
    seconds. *)
Definition long_log : list (option Snapshot.t) :=
  (fun i => Some (tar_at (Z.of_nat i))) <$> seq 0 (Z.to_nat 10001).

(** Stand-ins for [basename] and [toISOString] in the examples: the last
    segment of an absolute path, and the milliseconds in decimal. *)
Fixpoint last_segment (p : string) : string :=
  match p with
  | EmptyString => EmptyString
  | String c p' =>
      match String.index 0 "/" p' with
      | Some _ => last_segment p'
      | None => if Ascii.eqb c "/" then p' else p
      end
  end.

Definition iso (t : Z) : string := JS.string_of_Z t.

(** Stand-ins for [join] and for [JSON.stringify] on audit entries: the
    segments separated by slashes, and the command of the entry. *)
Definition join_paths (segments : list string) : string :=
  String.concat "/" segments.

Definition render (entry : AuditLogger.Entry) : string := AuditLogger.cmd entry.

(** The configured users and a blocklist for [sudo_exec]. *)
Definition users : gmap string string := {[ "web" := "deploy" ]}.

Definition blocklist : option (list string) := Some ["rm -rf /"; "mkfs"].

(** A stand-in for [dirname] on the absolute paths of the examples: the
    path without its last segment. *)
Fixpoint last_slash (p : string) : option nat :=
  match p with
  | EmptyString => None
  | String c p' =>
      match last_slash p' with
      | Some n => Some (S n)
      | None => if Ascii.eqb c "/" then Some O else None
      end
  end.

Definition parent (p : string) : string :=
  match last_slash p with
  | Some n => substring 0 n p
  | None => "."
  end.

End Examples.

(** * Properties *)

(** ** Hang watchdog *)

Section HangDetectorFacts.
Import HangDetector.

Lemma run_cons d e es :
  run d (e :: es) =
  ((run (step d e).1 es).1, (step d e).2 ++ (run (step d e).1 es).2).
Proof.
  simpl. destruct (step d e) as [d1 o1]; simpl. by destruct (run d1 es).
Qed.

Lemma alerts_cons d e es :
  alerts d (e :: es) = (step d e).2 ++ alerts (step d e).1 es.
Proof. unfold alerts. by rewrite run_cons. Qed.

Lemma step_fire d now :
  step d (Fire now) =
  match timer d with
  | Some due => if due <=? now then checkHang d now else (d, [])
  | None => (d, [])
  end.
Proof. reflexivity. Qed.

Lemma checkHang_fields d now :
  timeoutMs (checkHang d now).1 = timeoutMs d /\
  lastActivity (checkHang d now).1 = lastActivity d /\
  callback (checkHang d now).1 = callback d /\
  timer (checkHang d now).1 = Some (now + JS.timer_delay (timeoutMs d)).
Proof.
  unfold checkHang.
  destruct ((timeoutMs d <=? now - lastActivity d) && negb (alertSent d) && callback d);
    simpl; auto.
Qed.

Lemma checkHang_alerted d now :
  alertSent d = true ->
  (checkHang d now).2 = [] /\ alertSent (checkHang d now).1 = true.
Proof.
  intros Ha. unfold checkHang. rewrite Ha.
  rewrite andb_false_r. simpl. auto.
Qed.

Lemma checkHang_quiet d now :
  alertSent d = false -> callback d = true ->
  (checkHang d now).2 =
    (if timeoutMs d <=? now - lastActivity d
     then [alert_message (now - lastActivity d)] else []) /\
  alertSent (checkHang d now).1 = (timeoutMs d <=? now - lastActivity d).
Proof.
  intros Ha Hc. unfold checkHang. rewrite Ha, Hc.
  destruct (timeoutMs d <=? now - lastActivity d); simpl; auto.
Qed.

Lemma checkHang_at_most_one d now :
  (checkHang d now).2 = [] \/
  (exists m, (checkHang d now).2 = [m]) /\ alertSent (checkHang d now).1 = true.
Proof.
  unfold checkHang.
  destruct ((timeoutMs d <=? now - lastActivity d) && negb (alertSent d) && callback d);
    simpl; eauto.
Qed.

(** Once an alert was sent, a stretch of silence sends no other. *)
Lemma silent_after_alert es : forall d,
  silent es -> alertSent d = true -> alerts d es = [].
Proof.
  induction es as [|e es IH]; intros d Hs Ha; [done|].
  inversion Hs as [|? ? He Hs']; subst.
  destruct e as [| |now|]; try discriminate.
  rewrite alerts_cons, step_fire.
  destruct (timer d) as [due|]; [destruct (due <=? now)|]; simpl; auto.
  destruct (checkHang_alerted d now Ha) as [-> Ha']. simpl. auto.
Qed.

Lemma silent_at_most_one es : forall d,
  silent es -> (length (alerts d es) <= 1)%nat.
Proof.
  induction es as [|e es IH]; intros d Hs; [simpl; lia|].
  inversion Hs as [|? ? He Hs']; subst.
  destruct e as [| |now|]; try discriminate.
  rewrite alerts_cons, step_fire.
  destruct (timer d) as [due|]; [destruct (due <=? now)|]; simpl; auto.
  destruct (checkHang_at_most_one d now) as [->|[[m ->] Ha]]; simpl; auto.
  by rewrite silent_after_alert.
Qed.

Lemma silent_fires (ts : list Z) : silent (Fire <$> ts).
Proof. induction ts; constructor; auto. Qed.

(** With the timer on schedule, the alert of a silent stretch is sent by the
    first check that sees an idle time of at least the timeout. *)
Lemma on_schedule_alerts ts : forall d due,
  callback d = true -> alertSent d = false -> timer d = Some due ->
  on_schedule due (JS.timer_delay (timeoutMs d)) ts ->
  alerts d (Fire <$> ts) =
    match List.find (fun t => timeoutMs d <=? t - lastActivity d) ts with
    | Some t => [alert_message (t - lastActivity d)]
    | None => []
    end.
Proof.
  induction ts as [|t ts IH]; intros d due Hc Ha Ht Hs; [done|].
  destruct Hs as [Hdue Hs].
  rewrite fmap_cons, alerts_cons, step_fire, Ht.
  destruct (Z.leb_spec due t) as [_|?]; [|lia].
  destruct (checkHang_quiet d t Ha Hc) as [-> Ha'].
  destruct (checkHang_fields d t) as (HT & HL & HC & HTm).
  cbn [List.find].
  destruct (timeoutMs d <=? t - lastActivity d) eqn:E.
  - rewrite silent_after_alert; auto using silent_fires.
  - rewrite (IH _ (t + JS.timer_delay (timeoutMs d))); rewrite ?HT, ?HL;
      solve [reflexivity | congruence].
Qed.

Lemma after_signal_state d0 a d :
  after_signal d0 a d ->
  callback d = true /\ alertSent d = false /\ lastActivity d = a /\
  timeoutMs d = timeoutMs d0 /\ timer d <> None.
Proof.
  intros [->|(-> & Hc & Ht)]; simpl; auto.
Qed.

(** C6, as amended.  After [start] or an activity signal at time [a]:
    a stretch of silence (only timer checks, however many and whenever
    they run) delivers at most one alert; with the timer running on
    schedule at the times [ts], the alert is delivered by the first check
    whose idle time [t - a] has reached the timeout, and its message
    carries that idle time; if no check of the stretch sees such an idle
    time, no alert is delivered.  Right after [start], with a timeout
    between 1 and 2147483647 ms (the delays [setTimeout] accepts; it
    replaces any other delay by 1 ms), the first check always sees such an
    idle time, so a silent stretch with a check delivers exactly one
    alert. *)
Theorem watchdog_one_alert_per_silence (d0 d : HangDetector.t) (a : Z) (ts : list Z) :
  after_signal d0 a d ->
  exists due, timer d = Some due /\
    (forall es, silent es -> (length (alerts d es) <= 1)%nat) /\
    (on_schedule due (JS.timer_delay (timeoutMs d)) ts ->
       alerts d (Fire <$> ts) =
         match List.find (fun t => timeoutMs d <=? t - a) ts with
         | Some t => [alert_message (t - a)]
         | None => []
         end) /\
    (d = start d0 a -> 1 <= timeoutMs d <= 2147483647 -> ts <> [] ->
     on_schedule due (JS.timer_delay (timeoutMs d)) ts ->
       exists t, head ts = Some t /\ alerts d (Fire <$> ts) = [alert_message (t - a)]).
Proof.
  intros Hsig.
  destruct (after_signal_state _ _ _ Hsig) as (Hc & Ha & HL & HT & Htm).
  destruct (timer d) as [due|] eqn:Et; [|done].
  exists due. split; [done|]. split; [|split].
  - intros es Hs. by apply silent_at_most_one.
  - intros Hs. rewrite (on_schedule_alerts ts d due Hc Ha Et Hs). by rewrite HL.
  - intros -> Hrange Hne Hs.
    destruct ts as [|t ts]; [done|]. exists t. split; [done|].
    rewrite (on_schedule_alerts _ _ due Hc Ha Et Hs).
    destruct Hs as [Hdue _]. simpl in Et. injection Et as <-.
    simpl in Hrange, Hdue |- *.
    unfold JS.timer_delay in Hdue.
    destruct (Z.leb_spec 1 (timeoutMs d0)); [|lia].
    destruct (Z.leb_spec (timeoutMs d0) 2147483647); [|lia].
    simpl in Hdue.
    destruct (Z.leb_spec (timeoutMs d0) (t - a)); [done|lia].
Qed.

Lemma watchdog_one_alert_per_silence_witness :
  exists due,
    timer (start (create 10000 0) 0) = Some due /\
    alerts (start (create 10000 0) 0) (Fire <$> [10000; 20000]) =
      ["No output for 10s - command may be hung or waiting for input"].
Proof.
  destruct (watchdog_one_alert_per_silence (create 10000 0)
              (start (create 10000 0) 0) 0 [10000; 20000]) as (due & Ht & _ & H2 & _).
  - by left.
  - exists due. split; [done|].
    rewrite H2; [reflexivity|].
    simpl in Ht. injection Ht as <-. simpl. unfold JS.timer_delay. simpl. lia.
Defined.

(** C6, as stated, fails: timeout 10 s, started at 0, output at 5 s, the
    timer on time at 10 s (idle time 5 s: no alert) and due next at 20 s;
    the following output comes at 17 s.  The stream was silent for 12 s and
    no alert was delivered before the next activity signal. *)
Lemma watchdog_silence_without_alert :
  let d0 := start (create 10000 0) 0 in
  let d := onActivity d0 5000 in
  timer d0 = Some 10000 /\
  timer (run d [Fire 10000]).1 = Some 20000 /\
  timeoutMs d <= 17000 - 5000 /\
  alerts d [Fire 10000] = [] /\
  alerts d0 [Activity 5000; Fire 10000; Activity 17000] = [].
Proof. vm_compute. repeat split; congruence. Qed.

End HangDetectorFacts.

(** ** Connection pool and command executor *)

Section ConnectionManagerFacts.
Import ConnectionManager.

Lemma close_lookup hostName m k :
  connections (close hostName m) !! k =
  if decide (hostName = k) then None else connections m !! k.
Proof.
  unfold close. destruct (connections m !! hostName) as [entry|] eqn:E; simpl.
  - by rewrite lookup_delete.
  - case_decide; [by subst|done].
Qed.

Lemma close_ended hostName m c :
  c ∈ ended m -> c ∈ ended (close hostName m).
Proof.
  unfold close. destruct (connections m !! hostName); simpl; set_solver.
Qed.

Lemma close_ends hostName m entry :
  connections m !! hostName = Some entry -> client entry ∈ ended (close hostName m).
Proof. unfold close. intros ->. simpl. set_solver. Qed.

(** The sweep, from any starting pool [m0] over any table of entries. *)
Lemma sweep_fold now (m0 : ConnectionManager.t) (tbl : gmap string ConnectionEntry) :
  let r := map_fold
             (fun name entry acc =>
                if idleTimeout <? now - lastUsed entry then close name acc else acc)
             m0 tbl in
  (forall k, connections r !! k =
             match tbl !! k with
             | Some e => if idleTimeout <? now - lastUsed e then None
                         else connections m0 !! k
             | None => connections m0 !! k
             end) /\
  (forall k e e', tbl !! k = Some e -> (idleTimeout <? now - lastUsed e) = true ->
                  connections m0 !! k = Some e' -> client e' ∈ ended r).
Proof.
  cbv zeta.
  apply (map_fold_weak_ind (fun r tbl =>
    (forall k, connections r !! k =
               match tbl !! k with
               | Some e => if idleTimeout <? now - lastUsed e then None
                           else connections m0 !! k
               | None => connections m0 !! k
               end) /\
    (forall k e e', tbl !! k = Some e -> (idleTimeout <? now - lastUsed e) = true ->
                    connections m0 !! k = Some e' -> client e' ∈ ended r))).
  - split; [intros k; by rewrite lookup_empty|].
    intros k e e'. by rewrite lookup_empty.
  - intros i x m r Hi [IH1 IH2]. split.
    + intros k. rewrite lookup_insert. case_decide as Hk.
      * subst k. destruct (idleTimeout <? now - lastUsed x).
        -- rewrite close_lookup. by rewrite decide_True.
        -- by rewrite IH1, Hi.
      * destruct (idleTimeout <? now - lastUsed x); [|apply IH1].
        rewrite close_lookup. rewrite decide_False by done. apply IH1.
    + intros k e e'. rewrite lookup_insert. case_decide as Hk.
      * intros [= <-] Hidle He'. subst k. rewrite Hidle.
        apply close_ends. by rewrite IH1, Hi.
      * intros He Hidle He'.
        destruct (idleTimeout <? now - lastUsed x); eauto using close_ended.
Qed.



Lemma settle_settled r c : settled (settle r c) <> None.
Proof. unfold settle. simpl. by destruct (settled c). Qed.

Lemma on_event_keeps b st c e r :
  settled c = Some r -> settled (on_event b st c e) = Some r.
Proof. intros Hc. destruct e; simpl; by rewrite ?Hc. Qed.

Lemma events_keep b st es : forall c r,
  settled c = Some r -> settled (foldl (on_event b st) c es) = Some r.
Proof.
  induction es as [|e es IH]; intros c r Hc; [done|].
  simpl. apply IH. by apply on_event_keeps.
Qed.

Lemma output_events b st es : forall c,
  Forall is_output es ->
  settled (foldl (on_event b st) c es) = settled c /\
  out (foldl (on_event b st) c es) =
    foldl (fun acc e => match e with Data chunk => acc +:+ chunk | _ => acc end) (out c) es /\
  err (foldl (on_event b st) c es) =
    foldl (fun acc e => match e with StderrData chunk => acc +:+ chunk | _ => acc end) (err c) es.
Proof.
  induction es as [|e es IH]; intros c Hes; [done|].
  inversion Hes as [|? ? He Hes']; subst.
  destruct e as [chunk|chunk|msg|code t]; try done; simpl;
    match goal with
    | |- context [foldl (on_event b st) ?c' es] =>
        destruct (IH c' Hes') as (-> & -> & ->)
    end; done.
Qed.

Lemma exec_failed_message h msg : ~ ExecFailed (mkError ("Unknown host: " +:+ h))
  /\ ~ ExecFailed (mkError ("Failed to read SSH key: " +:+ h))
  /\ ~ ExecFailed (mkError ("SSH connection error: " +:+ msg))
  /\ ~ ExecFailed (mkError ("Connection timeout to " +:+ h))
  /\ ~ ExecFailed (mkError ("Stream error: " +:+ msg)).
Proof. repeat split; intros [m Hm]; simpl in Hm; discriminate. Qed.

Lemma getConnection_error hostName now o m e m' :
  getConnection hostName now o m = (inl e, m') -> ~ ExecFailed e.
Proof.
  unfold getConnection.
  assert (forall m0, connect hostName o m0 = (inl e, m') -> ~ ExecFailed e) as Hc.
  { intros m0. unfold connect.
    destruct o as [|keyPath|c t|c msg|c]; intros [= <- <-];
      by first [apply (exec_failed_message hostName "")
               |apply (exec_failed_message keyPath "")
               |apply (exec_failed_message "" msg)]. }
  destruct (connections m !! hostName) as [entry|]; [|apply Hc].
  destruct (ready entry); [discriminate|apply Hc].
Qed.

Lemma run_command_stream_error b st pre msg post :
  Forall is_output pre ->
  settled (run_command b st (Stream (pre ++ StreamFailure msg :: post))) =
    Some (inl (mkError ("Stream error: " +:+ msg))).
Proof.
  intros Hpre. simpl. rewrite foldl_app. simpl.
  apply events_keep. unfold settle. simpl.
  destruct (output_events b st pre new_call Hpre) as (-> & _ & _). done.
Qed.

Lemma run_command_close b st pre code t post :
  Forall is_output pre ->
  settled (run_command b st (Stream (pre ++ Close code t :: post))) =
    Some (inr {| stdout := captured_stdout pre; stderr := captured_stderr pre;
                 exitCode := code; duration := t - st |}).
Proof.
  intros Hpre. simpl. rewrite foldl_app. simpl.
  apply events_keep. unfold settle. simpl.
  destruct (output_events b st pre new_call Hpre) as (-> & -> & ->). done.
Qed.

Lemma run_command_failed b st s e :
  settled (run_command b st s) = Some (inl e) -> ExecFailed e ->
  exists msg, s = StartError msg.
Proof.
  destruct s as [msg|events]; [eauto|].
  simpl. intros Hs Hf. exfalso.
  assert (forall es c, (forall e0, settled c = Some (inl e0) -> ~ ExecFailed e0) ->
            forall e0, settled (foldl (on_event b st) c es) = Some (inl e0) ->
                       ~ ExecFailed e0) as Hinv.
  { induction es as [|ev es IH]; intros c Hc; [exact Hc|].
    simpl. apply IH. intros e0.
    destruct ev; simpl; try apply Hc.
    - destruct (settled c) eqn:E; [apply Hc|].
      intros [= <-]. apply (exec_failed_message "" msg).
    - destruct (settled c) eqn:E; [apply Hc|]. discriminate. }
  by apply (Hinv events new_call ltac:(done) e Hs).
Qed.

Lemma streaming_same_buffers st es : forall c1 c2,
  out c1 = out c2 -> err c1 = err c2 -> settled c1 = settled c2 ->
  settled (foldl (on_event true st) c1 es) = settled (foldl (on_event false st) c2 es).
Proof.
  induction es as [|e es IH]; intros c1 c2 Ho He Hs; [done|].
  simpl. apply IH; destruct e; simpl; rewrite ?Ho, ?He, ?Hs; done.
Qed.

Lemma execStreaming_result hostName now o startTime s m :
  (execStreaming hostName now o startTime s m).1.1 =
  (exec hostName now o startTime s m).1.
Proof.
  unfold execStreaming, exec.
  destruct (getConnection hostName now o m) as [[e|c] m']; [done|].
  simpl. destruct s as [msg|events]; [done|].
  simpl. by apply streaming_same_buffers.
Qed.

(** C7.  [exec] and [execStreaming] settle alike.  The call fails with
    ExecFailed only when [client.exec] reports that the command could not
    be started, and then it does; it fails with StreamError when the
    stream reports an error before it closes; and when the stream closes
    first, whatever the exit status (zero or not), the call succeeds with
    that status in [exitCode], together with the standard output and
    standard error captured until then. *)
Theorem exec_error_taxonomy (hostName : string) (now : Z) (o : ConnectOutcome)
    (startTime : Z) (s : ExecStart) (m : ConnectionManager.t) :
  let r := (exec hostName now o startTime s m).1 in
  (execStreaming hostName now o startTime s m).1.1 = r /\
  (forall e, r = Some (inl e) -> ExecFailed e -> exists msg, s = StartError msg) /\
  (forall c m', getConnection hostName now o m = (inr c, m') ->
     (forall msg, s = StartError msg ->
        r = Some (inl (mkError ("Exec failed: " +:+ msg)))) /\
     (forall pre msg post,
        s = Stream (pre ++ StreamFailure msg :: post) -> Forall is_output pre ->
        r = Some (inl (mkError ("Stream error: " +:+ msg)))) /\
     (forall pre code t post,
        s = Stream (pre ++ Close code t :: post) -> Forall is_output pre ->
        r = Some (inr {| stdout := captured_stdout pre;
                         stderr := captured_stderr pre;
                         exitCode := code;
                         duration := t - startTime |}))).
Proof.
  cbv zeta. split; [apply execStreaming_result|]. split.
  - intros e Hr Hf. unfold exec in Hr.
    destruct (getConnection hostName now o m) as [[e0|c] m'] eqn:Hg.
    + simpl in Hr. injection Hr as ->.
      by destruct (getConnection_error _ _ _ _ _ _ Hg).
    + simpl in Hr. by eapply run_command_failed.
  - intros c m' Hg. unfold exec. rewrite Hg. simpl. split; [|split].
    + by intros msg ->.
    + intros pre msg post -> Hpre. by apply run_command_stream_error.
    + intros pre code t post -> Hpre. by apply run_command_close.
Qed.

Lemma exec_error_taxonomy_witness :
  (exec "web" 1000 NoHostConfig 1000
     (Stream [Data "a"; StderrData "b"; Data "c"; Close 2 1050]) Examples.pool).1 =
  Some (inr {| stdout := "ac"; stderr := "b"; exitCode := 2; duration := 50 |}).
Proof.
  destruct (exec_error_taxonomy "web" 1000 NoHostConfig 1000
              (Stream [Data "a"; StderrData "b"; Data "c"; Close 2 1050]) Examples.pool)
    as (_ & _ & H).
  destruct (H 1%nat (getConnection "web" 1000 NoHostConfig Examples.pool).2 eq_refl)
    as (_ & _ & Hclose).
  apply (Hclose [Data "a"; StderrData "b"; Data "c"] 2 1050 []); [reflexivity|].
  repeat constructor.
Defined.

End ConnectionManagerFacts.

(** ** The built-ins on small inputs *)

Example trim_line : JS.trim (" done " +:+ String (ascii_of_nat 10) EmptyString) = "done".
Proof. reflexivity. Qed.

Example trim_inner : JS.trim "  a b  " = "a b".
Proof. reflexivity. Qed.

Example parseInt_exit : JS.parseInt "127" = Some 127.
Proof. reflexivity. Qed.

Example parseInt_prefix : JS.parseInt "  -12abc" = Some (-12).
Proof. reflexivity. Qed.

Example parseInt_nan :
  JS.parseInt "" = None /\ JS.parseInt "done" = None /\ JS.parseInt "-" = None.
Proof. repeat split. Qed.

Example or_zero_nan : JS.or_zero (JS.parseInt "") = 0.
Proof. reflexivity. Qed.

Example round_half : JS.round_div_1000 1500 = 2 /\ JS.round_div_1000 1499 = 1.
Proof. split; reflexivity. Qed.

Example sort_stable :
  JS.sort (fun a b : Z * string => b.1 - a.1) [(1, "a"); (3, "b"); (1, "c"); (3, "d")] =
  [(3, "b"); (3, "d"); (1, "a"); (1, "c")].
Proof. reflexivity. Qed.

Example slice0_limit :
  JS.slice0 2 [1; 2; 3] = [1; 2] /\ JS.slice0 (-1) [1; 2; 3] = [1; 2].
Proof. split; reflexivity. Qed.

Example selects_empty_name :
  selects (Some "") "web" = true /\ selects (Some "db") "web" = false.
Proof. split; reflexivity. Qed.

Example check_command :
  JobTracker.checkCmd Examples.build_job =
  "ps -p 4242 -o pid= 2>/dev/null || echo " +:+ JS.quoted "done".
Proof. reflexivity. Qed.

Example parent_of_path : Examples.parent "/srv/app" = "/srv".
Proof. reflexivity. Qed.

(** ** Sorting *)

Section SortFacts.
Context {A : Type}.

Lemma insert_by_perm (cmp : A -> A -> Z) x l : JS.insert_by cmp x l ≡ₚ x :: l.
Proof.
  induction l as [|y l IH]; [done|]. simpl.
  destruct (0 <? cmp x y); [|done].
  rewrite IH. apply Permutation_swap.
Qed.

Lemma sort_perm (cmp : A -> A -> Z) l : JS.sort cmp l ≡ₚ l.
Proof.
  induction l as [|x l IH]; [done|].
  unfold JS.sort in *. simpl. by rewrite insert_by_perm, IH.
Qed.

Lemma sort_length (cmp : A -> A -> Z) l : length (JS.sort cmp l) = length l.
Proof. apply Permutation_length, sort_perm. Qed.

Variable key : A -> Z.
Local Abbreviation descending := (JS.descending key).

Lemma insert_by_sorted x l :
  StronglySorted descending l ->
  StronglySorted descending (JS.insert_by (fun a b => key b - key a) x l).
Proof.
  induction l as [|y l IH]; intros Hs; simpl.
  - repeat constructor.
  - apply StronglySorted_inv in Hs as [Hs Hy].
    destruct (Z.ltb_spec 0 (key y - key x)).
    + constructor; [by apply IH|].
      rewrite insert_by_perm. constructor; [unfold JS.descending; lia|done].
    + constructor; [by constructor|].
      constructor; [unfold JS.descending; lia|].
      eapply Forall_impl; [exact Hy|]. unfold JS.descending. simpl. lia.
Qed.

Lemma sort_sorted l :
  StronglySorted descending (JS.sort (fun a b => key b - key a) l).
Proof.
  induction l as [|x l IH]; [constructor|].
  unfold JS.sort in *. simpl. by apply insert_by_sorted.
Qed.

End SortFacts.

(** ** Job supervisor *)

Section JobTrackerFacts.
Context `{Remote}.

Lemma get_update_eq k j (l : list (string * Job.t)) :
  JobTracker.get k (JobTracker.update k j l) =
  match JobTracker.get k l with Some _ => Some j | None => None end.
Proof.
  induction l as [|[k0 j0] l IH]; [done|]. simpl.
  destruct (String.eqb_spec k0 k) as [->|Hne]; simpl.
  - by rewrite String.eqb_refl.
  - destruct (String.eqb_spec k0 k); [done|]. apply IH.
Qed.

Lemma get_update_ne k k' j (l : list (string * Job.t)) :
  k <> k' -> JobTracker.get k (JobTracker.update k' j l) = JobTracker.get k l.
Proof.
  intros Hne. induction l as [|[k0 j0] l IH]; [done|]. simpl.
  destruct (String.eqb_spec k0 k') as [->|Hne']; simpl.
  - destruct (String.eqb_spec k' k); [by subst|done].
  - destruct (String.eqb_spec k0 k); [done|]. apply IH.
Qed.

Lemma update_keys k j (l : list (string * Job.t)) :
  (JobTracker.update k j l).*1 = l.*1.
Proof.
  induction l as [|[k0 j0] l IH]; [done|]. simpl.
  destruct (String.eqb k0 k); csimpl; [done|]. by rewrite IH.
Qed.

Local Abbreviation keeps := JobTracker.keeps.

Lemma keeps_bind {A B} k job (m : M A) (f : A -> M B) :
  keeps k job m -> (forall a, keeps k job (f a)) -> keeps k job (bind m f).
Proof.
  intros Hm Hf s Hs. unfold bind. specialize (Hm s Hs).
  destruct (m s) as [[e|a] s']; [done|]. by apply Hf.
Qed.

Lemma keeps_ret {A} k job (a : A) : keeps k job (ret a).
Proof. by intros s. Qed.

Lemma keeps_throw {A} k job msg : keeps k job (@throw _ A msg).
Proof. by intros s. Qed.

Lemma keeps_gets {A} k job (f : Server -> A) : keeps k job (gets f).
Proof. by intros s. Qed.

Lemma keeps_exec k job h c : keeps k job (exec h c).
Proof.
  intros s Hs. unfold exec. by destruct (remote_exec h c (world s)).
Qed.

Lemma keeps_for_each {A} k job (l : list A) (body : A -> M unit) :
  (forall x, keeps k job (body x)) -> keeps k job (for_each l body).
Proof.
  intros Hb. induction l as [|x l IH]; simpl; [apply keeps_ret|].
  apply keeps_bind; auto.
Qed.

Lemma keeps_finalize k job jobId job0 st code t :
  jobId <> k -> keeps k job (JobTracker.finalize jobId job0 st code t).
Proof. intros Hne s Hs. simpl. by rewrite get_update_ne. Qed.

(** What [getStatus] and [kill] do, case by case. *)

Lemma getStatus_unknown jobId s :
  JobTracker.get jobId (jobs s) = None ->
  JobTracker.getStatus jobId s = (inl (JobTracker.JobNotFound jobId), s).
Proof.
  intros Hg. unfold JobTracker.getStatus, JobTracker.lookup_job, bind, gets.
  by rewrite Hg.
Qed.

Lemma getStatus_terminal jobId s job :
  JobTracker.get jobId (jobs s) = Some job -> Job.status job <> running ->
  JobTracker.getStatus jobId s = (inr job, s).
Proof.
  intros Hg Hst. unfold JobTracker.getStatus, JobTracker.lookup_job, bind, gets.
  rewrite Hg. simpl. by destruct (Job.status job).
Qed.

Lemma getStatus_running jobId s job :
  JobTracker.get jobId (jobs s) = Some job -> Job.status job = running ->
  JobTracker.getStatus jobId s =
  match remote_exec (Job.host job) (JobTracker.checkCmd job) (world s) with
  | (inl e, w1) =>
      (inl e, mkServer w1 (issued s ++ [(Job.host job, JobTracker.checkCmd job)])
                (jobs s) (metadata s))
  | (inr r1, w1) =>
      if JobTracker.process_gone r1 then
        match remote_exec (Job.host job) (JobTracker.waitCmd job) w1 with
        | (inl e, w2) =>
            (inl e, mkServer w2
                      (issued s ++ [(Job.host job, JobTracker.checkCmd job);
                                    (Job.host job, JobTracker.waitCmd job)])
                      (jobs s) (metadata s))
        | (inr r2, w2) =>
            let code := JobTracker.recovered_exit_code r2 in
            let job' := JobTracker.finalized job
                          (if code =? 0 then completed else failed) code (date_now w2) in
            (inr job', mkServer w2
                         (issued s ++ [(Job.host job, JobTracker.checkCmd job);
                                       (Job.host job, JobTracker.waitCmd job)])
                         (JobTracker.update jobId job' (jobs s)) (metadata s))
        end
      else
        (inr job, mkServer w1 (issued s ++ [(Job.host job, JobTracker.checkCmd job)])
                    (jobs s) (metadata s))
  end.
Proof.
  intros Hg Hst.
  unfold JobTracker.getStatus, JobTracker.lookup_job, bind, gets, exec, now,
    JobTracker.finalize.
  rewrite Hg. simpl. rewrite Hst.
  destruct (remote_exec _ _ (world s)) as [[e|r1] w1]; simpl; [done|].
  destruct (JobTracker.process_gone r1); [|done]. simpl.
  destruct (remote_exec _ _ w1) as [[e|r2] w2]; simpl; by rewrite <- app_assoc.
Qed.

Lemma kill_unknown jobId s :
  JobTracker.get jobId (jobs s) = None ->
  JobTracker.kill jobId s = (inl (JobTracker.JobNotFound jobId), s).
Proof.
  intros Hg. unfold JobTracker.kill, JobTracker.lookup_job, bind, gets.
  by rewrite Hg.
Qed.

Lemma kill_terminal jobId s job :
  JobTracker.get jobId (jobs s) = Some job -> Job.status job <> running ->
  JobTracker.kill jobId s = (inr false, s).
Proof.
  intros Hg Hst. unfold JobTracker.kill, JobTracker.lookup_job, bind, gets.
  rewrite Hg. simpl. by destruct (Job.status job).
Qed.

Lemma kill_running jobId s job :
  JobTracker.get jobId (jobs s) = Some job -> Job.status job = running ->
  JobTracker.kill jobId s =
  match remote_exec (Job.host job) (JobTracker.killCmd job) (world s) with
  | (inl e, w) =>
      (inl e, mkServer w (issued s ++ [(Job.host job, JobTracker.killCmd job)])
                (jobs s) (metadata s))
  | (inr r, w) =>
      if String.eqb (JS.trim (stdout r)) "killed" then
        (inr true,
         mkServer w (issued s ++ [(Job.host job, JobTracker.killCmd job)])
           (JobTracker.update jobId
              (JobTracker.finalized job failed (-9) (date_now w)) (jobs s))
           (metadata s))
      else
        (inr false, mkServer w (issued s ++ [(Job.host job, JobTracker.killCmd job)])
                      (jobs s) (metadata s))
  end.
Proof.
  intros Hg Hst.
  unfold JobTracker.kill, JobTracker.lookup_job, bind, gets, exec, now,
    JobTracker.finalize, ret.
  rewrite Hg. simpl. rewrite Hst.
  destruct (remote_exec _ _ (world s)) as [[e|r] w]; simpl; [done|].
  by destruct (String.eqb (JS.trim (stdout r)) "killed").
Qed.

Lemma status_running_dec (job : Job.t) :
  {Job.status job = running} + {Job.status job <> running}.
Proof. destruct (Job.status job); (by left) || (by right). Qed.

(** A finished job is out of reach of [getStatus], [kill] and [list]. *)

Lemma keeps_getStatus k job jobId :
  Job.status job <> running -> keeps k job (JobTracker.getStatus jobId).
Proof.
  intros Hterm s Hk.
  destruct (JobTracker.get jobId (jobs s)) as [job0|] eqn:Hg.
  - destruct (status_running_dec job0) as [Hrun|Hrun].
    + assert (jobId <> k) as Hne by (intros ->; congruence).
      rewrite (getStatus_running _ _ _ Hg Hrun).
      destruct (remote_exec _ _ (world s)) as [[e|r1] w1]; [done|].
      destruct (JobTracker.process_gone r1); [|done].
      destruct (remote_exec _ _ w1) as [[e|r2] w2]; [done|].
      simpl. by rewrite get_update_ne.
    + by rewrite (getStatus_terminal _ _ _ Hg Hrun).
  - by rewrite (getStatus_unknown _ _ Hg).
Qed.

Lemma keeps_kill k job jobId :
  Job.status job <> running -> keeps k job (JobTracker.kill jobId).
Proof.
  intros Hterm s Hk.
  destruct (JobTracker.get jobId (jobs s)) as [job0|] eqn:Hg.
  - destruct (status_running_dec job0) as [Hrun|Hrun].
    + assert (jobId <> k) as Hne by (intros ->; congruence).
      rewrite (kill_running _ _ _ Hg Hrun).
      destruct (remote_exec _ _ (world s)) as [[e|r] w]; [done|].
      destruct (String.eqb (JS.trim (stdout r)) "killed"); [|done].
      simpl. by rewrite get_update_ne.
    + by rewrite (kill_terminal _ _ _ Hg Hrun).
  - by rewrite (kill_unknown _ _ Hg).
Qed.

Lemma keeps_refresh k job key :
  Job.status job <> running -> keeps k job (JobTracker.refresh key).
Proof.
  intros Hterm. unfold JobTracker.refresh.
  apply keeps_bind; [apply keeps_gets|]. intros table.
  destruct (JobTracker.get key table) as [job0|]; [|apply keeps_ret].
  destruct (JobTracker.is_running job0); [|apply keeps_ret].
  apply keeps_bind; [by apply keeps_getStatus|]. intros _. apply keeps_ret.
Qed.

Lemma keeps_list k job hostName :
  Job.status job <> running -> keeps k job (JobTracker.list hostName).
Proof.
  intros Hterm. unfold JobTracker.list.
  apply keeps_bind; [apply keeps_gets|]. intros table.
  apply keeps_bind.
  { apply keeps_for_each. intros key. by apply keeps_refresh. }
  intros _. apply keeps_bind; [apply keeps_gets|]. intros table'. apply keeps_ret.
Qed.

(** *** Calls that overlap *)

Lemma exec_send_receive hostName command s :
  exec hostName command s =
  (JobTracker.send hostName command ;; JobTracker.receive hostName command)%server s.
Proof.
  unfold exec, JobTracker.send, JobTracker.receive, bind. simpl.
  by destruct (remote_exec hostName command (world s)) as [r w].
Qed.

Lemma server_eta (s : Server) :
  mkServer (world s) (issued s) (jobs s) (metadata s) = s.
Proof. by destruct s. Qed.

(** [getStatus] is its steps run by themselves. *)
Lemma getStatus_uninterrupted jobId s :
  JobTracker.finish 2 (JobTracker.begin (JobTracker.ReqGetStatus jobId) s) =
  match JobTracker.getStatus jobId s with
  | (inl e, s') => (inl e, s')
  | (inr job, s') => (inr (inl (JobTracker.VJob job)), s')
  end.
Proof.
  destruct (JobTracker.get jobId (jobs s)) as [job|] eqn:Hg.
  2:{ rewrite (getStatus_unknown _ _ Hg).
      unfold JobTracker.begin, JobTracker.getStatus_begin, JobTracker.lookup_job,
        bind, gets. by rewrite Hg. }
  destruct (status_running_dec job) as [Hrun|Hrun].
  2:{ rewrite (getStatus_terminal _ _ _ Hg Hrun).
      unfold JobTracker.begin, JobTracker.getStatus_begin, JobTracker.lookup_job,
        bind, gets. rewrite Hg. simpl. by destruct (Job.status job). }
  rewrite (getStatus_running _ _ _ Hg Hrun).
  unfold JobTracker.begin, JobTracker.getStatus_begin, JobTracker.lookup_job,
    bind, gets. rewrite Hg. simpl. rewrite Hrun. simpl.
  unfold JobTracker.getStatus_resume, JobTracker.receive, bind. simpl.
  destruct (remote_exec _ _ (world s)) as [[e|r1] w1]; simpl; [done|].
  destruct (JobTracker.process_gone r1); simpl.
  - unfold JobTracker.getStatus_resume, JobTracker.receive, bind, now, gets,
      JobTracker.finalize. simpl.
    destruct (remote_exec _ _ w1) as [[e|r2] w2]; simpl; by rewrite <- app_assoc.
  - unfold JobTracker.current, bind, gets, ret. simpl. by rewrite Hg.
Qed.

(** [kill] is its steps run by themselves. *)
Lemma kill_uninterrupted jobId s :
  JobTracker.finish 1 (JobTracker.begin (JobTracker.ReqKill jobId) s) =
  match JobTracker.kill jobId s with
  | (inl e, s') => (inl e, s')
  | (inr b, s') => (inr (inl (JobTracker.VBool b)), s')
  end.
Proof.
  destruct (JobTracker.get jobId (jobs s)) as [job|] eqn:Hg.
  2:{ rewrite (kill_unknown _ _ Hg).
      unfold JobTracker.begin, JobTracker.kill_begin, JobTracker.lookup_job,
        bind, gets. by rewrite Hg. }
  destruct (status_running_dec job) as [Hrun|Hrun].
  2:{ rewrite (kill_terminal _ _ _ Hg Hrun).
      unfold JobTracker.begin, JobTracker.kill_begin, JobTracker.lookup_job,
        bind, gets. rewrite Hg. simpl. by destruct (Job.status job). }
  rewrite (kill_running _ _ _ Hg Hrun).
  unfold JobTracker.begin, JobTracker.kill_begin, JobTracker.lookup_job,
    bind, gets. rewrite Hg. simpl. rewrite Hrun. simpl.
  unfold JobTracker.kill_resume, JobTracker.receive, bind, now, gets,
    JobTracker.finalize. simpl.
  destruct (remote_exec _ _ (world s)) as [[e|r] w]; simpl; [done|].
  by destruct (String.eqb (JS.trim (stdout r)) "killed").
Qed.

(** The steps, one by one. *)

Lemma getStatus_begin_spec jobId s :
  JobTracker.getStatus_begin jobId s =
  match JobTracker.get jobId (jobs s) with
  | None => (inl (JobTracker.JobNotFound jobId), s)
  | Some job =>
      match Job.status job with
      | running =>
          (inr (inr job),
           mkServer (world s) (issued s ++ [(Job.host job, JobTracker.checkCmd job)])
             (jobs s) (metadata s))
      | _ => (inr (inl job), s)
      end
  end.
Proof.
  unfold JobTracker.getStatus_begin, JobTracker.lookup_job, bind, gets.
  destruct (JobTracker.get jobId (jobs s)) as [job|]; [|done]. simpl.
  by destruct (Job.status job).
Qed.

Lemma getStatus_resume_check key job s :
  JobTracker.getStatus_resume key job JobTracker.AtCheck s =
  match remote_exec (Job.host job) (JobTracker.checkCmd job) (world s) with
  | (inl e, w) => (inl e, mkServer w (issued s) (jobs s) (metadata s))
  | (inr r, w) =>
      if JobTracker.process_gone r then
        (inr (inr JobTracker.AtWait),
         mkServer w (issued s ++ [(Job.host job, JobTracker.waitCmd job)])
           (jobs s) (metadata s))
      else
        (inr (inl (default job (JobTracker.get key (jobs s)))),
         mkServer w (issued s) (jobs s) (metadata s))
  end.
Proof.
  unfold JobTracker.getStatus_resume, JobTracker.receive, bind. simpl.
  destruct (remote_exec _ _ (world s)) as [[e|r] w]; simpl; [done|].
  by destruct (JobTracker.process_gone r).
Qed.

Lemma getStatus_resume_wait key job s :
  JobTracker.getStatus_resume key job JobTracker.AtWait s =
  match remote_exec (Job.host job) (JobTracker.waitCmd job) (world s) with
  | (inl e, w) => (inl e, mkServer w (issued s) (jobs s) (metadata s))
  | (inr r, w) =>
      let code := JobTracker.recovered_exit_code r in
      let job' := JobTracker.finalized job (if code =? 0 then completed else failed)
                    code (date_now w) in
      (inr (inl job'),
       mkServer w (issued s) (JobTracker.update key job' (jobs s)) (metadata s))
  end.
Proof.
  unfold JobTracker.getStatus_resume, JobTracker.receive, bind, now, gets,
    JobTracker.finalize. simpl.
  by destruct (remote_exec _ _ (world s)) as [[e|r] w].
Qed.

Lemma kill_begin_spec jobId s :
  JobTracker.kill_begin jobId s =
  match JobTracker.get jobId (jobs s) with
  | None => (inl (JobTracker.JobNotFound jobId), s)
  | Some job =>
      match Job.status job with
      | running =>
          (inr (inr job),
           mkServer (world s) (issued s ++ [(Job.host job, JobTracker.killCmd job)])
             (jobs s) (metadata s))
      | _ => (inr (inl false), s)
      end
  end.
Proof.
  unfold JobTracker.kill_begin, JobTracker.lookup_job, bind, gets.
  destruct (JobTracker.get jobId (jobs s)) as [job|]; [|done]. simpl.
  by destruct (Job.status job).
Qed.

Lemma kill_resume_spec key job s :
  JobTracker.kill_resume key job s =
  match remote_exec (Job.host job) (JobTracker.killCmd job) (world s) with
  | (inl e, w) => (inl e, mkServer w (issued s) (jobs s) (metadata s))
  | (inr r, w) =>
      if String.eqb (JS.trim (stdout r)) "killed" then
        (inr true,
         mkServer w (issued s)
           (JobTracker.update key (JobTracker.finalized job failed (-9) (date_now w))
              (jobs s))
           (metadata s))
      else (inr false, mkServer w (issued s) (jobs s) (metadata s))
  end.
Proof.
  unfold JobTracker.kill_resume, JobTracker.receive, bind, now, gets,
    JobTracker.finalize. simpl.
  destruct (remote_exec _ _ (world s)) as [[e|r] w]; simpl; [done|].
  by destruct (String.eqb (JS.trim (stdout r)) "killed").
Qed.

(** What a step can do to the table and which job the call holds
    afterwards. *)

Lemma list_loop_cons keys k rest s :
  JobTracker.list_loop keys (k :: rest) s =
  match JobTracker.get k (jobs s) with
  | Some job =>
      if JobTracker.is_running job then
        match JobTracker.getStatus_begin (Job.id job) s with
        | (inl e, s') => (inl e, s')
        | (inr (inl _), s') => (inr (inr (JobTracker.InListNext keys rest)), s')
        | (inr (inr job0), s') =>
            (inr (inr (JobTracker.InList keys rest (Job.id job) job0
                         JobTracker.AtCheck)), s')
        end
      else JobTracker.list_loop keys rest s
  | None => JobTracker.list_loop keys rest s
  end.
Proof.
  simpl. unfold bind at 1. unfold gets at 1.
  destruct (JobTracker.get k (jobs s)) as [job|]; [|done].
  destruct (JobTracker.is_running job); [|done]. unfold bind.
  by destruct (JobTracker.getStatus_begin (Job.id job) s) as [[e|[j|j]] s'].
Qed.

Lemma list_loop_effect keys rest : forall s,
  jobs (JobTracker.list_loop keys rest s).2 = jobs s /\
  forall p' k,
    (JobTracker.list_loop keys rest s).1 = inr (inr p') -> JobTracker.holds k p' ->
    exists job0, JobTracker.get k (jobs s) = Some job0 /\ Job.status job0 = running.
Proof.
  induction rest as [|k0 rest IH]; intros s; [by split|].
  rewrite list_loop_cons.
  destruct (JobTracker.get k0 (jobs s)) as [job|]; [|apply IH].
  destruct (JobTracker.is_running job); [|apply IH].
  rewrite getStatus_begin_spec.
  destruct (JobTracker.get (Job.id job) (jobs s)) as [job0|] eqn:Hg; [|by split].
  destruct (Job.status job0) eqn:Hst; simpl; (split; [done|]).
  - intros p' k [= <-] <-. by exists job0.
  - by intros p' k [= <-] [].
  - by intros p' k [= <-] [].
Qed.

Lemma begin_effect req s :
  jobs (JobTracker.begin req s).2 = jobs s /\
  forall p' k,
    (JobTracker.begin req s).1 = inr (inr p') -> JobTracker.holds k p' ->
    exists job0, JobTracker.get k (jobs s) = Some job0 /\ Job.status job0 = running.
Proof.
  destruct req as [jobId|jobId|hostName]; simpl.
  - unfold bind. rewrite getStatus_begin_spec.
    destruct (JobTracker.get jobId (jobs s)) as [job|] eqn:Hg; [|by split].
    destruct (Job.status job) eqn:Hst; simpl; (split; [done|]); try done.
    intros p' k [= <-] <-. by exists job.
  - unfold bind. rewrite kill_begin_spec.
    destruct (JobTracker.get jobId (jobs s)) as [job|] eqn:Hg; [|by split].
    destruct (Job.status job) eqn:Hst; simpl; (split; [done|]); try done.
    intros p' k [= <-] <-. by exists job.
  - unfold bind at 1. unfold gets. apply list_loop_effect.
Qed.

Lemma resume_effect p s :
  (jobs (JobTracker.resume p s).2 = jobs s \/
   exists key job', JobTracker.holds key p /\
     jobs (JobTracker.resume p s).2 = JobTracker.update key job' (jobs s)) /\
  forall p' k,
    (JobTracker.resume p s).1 = inr (inr p') -> JobTracker.holds k p' ->
    JobTracker.holds k p \/
    exists job0, JobTracker.get k (jobs s) = Some job0 /\ Job.status job0 = running.
Proof.
  destruct p as [key job [|]|key job|keys rest key job [|]|keys rest];
    unfold JobTracker.resume.
  - unfold bind. rewrite getStatus_resume_check.
    destruct (remote_exec _ _ (world s)) as [[e|r] w]; simpl; [by split; [left|]|].
    destruct (JobTracker.process_gone r); simpl; (split; [by left|]); [|done].
    intros p' k [= <-] Hk. by left.
  - unfold bind. rewrite getStatus_resume_wait.
    destruct (remote_exec _ _ (world s)) as [[e|r] w]; simpl; [by split; [left|]|].
    split; [|done]. right. by eexists _, _.
  - unfold bind. rewrite kill_resume_spec.
    destruct (remote_exec _ _ (world s)) as [[e|r] w]; simpl; [by split; [left|]|].
    destruct (String.eqb (JS.trim (stdout r)) "killed"); simpl;
      (split; [|done]); [|by left].
    right. by eexists _, _.
  - unfold bind. rewrite getStatus_resume_check.
    destruct (remote_exec _ _ (world s)) as [[e|r] w]; simpl; [by split; [left|]|].
    destruct (JobTracker.process_gone r); simpl; (split; [by left|]).
    + intros p' k [= <-] Hk. by left.
    + by intros p' k [= <-] [].
  - unfold bind. rewrite getStatus_resume_wait.
    destruct (remote_exec _ _ (world s)) as [[e|r] w]; simpl; [by split; [left|]|].
    split; [right; by eexists _, _|]. by intros p' k [= <-] [].
  - destruct (list_loop_effect keys rest s) as [Hj Hh]. split; [by left|].
    intros p' k Hp Hk. right. by eapply Hh.
Qed.

(** A finished job that no call in flight holds stays as it is, whatever
    happens next. *)
Lemma act_keeps_finished k job sys a :
  Job.status job <> running ->
  JobTracker.get k (jobs (JobTracker.state sys)) = Some job ->
  Forall (fun p => ~ JobTracker.holds k p) (JobTracker.calls sys) ->
  JobTracker.get k (jobs (JobTracker.state (JobTracker.act sys a))) = Some job /\
  Forall (fun p => ~ JobTracker.holds k p) (JobTracker.calls (JobTracker.act sys a)).
Proof.
  intros Hterm Hg Hfree.
  assert (forall job0, JobTracker.get k (jobs (JobTracker.state sys)) = Some job0 ->
                       Job.status job0 = running -> False) as Hnot
    by (intros job0 Hg0 Hrun; congruence).
  destruct a as [req|n]; simpl.
  - destruct (begin_effect req (JobTracker.state sys)) as [Hj Hh].
    destruct (JobTracker.begin req (JobTracker.state sys)) as [[e|[v|p']] s'];
      simpl in *; rewrite Hj; (split; [done|]); try done.
    apply Forall_app. split; [done|]. constructor; [|constructor].
    intros Hk. destruct (Hh p' k eq_refl Hk) as (job0 & Hg0 & Hrun). eauto.
  - destruct (JobTracker.calls sys !! n) as [p|] eqn:Hp; [|done].
    assert (~ JobTracker.holds k p) as Hfp.
    { rewrite Forall_forall in Hfree. apply Hfree. by eapply list_elem_of_lookup_2. }
    destruct (resume_effect p (JobTracker.state sys)) as [Hj Hh].
    assert (JobTracker.get k (jobs (JobTracker.resume p (JobTracker.state sys)).2) =
            Some job) as Hkeep.
    { destruct Hj as [-> |(key & job' & Hkey & ->)]; [done|].
      rewrite get_update_ne; [done|]. by intros <-. }
    destruct (JobTracker.resume p (JobTracker.state sys)) as [[e|[v|p']] s'];
      simpl in *; (split; [done|]).
    + by apply Forall_delete.
    + by apply Forall_delete.
    + apply Forall_insert; [done|].
      intros Hk. destruct (Hh p' k eq_refl Hk) as [|(job0 & Hg0 & Hrun)]; eauto.
Qed.

Lemma schedule_keeps_finished k job acts : forall sys,
  Job.status job <> running ->
  JobTracker.get k (jobs (JobTracker.state sys)) = Some job ->
  Forall (fun p => ~ JobTracker.holds k p) (JobTracker.calls sys) ->
  JobTracker.get k (jobs (JobTracker.state (JobTracker.schedule sys acts))) = Some job /\
  Forall (fun p => ~ JobTracker.holds k p)
    (JobTracker.calls (JobTracker.schedule sys acts)).
Proof.
  induction acts as [|a acts IH]; intros sys Hterm Hg Hfree; [done|].
  destruct (act_keeps_finished k job sys a Hterm Hg Hfree) as [Hg' Hfree'].
  by apply IH.
Qed.

(** The commands of [getStatus] and [kill], character by character. *)

Lemma append_assoc_r (a b c : string) : (a +:+ b) +:+ c = a +:+ b +:+ c.
Proof.
  induction a as [|x a IH]; [done|].
  change (String x ((a +:+ b) +:+ c) = String x (a +:+ b +:+ c)). by rewrite IH.
Qed.

Lemma checkCmd_text job :
  JobTracker.checkCmd job =
  "ps -p " +:+ JS.string_of_number (Job.pid job) +:+ " -o pid= 2>/dev/null || echo "
    +:+ String "034"%char EmptyString +:+ "done" +:+ String "034"%char EmptyString.
Proof. reflexivity. Qed.

Lemma waitCmd_text job :
  JobTracker.waitCmd job =
  "wait " +:+ JS.string_of_number (Job.pid job) +:+ " 2>/dev/null; echo $?".
Proof. reflexivity. Qed.

Lemma killCmd_text job :
  JobTracker.killCmd job =
  "kill " +:+ JS.string_of_number (Job.pid job) +:+ " 2>/dev/null && echo "
    +:+ String "034"%char EmptyString +:+ "killed" +:+ String "034"%char EmptyString
    +:+ " || echo "
    +:+ String "034"%char EmptyString +:+ "failed" +:+ String "034"%char EmptyString.
Proof.
  unfold JobTracker.killCmd, JS.quoted.
  rewrite (append_assoc_r JS.dq ("killed" +:+ JS.dq)). reflexivity.
Qed.

(** C5.  [kill] on an unknown identifier fails with JobNotFound.  On a
    known job that is not running it returns [false] and does nothing.  On
    a running job it sends [kill <pid> 2>/dev/null && echo "killed" ||
    echo "failed"] to the host of the job.  When the answer is [killed] it
    returns [true] and the job object has status failed, exit code -9 and
    the end time set to the time of the answer, its other fields and all
    other jobs being as before; when the answer is anything else it
    returns [false] and no job object has changed; when the command fails
    the call fails with that error and no job object has changed.  So
    [kill] returns [true] only for a running job whose signal the remote
    side reported delivered, and a [kill] that returned [false] has changed
    no job object. *)
Theorem kill_contract (jobId : string) (s : Server) :
  let q := String "034"%char EmptyString in
  (JobTracker.get jobId (jobs s) = None ->
     JobTracker.kill jobId s = (inl (JobTracker.JobNotFound jobId), s)) /\
  (forall job, JobTracker.get jobId (jobs s) = Some job ->
     (Job.status job <> running -> JobTracker.kill jobId s = (inr false, s)) /\
     (Job.status job = running ->
      let cmd :=
        "kill " +:+ JS.string_of_number (Job.pid job) +:+ " 2>/dev/null && echo "
          +:+ q +:+ "killed" +:+ q +:+ " || echo " +:+ q +:+ "failed" +:+ q in
      let answer := remote_exec (Job.host job) cmd (world s) in
      let s' := (JobTracker.kill jobId s).2 in
      world s' = answer.2 /\
      issued s' = issued s ++ [(Job.host job, cmd)] /\
      metadata s' = metadata s /\
      (forall k, k <> jobId -> JobTracker.get k (jobs s') = JobTracker.get k (jobs s)) /\
      match answer.1 with
      | inl e => (JobTracker.kill jobId s).1 = inl e /\ jobs s' = jobs s
      | inr r =>
          if String.eqb (JS.trim (stdout r)) "killed" then
            (JobTracker.kill jobId s).1 = inr true /\
            exists job',
              JobTracker.get jobId (jobs s') = Some job' /\
              Job.status job' = failed /\
              Job.exitCode job' = Some (-9) /\
              Job.endTime job' = Some (date_now answer.2) /\
              Job.id job' = Job.id job /\ Job.host job' = Job.host job /\
              Job.command job' = Job.command job /\ Job.name job' = Job.name job /\
              Job.pid job' = Job.pid job /\ Job.startTime job' = Job.startTime job /\
              Job.outputFile job' = Job.outputFile job
          else (JobTracker.kill jobId s).1 = inr false /\ jobs s' = jobs s
      end)) /\
  (forall s', JobTracker.kill jobId s = (inr true, s') ->
     exists job r,
       JobTracker.get jobId (jobs s) = Some job /\ Job.status job = running /\
       (remote_exec (Job.host job)
          ("kill " +:+ JS.string_of_number (Job.pid job) +:+ " 2>/dev/null && echo "
             +:+ q +:+ "killed" +:+ q +:+ " || echo " +:+ q +:+ "failed" +:+ q)
          (world s)).1 = inr r /\
       JS.trim (stdout r) = "killed") /\
  (forall s', JobTracker.kill jobId s = (inr false, s') -> jobs s' = jobs s).
Proof.
  cbv zeta. split; [apply kill_unknown|]. split; [|split].
  - intros job Hg. split; [by apply kill_terminal|].
    intros Hrun. rewrite (kill_running _ _ _ Hg Hrun), killCmd_text.
    destruct (remote_exec _ _ (world s)) as [[e|r] w]; simpl; [done|].
    destruct (String.eqb (JS.trim (stdout r)) "killed"); simpl; [|done].
    do 3 (split; [done|]). split; [intros k Hne; by apply get_update_ne|].
    split; [done|]. eexists. split; [by rewrite get_update_eq, Hg|]. done.
  - intros s' Hkill.
    destruct (JobTracker.get jobId (jobs s)) as [job|] eqn:Hg;
      [|by rewrite (kill_unknown _ _ Hg) in Hkill].
    destruct (status_running_dec job) as [Hrun|Hrun];
      [|by rewrite (kill_terminal _ _ _ Hg Hrun) in Hkill].
    rewrite (kill_running _ _ _ Hg Hrun), killCmd_text in Hkill.
    exists job.
    destruct (remote_exec _ _ (world s)) as [[e|r] w] eqn:He; [done|].
    destruct (String.eqb_spec (JS.trim (stdout r)) "killed") as [Heq|Hne]; [|done].
    by exists r.
  - intros s' Hkill.
    destruct (JobTracker.get jobId (jobs s)) as [job|] eqn:Hg;
      [|by rewrite (kill_unknown _ _ Hg) in Hkill].
    destruct (status_running_dec job) as [Hrun|Hrun];
      [|rewrite (kill_terminal _ _ _ Hg Hrun) in Hkill; by injection Hkill as <-].
    rewrite (kill_running _ _ _ Hg Hrun) in Hkill.
    destruct (remote_exec _ _ (world s)) as [[e|r] w] eqn:He; [done|].
    destruct (String.eqb (JS.trim (stdout r)) "killed"); [done|].
    by injection Hkill as <-.
Qed.

(** The refresh loop of [list]. *)

Lemma wf_get_id (l : list (string * Job.t)) k j :
  JobTracker.wf_jobs l -> JobTracker.get k l = Some j -> Job.id j = k.
Proof.
  intros [_ Hid]. induction l as [|[k0 j0] l IH]; [done|]. simpl.
  apply Forall_cons in Hid as [Hhd Htl].
  destruct (String.eqb_spec k0 k) as [->|Hne]; [|by apply IH].
  by intros [= <-].
Qed.

Lemma wf_update (l : list (string * Job.t)) k j :
  JobTracker.wf_jobs l -> Job.id j = k -> JobTracker.wf_jobs (JobTracker.update k j l).
Proof.
  intros [Hnd Hid] Hj. split; [by rewrite update_keys|].
  clear Hnd. induction l as [|[k0 j0] l IH]; [done|]. simpl.
  apply Forall_cons in Hid as [Hhd Htl].
  destruct (String.eqb_spec k0 k) as [->|Hne]; constructor; auto.
Qed.

Lemma get_elem_of (l : list (string * Job.t)) k j :
  NoDup l.*1 -> (k, j) ∈ l -> JobTracker.get k l = Some j.
Proof.
  induction l as [|[k0 j0] l IH]; intros Hnd Hin; [by apply elem_of_nil in Hin|].
  simpl. apply NoDup_cons in Hnd as [Hk0 Hnd].
  apply elem_of_cons in Hin as [[= <- <-]|Hin].
  - by rewrite String.eqb_refl.
  - destruct (String.eqb_spec k0 k) as [->|Hne]; [|by apply IH].
    exfalso. apply Hk0. apply list_elem_of_fmap. by exists (k, j).
Qed.

Lemma update_same (l : list (string * Job.t)) k j :
  JobTracker.get k l = Some j -> JobTracker.update k j l = l.
Proof.
  induction l as [|[k0 j0] l IH]; [done|]. simpl.
  destruct (String.eqb_spec k0 k) as [->|Hne].
  - by intros [= ->].
  - intros Hg. by rewrite IH.
Qed.

Lemma refresh_spec key s r s' :
  JobTracker.wf_jobs (jobs s) -> JobTracker.refresh key s = (r, s') ->
  metadata s' = metadata s /\
  match JobTracker.get key (jobs s) with
  | None => jobs s' = jobs s /\ issued s' = issued s /\ r = inr tt
  | Some job =>
      (r = inr tt ->
       exists job' cmds,
         JobTracker.refreshed job job' /\
         jobs s' = JobTracker.update key job' (jobs s) /\
         issued s' = issued s ++ cmds /\ JobTracker.probes job cmds) /\
      (JobTracker.answers_all -> r = inr tt)
  end.
Proof.
  intros Hwf. unfold JobTracker.refresh. unfold bind at 1. unfold gets.
  destruct (JobTracker.get key (jobs s)) as [job|] eqn:Hg;
    [|by intros [= <- <-]].
  assert (Job.id job = key) as Hid by eauto using wf_get_id.
  unfold JobTracker.probes, JobTracker.is_running.
  destruct (status_running_dec job) as [Hrun|Hrun].
  - rewrite Hrun. unfold bind, ret. rewrite Hid.
    rewrite (getStatus_running _ _ _ Hg Hrun).
    destruct (remote_exec _ _ (world s)) as [[e|r1] w1] eqn:He1.
    { intros [= <- <-]. split; [done|]. split; [done|].
      intros Hall. destruct (Hall (Job.host job) (JobTracker.checkCmd job) (world s))
        as (? & ? & ?). congruence. }
    destruct (JobTracker.process_gone r1).
    + destruct (remote_exec _ _ w1) as [[e|r2] w2] eqn:He2.
      { intros [= <- <-]. split; [done|]. split; [done|].
        intros Hall. destruct (Hall (Job.host job) (JobTracker.waitCmd job) w1)
          as (? & ? & ?). congruence. }
      intros [= <- <-]. split; [done|]. split; [|done]. intros _.
      eexists _, _. split; [|split; [reflexivity|split; [reflexivity|by right]]].
      right. split; [done|]. by eexists _, _.
    + intros [= <- <-]. split; [done|]. split; [|done]. intros _.
      exists job, [(Job.host job, JobTracker.checkCmd job)].
      split; [by left|]. simpl. rewrite update_same by done. by repeat split; auto.
  - assert (match Job.status job with running => true | _ => false end = false) as ->
      by (by destruct (Job.status job)).
    intros [= <- <-]. split; [done|]. split; [|done]. intros _.
    exists job, []. split; [by left|].
    rewrite update_same by done. by rewrite app_nil_r.
Qed.

Lemma refreshed_id job job' : JobTracker.refreshed job job' -> Job.id job' = Job.id job.
Proof. by intros [->|(_ & code & t & ->)]. Qed.

Lemma for_each_cons {B} (x : B) l (body : B -> M unit) s :
  for_each (x :: l) body s =
  match body x s with
  | (inr _, s1) => for_each l body s1
  | (inl e, s1) => (inl e, s1)
  end.
Proof. reflexivity. Qed.

Lemma refresh_loop keys : forall s r s' (t0 : list (string * Job.t)),
  NoDup keys -> JobTracker.wf_jobs (jobs s) ->
  (forall k, k ∈ keys -> is_Some (JobTracker.get k t0)) ->
  (forall k, k ∈ keys -> JobTracker.get k (jobs s) = JobTracker.get k t0) ->
  for_each keys JobTracker.refresh s = (r, s') ->
  (JobTracker.answers_all -> r = inr tt) /\
  (r = inr tt ->
   JobTracker.wf_jobs (jobs s') /\ (jobs s').*1 = (jobs s).*1 /\
   metadata s' = metadata s /\
   (forall k, k ∉ keys -> JobTracker.get k (jobs s') = JobTracker.get k (jobs s)) /\
   exists jcs : list (Job.t * list (string * string)),
     Forall2 (fun k jc =>
                exists job, JobTracker.get k t0 = Some job /\
                            JobTracker.get k (jobs s') = Some jc.1 /\
                            JobTracker.refreshed job jc.1 /\
                            JobTracker.probes job jc.2) keys jcs /\
     issued s' = issued s ++ concat jcs.*2).
Proof.
  induction keys as [|k keys IH]; intros s r s' t0 Hnd Hwf Hsome Hagree Hrun.
  - injection Hrun as <- <-. split; [done|]. intros _.
    do 4 (split; [done|]). exists []. split; [constructor|]. by rewrite app_nil_r.
  - rewrite for_each_cons in Hrun.
    apply NoDup_cons in Hnd as [Hk Hnd].
    destruct (JobTracker.refresh k s) as [r1 s1] eqn:Hr1.
    destruct (refresh_spec _ _ _ _ Hwf Hr1) as [Hmeta Hspec].
    destruct (Hsome k (list_elem_of_here _ _)) as [job Hjob].
    rewrite (Hagree k (list_elem_of_here _ _)), Hjob in Hspec.
    destruct Hspec as [Hok Htot].
    destruct r1 as [e|[]].
    { injection Hrun as <- <-. split; [|done]. intros Hall. by specialize (Htot Hall). }
    destruct (Hok eq_refl) as (job' & cmds & Href & Hjobs & Hiss & Hpr).
    assert (JobTracker.get k (jobs s) = Some job) as Hg
      by (by rewrite (Hagree k (list_elem_of_here _ _))).
    assert (JobTracker.wf_jobs (jobs s1)) as Hwf1.
    { rewrite Hjobs. apply wf_update; [done|].
      rewrite (refreshed_id _ _ Href). eauto using wf_get_id. }
    assert (forall k', k' <> k -> JobTracker.get k' (jobs s1) = JobTracker.get k' (jobs s))
      as Hother by (intros k' Hne; rewrite Hjobs; by apply get_update_ne).
    destruct (IH s1 r s' t0 Hnd Hwf1) as [IHtot IHok]; [| |done|].
    { intros k' Hk'. apply Hsome. by apply list_elem_of_further. }
    { intros k' Hk'. rewrite Hother by (intros ->; done).
      apply Hagree. by apply list_elem_of_further. }
    split; [done|]. intros Hr.
    destruct (IHok Hr) as (Hwf' & Hkeys & Hmeta' & Hout & jcs & HF & Hiss').
    split; [done|]. split.
    { rewrite Hkeys, Hjobs. apply update_keys. }
    split; [congruence|]. split.
    { intros k' Hk'. apply not_elem_of_cons in Hk' as [Hne Hk'].
      rewrite Hout by done. by apply Hother. }
    exists ((job', cmds) :: jcs). split.
    + constructor; [|done]. exists job. split; [done|]. split; [|done].
      simpl. rewrite Hout by done. rewrite Hjobs, get_update_eq. by rewrite Hg.
    + rewrite Hiss', Hiss. simpl. by rewrite app_assoc.
Qed.

Lemma Forall2_strengthen {B C} (R : B -> Prop) (P Q : B -> C -> Prop) l k :
  Forall R l -> Forall2 P l k -> (forall x y, R x -> P x y -> Q x y) -> Forall2 Q l k.
Proof.
  intros HR HP HQ. induction HP as [|x y l k Hxy HP IH]; [constructor|].
  apply Forall_cons in HR as [Hx HR]. constructor; auto.
Qed.

Lemma omap_get_all (table : list (string * Job.t)) keys
    (jcs : list (Job.t * list (string * string))) :
  Forall2 (fun k jc => JobTracker.get k table = Some jc.1) keys jcs ->
  omap (fun k => JobTracker.get k table) keys = jcs.*1.
Proof.
  induction 1 as [|k jc keys jcs Hk _ IH]; [done|].
  csimpl. by rewrite Hk, IH.
Qed.

Lemma list_unfold hostName s :
  JobTracker.list hostName s =
  let keys := (filter (fun e => selects hostName (Job.host e.2) = true) (jobs s)).*1 in
  match for_each keys JobTracker.refresh s with
  | (inr _, s1) =>
      (inr (JS.sort JobTracker.byStartTimeDesc
              (omap (fun k => JobTracker.get k (jobs s1)) keys)), s1)
  | (inl e, s1) => (inl e, s1)
  end.
Proof.
  unfold JobTracker.list, bind, gets, ret. cbv zeta.
  by destruct (for_each _ JobTracker.refresh s) as [[e|[]] s1].
Qed.

(** [list] is its steps run by themselves. *)

Lemma finish_error fuel e s :
  JobTracker.finish fuel (inl e, s) = (inl e, s).
Proof. by destruct fuel. Qed.

Lemma finish_value fuel v s :
  JobTracker.finish fuel (inr (inl v), s) = (inr (inl v), s).
Proof. by destruct fuel. Qed.

Lemma finish_pending fuel p s :
  JobTracker.finish (S fuel) (inr (inr p), s) =
  JobTracker.finish fuel (JobTracker.resume p s).
Proof. reflexivity. Qed.

Lemma refresh_unfold key s :
  JobTracker.refresh key s =
  match JobTracker.get key (jobs s) with
  | Some job =>
      if JobTracker.is_running job then
        match JobTracker.getStatus (Job.id job) s with
        | (inl e, s') => (inl e, s')
        | (inr _, s') => (inr tt, s')
        end
      else (inr tt, s)
  | None => (inr tt, s)
  end.
Proof.
  unfold JobTracker.refresh. unfold bind at 1. unfold gets.
  destruct (JobTracker.get key (jobs s)) as [job|]; [|done].
  destruct (JobTracker.is_running job); [|done]. unfold bind, ret.
  by destruct (JobTracker.getStatus (Job.id job) s) as [[e|j] s'].
Qed.

Lemma list_loop_uninterrupted keys rest : forall s fuel,
  JobTracker.wf_jobs (jobs s) -> (3 * length rest <= fuel)%nat ->
  JobTracker.finish fuel (JobTracker.list_loop keys rest s) =
  match for_each rest JobTracker.refresh s with
  | (inl e, s') => (inl e, s')
  | (inr _, s') =>
      (inr (inl (JobTracker.VJobs
                   (JS.sort JobTracker.byStartTimeDesc
                      (omap (fun k => JobTracker.get k (jobs s')) keys)))), s')
  end.
Proof.
  induction rest as [|k rest IH]; intros s fuel Hwf Hfuel.
  - simpl. apply finish_value.
  - rewrite list_loop_cons, for_each_cons, refresh_unfold.
    simpl length in Hfuel.
    destruct (JobTracker.get k (jobs s)) as [job|] eqn:Hg; [|apply IH; [done|lia]].
    unfold JobTracker.is_running.
    destruct (status_running_dec job) as [Hrun|Hrun].
    2:{ assert (match Job.status job with running => true | _ => false end = false)
          as -> by (by destruct (Job.status job)).
        apply IH; [done|lia]. }
    rewrite Hrun.
    assert (Job.id job = k) as Hid by eauto using wf_get_id.
    rewrite Hid, getStatus_begin_spec, (getStatus_running _ _ _ Hg Hrun), Hg, Hrun.
    destruct fuel as [|[|[|fuel]]]; try lia.
    rewrite finish_pending. unfold JobTracker.resume at 1. unfold bind at 1.
    rewrite getStatus_resume_check. simpl world. simpl issued. simpl jobs.
    simpl metadata.
    destruct (remote_exec _ _ (world s)) as [[e|r1] w1]; [by rewrite finish_error|].
    destruct (JobTracker.process_gone r1).
    + unfold ret at 1. rewrite finish_pending.
      unfold JobTracker.resume at 1. unfold bind at 1.
      rewrite getStatus_resume_wait. simpl world. simpl issued. simpl jobs.
      simpl metadata.
      destruct (remote_exec _ _ w1) as [[e|r2] w2];
        [rewrite finish_error; by rewrite <- app_assoc|].
      cbv zeta. unfold ret at 1. rewrite finish_pending.
      unfold JobTracker.resume at 1.
      rewrite <- app_assoc. simpl app.
      apply IH; [|lia]. simpl. by apply wf_update.
    + unfold ret at 1. rewrite finish_pending.
      unfold JobTracker.resume at 1.
      apply IH; [done|lia].
Qed.

Lemma list_uninterrupted hostName s :
  JobTracker.wf_jobs (jobs s) ->
  JobTracker.finish (3 * length (jobs s))
    (JobTracker.begin (JobTracker.ReqList hostName) s) =
  match JobTracker.list hostName s with
  | (inl e, s') => (inl e, s')
  | (inr js, s') => (inr (inl (JobTracker.VJobs js)), s')
  end.
Proof.
  intros Hwf. rewrite list_unfold. cbv zeta.
  unfold JobTracker.begin. unfold bind at 1. unfold gets at 1.
  rewrite list_loop_uninterrupted; [|done|].
  - by destruct (for_each _ JobTracker.refresh s) as [[e|[]] s'].
  - rewrite length_fmap.
    pose proof (length_filter (fun e => selects hostName (Job.host e.2) = true) (jobs s)).
    lia.
Qed.

(** X28.  Finished jobs and overlapping calls.  A call run by itself:
    [getStatus] on a running job sends the probe
    [ps -p <pid> -o pid= 2>/dev/null || echo "done"]; when the answer is
    [done] or empty the process is gone, and [getStatus] sends
    [wait <pid> 2>/dev/null; echo $?], takes the exit status from the
    answer (0 when it is not a number; statuses of magnitude up to 2^53,
    which a JavaScript number holds exactly) and leaves the job object
    completed when the status is 0 and failed otherwise, with the exit
    code and the end time set and nothing else changed.  The methods are
    asynchronous and calls overlap.  A job object that is completed or
    failed and that no call in flight holds is left exactly as it is by
    every later call of [getStatus], [kill] and [list], however the calls
    are interleaved and whatever the remote side answers.  But a call
    that found the job running and waits for an answer does not test the
    status again when it goes on: a [getStatus] waiting for the wait
    command sets status, exit code and end time of the job whatever it
    has become in the meantime, and so does a [kill] waiting for its
    signal. *)
Theorem job_state_machine (s : Server) :
  let q := String "034"%char EmptyString in
  let probe job :=
    "ps -p " +:+ JS.string_of_number (Job.pid job)
      +:+ " -o pid= 2>/dev/null || echo " +:+ q +:+ "done" +:+ q in
  let wait job :=
    "wait " +:+ JS.string_of_number (Job.pid job) +:+ " 2>/dev/null; echo $?" in
  let signal job :=
    "kill " +:+ JS.string_of_number (Job.pid job) +:+ " 2>/dev/null && echo "
      +:+ q +:+ "killed" +:+ q +:+ " || echo " +:+ q +:+ "failed" +:+ q in
  let exit_status (r : ExecResult) :=
    match JS.parseInt (JS.trim (stdout r)) with Some n => n | None => 0 end in
  let same_but_outcome (job job' : Job.t) :=
    Job.id job' = Job.id job /\ Job.host job' = Job.host job /\
    Job.command job' = Job.command job /\ Job.name job' = Job.name job /\
    Job.pid job' = Job.pid job /\ Job.startTime job' = Job.startTime job /\
    Job.outputFile job' = Job.outputFile job in
  (forall jobId job r1 w1 r2 w2,
     JobTracker.get jobId (jobs s) = Some job -> Job.status job = running ->
     remote_exec (Job.host job) (probe job) (world s) = (inr r1, w1) ->
     JS.trim (stdout r1) = "done" \/ JS.trim (stdout r1) = "" ->
     remote_exec (Job.host job) (wait job) w1 = (inr r2, w2) ->
     Z.abs (exit_status r2) <= 9007199254740992 ->
     exists job' s',
       JobTracker.getStatus jobId s = (inr job', s') /\
       JobTracker.get jobId (jobs s') = Some job' /\
       Job.status job' = (if exit_status r2 =? 0 then completed else failed) /\
       Job.exitCode job' = Some (exit_status r2) /\
       Job.endTime job' = Some (date_now w2) /\
       same_but_outcome job job' /\
       issued s' = issued s ++ [(Job.host job, probe job); (Job.host job, wait job)] /\
       (forall k, k <> jobId ->
          JobTracker.get k (jobs s') = JobTracker.get k (jobs s))) /\
  (forall jobId,
     JobTracker.finish 2 (JobTracker.begin (JobTracker.ReqGetStatus jobId) s) =
       match JobTracker.getStatus jobId s with
       | (inl e, s') => (inl e, s')
       | (inr job, s') => (inr (inl (JobTracker.VJob job)), s')
       end /\
     JobTracker.finish 1 (JobTracker.begin (JobTracker.ReqKill jobId) s) =
       match JobTracker.kill jobId s with
       | (inl e, s') => (inl e, s')
       | (inr b, s') => (inr (inl (JobTracker.VBool b)), s')
       end) /\
  (JobTracker.wf_jobs (jobs s) ->
   forall hostName,
     JobTracker.finish (3 * length (jobs s))
       (JobTracker.begin (JobTracker.ReqList hostName) s) =
       match JobTracker.list hostName s with
       | (inl e, s') => (inl e, s')
       | (inr js, s') => (inr (inl (JobTracker.VJobs js)), s')
       end) /\
  (forall k job inflight said acts,
     JobTracker.get k (jobs s) = Some job -> Job.status job <> running ->
     Forall (fun p => ~ JobTracker.holds k p) inflight ->
     let sys' := JobTracker.schedule (JobTracker.mkSystem s inflight said) acts in
     JobTracker.get k (jobs (JobTracker.state sys')) = Some job /\
     Forall (fun p => ~ JobTracker.holds k p) (JobTracker.calls sys')) /\
  (forall key job now_ r2 w2,
     JobTracker.get key (jobs s) = Some now_ ->
     remote_exec (Job.host job) (wait job) (world s) = (inr r2, w2) ->
     Z.abs (exit_status r2) <= 9007199254740992 ->
     exists job' s',
       JobTracker.resume (JobTracker.InGetStatus key job JobTracker.AtWait) s =
         (inr (inl (JobTracker.VJob job')), s') /\
       JobTracker.get key (jobs s') = Some job' /\
       Job.status job' = (if exit_status r2 =? 0 then completed else failed) /\
       Job.exitCode job' = Some (exit_status r2) /\
       Job.endTime job' = Some (date_now w2) /\
       same_but_outcome job job') /\
  (forall key job now_ r w,
     JobTracker.get key (jobs s) = Some now_ ->
     remote_exec (Job.host job) (signal job) (world s) = (inr r, w) ->
     JS.trim (stdout r) = "killed" ->
     exists job' s',
       JobTracker.resume (JobTracker.InKill key job) s =
         (inr (inl (JobTracker.VBool true)), s') /\
       JobTracker.get key (jobs s') = Some job' /\
       Job.status job' = failed /\ Job.exitCode job' = Some (-9) /\
       Job.endTime job' = Some (date_now w) /\
       same_but_outcome job job').
Proof.
  cbv zeta.
  assert (forall r : ExecResult,
            JobTracker.recovered_exit_code r =
            match JS.parseInt (JS.trim (stdout r)) with Some n => n | None => 0 end)
    as Hcode.
  { intros r. unfold JobTracker.recovered_exit_code, JS.or_zero.
    by destruct (JS.parseInt _). }
  split; [|split; [|split; [|split; [|split]]]].
  - intros jobId job r1 w1 r2 w2 Hg Hrun He1 Hgone He2 _.
    rewrite (getStatus_running _ _ _ Hg Hrun), checkCmd_text, waitCmd_text, He1.
    assert (JobTracker.process_gone r1 = true) as ->.
    { unfold JobTracker.process_gone. destruct Hgone as [-> | ->]; [done|].
      apply orb_true_r. }
    rewrite He2. cbv zeta. rewrite Hcode.
    eexists _, _. split; [reflexivity|]. simpl.
    rewrite get_update_eq, Hg.
    do 6 (split; [done|]).
    intros k Hne. by apply get_update_ne.
  - intros jobId. split; [apply getStatus_uninterrupted|apply kill_uninterrupted].
  - intros Hwf hostName. by apply list_uninterrupted.
  - intros k job inflight said acts Hg Hterm Hfree.
    by apply schedule_keeps_finished.
  - intros key job now_ r2 w2 Hg He _.
    unfold JobTracker.resume, bind.
    rewrite getStatus_resume_wait, waitCmd_text, He. cbv zeta. rewrite Hcode.
    eexists _, _. split; [reflexivity|]. simpl.
    by rewrite get_update_eq, Hg.
  - intros key job now_ r w Hg He Hkilled.
    unfold JobTracker.resume, bind.
    rewrite kill_resume_spec, killCmd_text, He, Hkilled. simpl.
    eexists _, _. split; [reflexivity|]. simpl.
    by rewrite get_update_eq, Hg.
Qed.

(** One refresh of the loop of [list] against the words of the
    specification. *)
Lemma refresh_exact key job s :
  JobTracker.get key (jobs s) = Some job -> Job.id job = key ->
  let r := JobListSpec.refresh_one job (world s) in
  let out := JobTracker.refresh key s in
  world out.2 = JobListSpec.world_after r /\
  issued out.2 = issued s ++ JobListSpec.sent r /\
  metadata out.2 = metadata s /\
  match JobListSpec.outcome r with
  | inl e => out.1 = inl e /\ jobs out.2 = jobs s
  | inr job' => out.1 = inr tt /\ jobs out.2 = JobTracker.update key job' (jobs s)
  end.
Proof.
  intros Hg Hid. cbv zeta.
  assert (JobTracker.refresh key s =
          if JobTracker.is_running job then
            match JobTracker.getStatus key s with
            | (inl e, s') => (inl e, s')
            | (inr _, s') => (inr tt, s')
            end
          else (inr tt, s)) as ->.
  { unfold JobTracker.refresh, bind, gets, ret. rewrite Hg, Hid.
    by destruct (JobTracker.is_running job). }
  unfold JobListSpec.refresh_one, JobTracker.is_running.
  destruct (status_running_dec job) as [Hrun|Hrun].
  - rewrite Hrun.
    rewrite (getStatus_running _ _ _ Hg Hrun). cbv zeta.
    unfold JobListSpec.probeText, JobListSpec.waitText.
    rewrite checkCmd_text, waitCmd_text. simpl fst. simpl snd.
    destruct (remote_exec (Job.host job) _ (world s)) as [[e|r1] w1]; [by simpl|].
    unfold JobTracker.process_gone.
    destruct (_ || _); [|simpl; by rewrite update_same].
    destruct (remote_exec (Job.host job) _ w1) as [[e|r2] w2]; [by simpl|].
    simpl. do 4 (split; [done|]).
    unfold JobTracker.recovered_exit_code, JS.or_zero.
    by destruct (JS.parseInt _).
  - assert (match Job.status job with running => true | _ => false end = false) as ->
      by (by destruct (Job.status job)).
    assert (JobListSpec.refresh_one job (world s) =
            JobListSpec.mkRefresh (inr job) (world s) []) as Hr
      by (unfold JobListSpec.refresh_one; by destruct (Job.status job)).
    unfold JobListSpec.refresh_one in Hr. rewrite Hr. simpl.
    by rewrite app_nil_r, update_same.
Qed.

(** The whole loop. *)
Lemma refresh_loop_exact (sel : list (string * Job.t)) : forall s,
  NoDup sel.*1 ->
  Forall (fun e => JobTracker.get e.1 (jobs s) = Some e.2 /\ Job.id e.2 = e.1) sel ->
  let round := JobListSpec.refresh_all sel.*2 (world s) in
  let out := for_each sel.*1 JobTracker.refresh s in
  let n := length (JobListSpec.refreshed round) in
  world out.2 = JobListSpec.world_end round /\
  issued out.2 = issued s ++ JobListSpec.sent_all round /\
  metadata out.2 = metadata s /\
  out.1 = match JobListSpec.failure round with Some e => inl e | None => inr tt end /\
  (jobs out.2).*1 = (jobs s).*1 /\
  (forall k, k ∉ (take n sel).*1 ->
     JobTracker.get k (jobs out.2) = JobTracker.get k (jobs s)) /\
  Forall2 (fun e job' => JobTracker.get e.1 (jobs out.2) = Some job')
    (take n sel) (JobListSpec.refreshed round) /\
  (JobListSpec.failure round = None -> n = length sel).
Proof.
  induction sel as [|[k j] sel IH]; intros s Hnd Hsel; cbv zeta.
  - simpl. rewrite app_nil_r. do 6 (split; [done|]). split; [constructor|done].
  - apply Forall_cons in Hsel as [[Hg Hid] Hsel]. simpl in Hg, Hid.
    rewrite fmap_cons in Hnd. apply NoDup_cons in Hnd as [Hk Hnd].
    simpl in Hk. rewrite !fmap_cons, for_each_cons. simpl fst. simpl snd.
    destruct (refresh_exact k j s Hg Hid) as (Hw & Hi & Hm & Hout).
    simpl JobListSpec.refresh_all.
    destruct (JobTracker.refresh k s) as [r1 s1] eqn:Hr1. simpl in Hw, Hi, Hm, Hout.
    destruct (JobListSpec.outcome (JobListSpec.refresh_one j (world s))) as [e|j'].
    + destruct Hout as [-> Hj]. simpl.
      do 4 (split; [done|]). split; [by rewrite Hj|]. split; [by rewrite Hj|].
      split; [constructor|done].
    + destruct Hout as [-> Hj].
      assert (Forall (fun e => JobTracker.get e.1 (jobs s1) = Some e.2 /\
                               Job.id e.2 = e.1) sel) as Hsel1.
      { apply Forall_forall. intros [k' j0] Hin.
        rewrite Forall_forall in Hsel. destruct (Hsel _ Hin) as [Hg' Hid'].
        split; [|done]. simpl. rewrite Hj, get_update_ne; [done|].
        intros ->. apply Hk. apply list_elem_of_fmap. by exists (k, j0). }
      specialize (IH s1 Hnd Hsel1). cbv zeta in IH. rewrite Hw in IH.
      destruct IH as (IHw & IHi & IHm & IHr & IHk & IHo & IHf & IHn).
      simpl.
      split; [done|]. split; [by rewrite IHi, Hi, app_assoc|].
      split; [congruence|]. split; [done|].
      split; [by rewrite IHk, Hj, update_keys|]. split; [|split].
      * intros k' Hk'. csimpl in Hk'.
        apply not_elem_of_cons in Hk' as [Hne Hk'].
        rewrite IHo by done. rewrite Hj. by apply get_update_ne.
      * constructor; [|done]. simpl.
        rewrite IHo.
        { by rewrite Hj, get_update_eq, Hg. }
        intros Hin. apply Hk.
        eapply elem_of_sublist; [exact Hin|]. apply fmap_sublist, sublist_take.
      * intros Hnone. by rewrite (IHn Hnone).
Qed.

(** C8, as amended.  [list] run on a well-formed job table without another
    call in between.  It selects the jobs of the given host (all jobs when
    no host is given) and visits them in the order of the table.  A
    selected job that is running is refreshed: the liveness probe
    [ps -p <pid> -o pid= 2>/dev/null || echo "done"] is sent to its host;
    when it prints [done] or nothing, [wait <pid> 2>/dev/null; echo $?] is
    sent and the job becomes completed when that prints 0 or no number,
    failed otherwise, with the exit code and the end time set; when the
    probe prints anything else the job stays as it is.  Selected jobs that
    are not running are not probed, and jobs left out by the host filter
    are neither probed nor changed, also when they are running.  When a
    command fails, [list] fails with that error, the jobs visited before
    staying refreshed.  Otherwise [list] returns the selected job records
    as refreshed, sorted by start time, most recent first. *)
Theorem list_refreshes_and_sorts (hostName : option string) (s : Server) :
  JobTracker.wf_jobs (jobs s) ->
  let selected := (filter (fun e => selects hostName (Job.host e.2) = true) (jobs s)).*2 in
  let round := JobListSpec.refresh_all selected (world s) in
  let visited := length (JobListSpec.refreshed round) in
  let out := JobTracker.list hostName s in
  world out.2 = JobListSpec.world_end round /\
  issued out.2 = issued s ++ JobListSpec.sent_all round /\
  metadata out.2 = metadata s /\
  (jobs out.2).*1 = (jobs s).*1 /\
  (forall k job,
     JobTracker.get k (jobs s) = Some job ->
     selects hostName (Job.host job) = false ->
     JobTracker.get k (jobs out.2) = Some job) /\
  Forall2 (fun job job' => JobTracker.get (Job.id job) (jobs out.2) = Some job')
    (take visited selected) (JobListSpec.refreshed round) /\
  Forall (fun job => JobTracker.get (Job.id job) (jobs out.2) = Some job)
    (drop visited selected) /\
  match JobListSpec.failure round with
  | Some e => out.1 = inl e
  | None =>
      exists js,
        out.1 = inr js /\ js ≡ₚ JobListSpec.refreshed round /\
        StronglySorted (fun a b => Job.startTime b <= Job.startTime a) js
  end.
Proof.
  intros Hwf. cbv zeta.
  set (sel := filter (fun e => selects hostName (Job.host e.2) = true) (jobs s)).
  assert (NoDup sel.*1) as Hnd.
  { eapply sublist_NoDup; [apply Hwf|]. apply fmap_sublist, sublist_filter. }
  assert (Forall (fun e => JobTracker.get e.1 (jobs s) = Some e.2 /\
                           Job.id e.2 = e.1) sel) as Hsel.
  { apply Forall_forall. intros [k j] Hin. simpl.
    assert (JobTracker.get k (jobs s) = Some j) as Hg.
    { apply get_elem_of; [apply Hwf|].
      by apply list_elem_of_filter in Hin as [_ Hin]. }
    split; [done|]. by eapply wf_get_id. }
  destruct (refresh_loop_exact sel s Hnd Hsel) as (Hw & Hi & Hm & Hr & Hk & Ho & Hf & Hn).
  rewrite list_unfold. cbv zeta. fold sel.
  set (round := JobListSpec.refresh_all sel.*2 (world s)) in *.
  set (n := length (JobListSpec.refreshed round)) in *.
  destruct (for_each sel.*1 JobTracker.refresh s) as [r s1] eqn:Hloop.
  simpl in Hw, Hi, Hm, Hr, Hk, Ho, Hf.
  assert (forall k job,
            JobTracker.get k (jobs s) = Some job ->
            selects hostName (Job.host job) = false ->
            JobTracker.get k (jobs s1) = Some job) as Hleft.
  { intros k job Hg Hno. rewrite Ho; [done|].
    intros ([k0 j] & -> & Hin)%list_elem_of_fmap.
    eapply elem_of_sublist in Hin; [|apply sublist_take].
    rewrite Forall_forall in Hsel. destruct (Hsel _ Hin) as [Hg0 _]. simpl in *.
    apply list_elem_of_filter in Hin as [Hyes _]. simpl in Hyes. congruence. }
  assert (Forall2 (fun job job' => JobTracker.get (Job.id job) (jobs s1) = Some job')
            (take n sel.*2) (JobListSpec.refreshed round)) as Hvisited.
  { rewrite <- fmap_take. apply Forall2_fmap_l.
    eapply Forall2_strengthen; [|exact Hf|].
    - apply Forall_take. exact Hsel.
    - intros [k j] job' [_ Hid] Hg. simpl in *. by rewrite Hid. }
  assert (Forall (fun job => JobTracker.get (Job.id job) (jobs s1) = Some job)
            (drop n sel.*2)) as Hrest.
  { rewrite <- fmap_drop. apply Forall_fmap, Forall_forall. intros [k j] Hin. simpl.
    rewrite Forall_forall in Hsel.
    destruct (Hsel (k, j)) as [Hg Hid]; [by eapply elem_of_sublist, sublist_drop|].
    simpl in Hg, Hid. rewrite Hid, Ho; [done|].
    intros ([k0 j0] & Hk0 & Hin0)%list_elem_of_fmap. simpl in Hk0. subst k0.
    assert (NoDup (take n sel ++ drop n sel).*1) as Hnd' by (by rewrite take_drop).
    rewrite fmap_app in Hnd'. apply NoDup_app in Hnd' as (_ & Hdisj & _).
    apply (Hdisj k).
    + apply list_elem_of_fmap. by exists (k, j0).
    + apply list_elem_of_fmap. by exists (k, j). }
  destruct r as [e|[]]; simpl.
  - do 7 (split; [done|]).
    destruct (JobListSpec.failure round); [congruence|done].
  - do 7 (split; [done|]).
    destruct (JobListSpec.failure round) as [e|] eqn:Hfail; [done|].
    eexists. split; [reflexivity|]. split; [|apply (sort_sorted Job.startTime)].
    rewrite sort_perm.
    specialize (Hn eq_refl).
    assert (take n sel = sel) as Hall by (apply take_ge; lia).
    rewrite Hall in Hf.
    rewrite (omap_get_all (jobs s1) sel.*1 ((fun j => (j, [])) <$> JobListSpec.refreshed round)).
    + rewrite <- list_fmap_compose. by rewrite list_fmap_id.
    + apply Forall2_fmap_l, Forall2_fmap_r. exact Hf.
Qed.

End JobTrackerFacts.

Lemma job_state_machine_witness :
  exists job' s',
    JobTracker.getStatus "job_a"
      (Examples.server 5000 [Examples.answer "done"; Examples.answer "2"] []) =
      (inr job', s') /\
    Job.status job' = failed /\ Job.exitCode job' = Some 2 /\
    Job.endTime job' = Some 5002.
Proof.
  destruct (@job_state_machine Examples.scripted
              (Examples.server 5000 [Examples.answer "done"; Examples.answer "2"] []))
    as [Hfin _].
  destruct (Hfin "job_a" Examples.build_job
              (mkExecResult ("done" +:+ String (ascii_of_nat 10) EmptyString) "" 0 5)
              (5001, [Examples.answer "2"])
              (mkExecResult ("2" +:+ String (ascii_of_nat 10) EmptyString) "" 0 5)
              (5002, [])
              eq_refl eq_refl eq_refl (or_introl eq_refl) eq_refl)
    as (job' & s' & Hget & _ & Hst & Hcode & Hend & _).
  { vm_compute. discriminate. }
  exists job', s'. split; [exact Hget|]. split; [exact Hst|]. split; [exact Hcode|].
  exact Hend.
Defined.

(** C4: no operation changes the status, exit code or end time of a job
    once it is completed or failed.  The code misses that.  Two
    [getStatus] calls for the running job [job_a] are made one after the
    other before any answer arrives; both find the job running.  The
    first goes on twice (the probe answers [done], the wait command 127,
    the pid not being a child of the new shell) and leaves the job failed
    with exit code 127, ended at 5002.  Only then do the answers of the
    second call arrive, the same ones: it goes on without testing the
    status and sets the end time of the finished job to 5004. *)
Example overlapping_getStatus_finalizes_twice :
  let s := Examples.server 5000
             [Examples.answer "done"; Examples.answer "127";
              Examples.answer "done"; Examples.answer "127"] [] in
  let ask := JobTracker.Call (JobTracker.ReqGetStatus "job_a") in
  let sys1 :=
    JobTracker.schedule (JobTracker.mkSystem s [] [])
      [ask; ask; JobTracker.Resume 0; JobTracker.Resume 0] in
  let sys2 := JobTracker.schedule sys1 [JobTracker.Resume 0; JobTracker.Resume 0] in
  let outcome (sys : JobTracker.System) :=
    (fun job => (Job.status job, Job.exitCode job, Job.endTime job))
      <$> JobTracker.get "job_a" (jobs (JobTracker.state sys)) in
  outcome sys1 = Some (failed, Some 127, Some 5002) /\
  length (JobTracker.calls sys1) = 1%nat /\
  outcome sys2 = Some (failed, Some 127, Some 5004) /\
  JobTracker.calls sys2 = [].
Proof. vm_compute. repeat split; reflexivity. Qed.

(** A [getStatus] call and then a [kill] call are made for [job_a] before
    any answer arrives.  The signal is delivered: [kill] returns [true]
    and the job is failed with exit code -9, ended at 5001.  Then the
    answers of [getStatus] arrive (the process is gone, the wait command
    prints 127): the exit code of the killed job becomes 127 and its end
    time 5003. *)
Example getStatus_overwrites_killed_job :
  let s := Examples.server 5000
             [Examples.answer "killed"; Examples.answer "done";
              Examples.answer "127"] [] in
  let sys1 :=
    JobTracker.schedule (JobTracker.mkSystem s [] [])
      [JobTracker.Call (JobTracker.ReqGetStatus "job_a");
       JobTracker.Call (JobTracker.ReqKill "job_a"); JobTracker.Resume 1] in
  let sys2 := JobTracker.schedule sys1 [JobTracker.Resume 0; JobTracker.Resume 0] in
  let outcome (sys : JobTracker.System) :=
    (fun job => (Job.status job, Job.exitCode job, Job.endTime job))
      <$> JobTracker.get "job_a" (jobs (JobTracker.state sys)) in
  JobTracker.replies sys1 = [inr (JobTracker.VBool true)] /\
  outcome sys1 = Some (failed, Some (-9), Some 5001) /\
  outcome sys2 = Some (failed, Some 127, Some 5003).
Proof. vm_compute. repeat split; reflexivity. Qed.

Lemma kill_contract_witness :
  let s := Examples.server 5000 [Examples.answer "killed"] [] in
  (JobTracker.kill "job_a" s).1 = inr true /\
  exists job',
    JobTracker.get "job_a" (jobs (JobTracker.kill "job_a" s).2) = Some job' /\
    Job.status job' = failed /\ Job.exitCode job' = Some (-9) /\
    Job.endTime job' = Some 5001.
Proof.
  cbv zeta.
  destruct (@kill_contract Examples.scripted "job_a"
              (Examples.server 5000 [Examples.answer "killed"] []))
    as (_ & Hknown & _).
  destruct (Hknown Examples.build_job eq_refl) as [_ Hrun].
  destruct (Hrun eq_refl) as (_ & _ & _ & _ & Hres & job' & Hg & Hst & Hcode & Hend & _).
  split; [exact Hres|]. exists job'. split; [exact Hg|]. split; [exact Hst|].
  split; [exact Hcode|]. exact Hend.
Defined.

Lemma list_refreshes_and_sorts_witness :
  let out := @JobTracker.list Examples.steady (Some "web") Examples.steady_server in
  exists js,
    out.1 = inr js /\
    js ≡ₚ [JobListSpec.closed Examples.build_job 0 5002;
           JobListSpec.closed Examples.test_job 0 5004] /\
    StronglySorted (fun a b => Job.startTime b <= Job.startTime a) js /\
    world out.2 = 5004.
Proof.
  cbv zeta.
  assert (@JobTracker.wf_jobs (jobs Examples.steady_server)) as Hwf.
  { split; [|repeat constructor].
    apply (bool_decide_unpack _). vm_compute. reflexivity. }
  destruct (@list_refreshes_and_sorts Examples.steady (Some "web")
              Examples.steady_server Hwf) as (Hw & _ & _ & _ & _ & _ & _ & Hres).
  destruct Hres as (js & Hjs & Hperm & Hsorted).
  exists js. split; [exact Hjs|]. split; [exact Hperm|]. split; [exact Hsorted|].
  exact Hw.
Defined.

(** C8, as stated, fails: on a remote side where every process is gone,
    [list] for host [db] returns the one job of that host and sends
    nothing; the running job [job_a] of host [web] is not refreshed and
    stays running, although a [getStatus] right after finds its process
    gone and completes it. *)
Lemma list_leaves_other_hosts_unrefreshed :
  let out := @JobTracker.list Examples.steady (Some "db") Examples.steady_server in
  out.1 = inr [Examples.backup_job] /\
  issued out.2 = [] /\
  JobTracker.get "job_a" (jobs out.2) = Some Examples.build_job /\
  Job.status Examples.build_job = running /\
  Job.status <$> JobTracker.get "job_a"
                   (jobs (JobTracker.getStatus "job_a" out.2).2) = Some completed.
Proof. vm_compute. repeat split; reflexivity. Qed.

(** ** Snapshot store *)

Section SnapshotManagerFacts.
Context `{Remote}.
Variable retention : SnapshotRetention.

Local Abbreviation cleanup := (SnapshotManager.cleanup retention).
Local Abbreviation cleanup_loop := (SnapshotManager.cleanup_loop retention).
Local Abbreviation doomed := (SnapshotManager.doomed retention).
Local Abbreviation expired := (SnapshotManager.expired retention).
Local Abbreviation of_host := SnapshotManager.of_host.
Local Abbreviation rm_command := SnapshotManager.rm_command.
Local Abbreviation listed := SnapshotManager.listed.
Local Abbreviation matching := SnapshotManager.matching.

(** *** What [list] returns *)

Lemma parse_lines_addr lines : forall i o,
  o ∈ SnapshotManager.parse_lines i lines -> (i <= addr o)%nat.
Proof.
  induction lines as [|[snap|] lines IH]; intros i o Hin; simpl in Hin.
  - by apply elem_of_nil in Hin.
  - apply elem_of_cons in Hin as [->|Hin]; [simpl; lia|].
    apply IH in Hin. lia.
  - apply IH in Hin. lia.
Qed.

Lemma parse_lines_NoDup lines : forall i,
  NoDup (addr <$> SnapshotManager.parse_lines i lines).
Proof.
  induction lines as [|[snap|] lines IH]; intros i; simpl; [constructor| |apply IH].
  csimpl. apply NoDup_cons. split; [|apply IH].
  intros (o & Ho & Hin)%list_elem_of_fmap. apply parse_lines_addr in Hin.
  simpl in Ho. lia.
Qed.

Lemma parse_lines_elem lines : forall i o,
  o ∈ SnapshotManager.parse_lines i lines -> Some (val o) ∈ lines.
Proof.
  induction lines as [|[snap|] lines IH]; intros i o Hin; simpl in Hin.
  - by apply elem_of_nil in Hin.
  - apply elem_of_cons in Hin as [->|Hin]; [by left|]. right. eauto.
  - right. eauto.
Qed.

Lemma slice0_sublist {B} limit (l : list B) : JS.slice0 limit l `sublist_of` l.
Proof. apply sublist_take. Qed.

Lemma slice0_all {B} limit (l : list B) :
  (Z.of_nat (length l) <= limit) -> JS.slice0 limit l = l.
Proof.
  intros Hle. unfold JS.slice0.
  destruct (Z.ltb_spec limit 0); [lia|]. apply take_ge. lia.
Qed.

Lemma slice0_length {B} limit (l : list B) :
  0 <= limit -> (Z.of_nat (length (JS.slice0 limit l)) <= limit).
Proof.
  intros Hle. unfold JS.slice0.
  destruct (Z.ltb_spec limit 0); [lia|]. rewrite length_take. lia.
Qed.

Lemma StronglySorted_sublist {B} (R : B -> B -> Prop) l1 l2 :
  l1 `sublist_of` l2 -> StronglySorted R l2 -> StronglySorted R l1.
Proof.
  induction 1 as [|x l1 l2 Hsub IH|x l1 l2 Hsub IH]; intros Hs; [done| |].
  - apply StronglySorted_inv in Hs as [Hs Hx].
    constructor; [by apply IH|].
    rewrite Forall_forall in Hx |- *. eauto using elem_of_sublist.
  - apply StronglySorted_inv in Hs as [Hs _]. by apply IH.
Qed.

Lemma listed_eq hostName limit lines :
  listed hostName limit lines =
  JS.slice0 limit (JS.sort SnapshotManager.byTsDesc (matching hostName lines)).
Proof. reflexivity. Qed.

Lemma listed_NoDup hostName limit lines :
  NoDup (addr <$> listed hostName limit lines).
Proof.
  rewrite listed_eq.
  eapply sublist_NoDup; [|apply fmap_sublist, slice0_sublist].
  rewrite sort_perm. unfold matching.
  eapply sublist_NoDup; [apply (parse_lines_NoDup lines 0)|].
  apply fmap_sublist, sublist_filter.
Qed.

Lemma listed_sorted hostName limit lines :
  StronglySorted (fun a b => Snapshot.ts (val b) <= Snapshot.ts (val a))
    (listed hostName limit lines).
Proof.
  rewrite listed_eq. eapply StronglySorted_sublist; [apply slice0_sublist|].
  apply (sort_sorted (fun o => Snapshot.ts (val o))).
Qed.

Lemma listed_elem hostName limit lines o :
  o ∈ listed hostName limit lines -> Some (val o) ∈ lines.
Proof.
  rewrite listed_eq. intros Hin.
  eapply elem_of_sublist in Hin; [|apply slice0_sublist].
  rewrite sort_perm in Hin. unfold matching in Hin.
  apply list_elem_of_filter in Hin as [_ Hin]. by eapply parse_lines_elem.
Qed.

Lemma listed_all hostName limit lines :
  Z.of_nat (length (matching hostName lines)) <= limit ->
  listed hostName limit lines ≡ₚ matching hostName lines.
Proof.
  intros Hle. rewrite listed_eq, slice0_all; [apply sort_perm|].
  by rewrite sort_length.
Qed.

(** *** The two loops of [cleanup] *)

Lemma group_from (snaps : list Obj) : forall (m : gmap string (list Obj)) h,
  default [] (foldl
                (fun byHost s =>
                   let l := default [] (byHost !! Snapshot.host (val s)) in
                   <[Snapshot.host (val s) := l ++ [s]]> byHost) m snaps !! h) =
  default [] (m !! h) ++ filter (of_host h) snaps.
Proof.
  induction snaps as [|x snaps IH]; intros m h; simpl.
  - by rewrite app_nil_r.
  - rewrite IH. rewrite lookup_insert. unfold SnapshotManager.of_host at 2.
    rewrite filter_cons. case_decide as Hh.
    + rewrite decide_True by done. subst h. simpl. by rewrite <- app_assoc.
    + by rewrite decide_False by done.
Qed.

Lemma group_host snaps h :
  default [] (SnapshotManager.group snaps !! h) = filter (of_host h) snaps.
Proof. unfold SnapshotManager.group. by rewrite group_from, lookup_empty. Qed.

Lemma indexOf_from_absent l : forall i x,
  addr x ∉ addr <$> l -> SnapshotManager.indexOf_from i l x = -1.
Proof.
  induction l as [|y l IH]; intros i x Hx; [done|]. simpl.
  rewrite fmap_cons in Hx. apply not_elem_of_cons in Hx as [Hne Hx].
  destruct (Nat.eqb_spec (addr y) (addr x)); [congruence|]. by apply IH.
Qed.





Lemma removeSnapshot_spec (o : Obj) s :
  exists s',
    SnapshotManager.removeSnapshot (val o) s = (inr tt, s') /\
    issued s' = issued s ++ option_list (rm_command o) /\
    metadata s' = metadata s /\ jobs s' = jobs s.
Proof.
  unfold SnapshotManager.removeSnapshot, SnapshotManager.rm_command.
  destruct (JS.truthy (Snapshot.backup (val o))).
  - unfold try_, bind, exec, ret.
    destruct (remote_exec _ _ (world s)) as [[e|r] w]; by eexists.
  - exists s. by rewrite app_nil_r.
Qed.

Lemma cleanup_loop_spec cutoffDate byHost snaps : forall removed s,
  exists s',
    cleanup_loop cutoffDate byHost snaps removed s =
      (inr (removed +
            Z.of_nat (length (filter (fun o => doomed cutoffDate byHost o = true) snaps))),
       s') /\
    issued s' =
      issued s ++ omap rm_command (filter (fun o => doomed cutoffDate byHost o = true) snaps) /\
    metadata s' = metadata s /\ jobs s' = jobs s.
Proof.
  induction snaps as [|o snaps IH]; intros removed s.
  - exists s. simpl. rewrite Z.add_0_r, app_nil_r. done.
  - simpl. rewrite filter_cons.
    destruct (_ <? keepMinCount retention) eqn:Hi.
    { rewrite decide_False
        by (unfold SnapshotManager.doomed; by rewrite Hi).
      apply IH. }
    destruct (Snapshot.ts (val o) <? cutoffDate) eqn:Ht.
    + rewrite decide_True
        by (unfold SnapshotManager.doomed; by rewrite Hi, Ht).
      destruct (removeSnapshot_spec o s) as (s1 & Hrm & Hiss & Hmeta & Hjobs).
      unfold bind. rewrite Hrm.
      destruct (IH (removed + 1) s1) as (s' & Hloop & Hiss' & Hmeta' & Hjobs').
      exists s'. rewrite Hloop. split; [f_equal; f_equal; simpl; lia|].
      split; [|split; congruence].
      rewrite Hiss', Hiss. csimpl. destruct (rm_command o); simpl;
        by rewrite <- ?app_assoc, ?app_nil_r.
    + rewrite decide_False
        by (unfold SnapshotManager.doomed; by rewrite Hi, Ht).
      apply IH.
Qed.

(** What one call of [cleanup] does. *)
Lemma cleanup_spec hostName s :
  let R := SnapshotManager.removed_by_cleanup retention hostName
             (date_now (world s)) (metadata s) in
  exists s',
    cleanup hostName s = (inr (Z.of_nat (length R)), s') /\
    issued s' = issued s ++ omap rm_command R /\
    metadata s' = metadata s /\ jobs s' = jobs s.
Proof.
  cbv zeta. unfold SnapshotManager.cleanup, SnapshotManager.removed_by_cleanup,
    SnapshotManager.list, now, bind, gets, ret. simpl.
  destruct (cleanup_loop_spec (SnapshotManager.cutoff retention (date_now (world s)))
              (SnapshotManager.group (listed hostName 10000 (metadata s)))
              (listed hostName 10000 (metadata s)) 0 s) as (s' & Hloop & Hrest).
  exists s'. by rewrite Hloop.
Qed.

Lemma removed_sublist hostName t lines :
  SnapshotManager.removed_by_cleanup retention hostName t lines
    `sublist_of` listed hostName 10000 lines.
Proof. apply sublist_filter. Qed.




(** C3 fails on the code: [cleanup] does not touch the metadata file, and
    [list] keeps no record of what was removed, so every record [cleanup]
    removed is returned again by the [list] that follows. *)
Theorem removed_snapshots_still_listed (hostName : option string) (s : Server) :
  exists n s',
    cleanup hostName s = (inr n, s') /\
    metadata s' = metadata s /\
    (forall h limit,
       SnapshotManager.list h limit s' = (inr (listed h limit (metadata s)), s')) /\
    (forall o,
       o ∈ SnapshotManager.removed_by_cleanup retention hostName
             (date_now (world s)) (metadata s) ->
       exists l, SnapshotManager.list hostName 10000 s' = (inr l, s') /\ o ∈ l).
Proof.
  destruct (cleanup_spec hostName s) as (s' & Hc & _ & Hmeta & _).
  eexists _, s'. split; [exact Hc|]. split; [exact Hmeta|].
  assert (forall h limit,
            SnapshotManager.list h limit s' = (inr (listed h limit (metadata s)), s'))
    as Hlist.
  { intros h limit. unfold SnapshotManager.list, bind, gets, ret. by rewrite Hmeta. }
  split; [exact Hlist|].
  intros o Ho. eexists. split; [apply Hlist|].
  eapply elem_of_sublist; [exact Ho|apply removed_sublist].
Qed.







(** *** Restore *)

Variable dirname : string -> string.
Local Abbreviation restore := (SnapshotManager.restore dirname).

Lemma restore_unfold snapshotId s :
  restore snapshotId s =
  match JS.find (fun o => String.eqb (Snapshot.id (val o)) snapshotId)
          (listed None 1000 (metadata s)) with
  | None => (inl (SnapshotManager.SnapshotNotFound snapshotId), s)
  | Some o =>
      match Snapshot.type (val o) with
      | git => SnapshotManager.restoreGit (val o) s
      | tar => SnapshotManager.restoreTar dirname (val o) s
      | sftp => SnapshotManager.restoreFile (val o) s
      end
  end.
Proof.
  unfold SnapshotManager.restore, SnapshotManager.list, bind, gets, ret. simpl.
  destruct (JS.find _ _) as [o|]; [|done]. by destruct (Snapshot.type (val o)).
Qed.


(** The commands of [restore], character by character. *)








End SnapshotManagerFacts.




(** The failing input of C3: one expired archive record.  [cleanup] counts
    it and deletes its artifact; the [list] that follows still returns it. *)
Example cleanup_then_list :
  let s := Examples.server 1000000000 [] [Some Examples.old_tar] in
  exists s',
    @SnapshotManager.cleanup Examples.scripted Examples.one_day_only None s = (inr 1, s') /\
    issued s' = [("web", SnapshotManager.rmCmd "/var/log/mcp/snapshots/0/app.tar.gz")] /\
    @SnapshotManager.list Examples.scripted None 20 s' =
      (inr [mkObj 0 Examples.old_tar], s').
Proof.
  cbv zeta.
  exists (@SnapshotManager.cleanup Examples.scripted Examples.one_day_only None
            (Examples.server 1000000000 [] [Some Examples.old_tar])).2.
  vm_compute. repeat split.
Qed.


(** A record that comes of age between the calls but is the newest of its
    host is counted by neither call: both return 1. *)
Example cleanup_protected_record_not_counted :
  let s := Examples.server 1000000000 []
             [Some Examples.old_tar; Some (Examples.tar_at 913600000)] in
  (@SnapshotManager.cleanup Examples.scripted Examples.one_day None s).1 = inr 1 /\
  (@SnapshotManager.cleanup Examples.scripted Examples.one_day None
     (@SnapshotManager.cleanup Examples.scripted Examples.one_day None s).2).1 = inr 1.
Proof. vm_compute. split; reflexivity. Qed.


(** * Further properties of the code *)

(** ** Hang watchdog: [start], [stop], [checkHang] *)

Section HangDetectorMore.
Import HangDetector.

Lemma step_timeoutMs d e : timeoutMs (step d e).1 = timeoutMs d.
Proof.
  destruct e as [now|now|now|]; simpl; try done.
  destruct (timer d) as [due|]; [|done].
  destruct (due <=? now); [|done]. apply checkHang_fields.
Qed.

Lemma run_fst_cons d e es : (run d (e :: es)).1 = (run (step d e).1 es).1.
Proof. by rewrite run_cons. Qed.

Lemma run_app d es1 es2 :
  (run d (es1 ++ es2)).1 = (run (run d es1).1 es2).1.
Proof.
  revert d. induction es1 as [|e es1 IH]; intros d; [done|].
  rewrite <- app_comm_cons, !run_fst_cons. apply IH.
Qed.

Lemma checkHang_alert d now m :
  m ∈ (checkHang d now).2 ->
  m = alert_message (now - lastActivity d) /\
  timeoutMs d <= now - lastActivity d /\
  alertSent d = false /\ callback d = true.
Proof.
  unfold checkHang.
  destruct (Z.leb_spec (timeoutMs d) (now - lastActivity d));
    destruct (alertSent d), (callback d); simpl;
    intros Hin; try (by apply elem_of_nil in Hin).
  by apply list_elem_of_singleton in Hin.
Qed.

(** X1.  No false alarm.  Whatever happens to a detector, a message it
    delivers was delivered by a timer check at which the output had been
    idle for at least the configured timeout, no alert had been sent since
    the last activity, and a callback was registered; the message carries
    that idle time. *)
Theorem watchdog_no_false_alarm (d : HangDetector.t) (es : list event) (m : string) :
  m ∈ alerts d es ->
  exists es1 now es2,
    es = es1 ++ Fire now :: es2 /\
    let d1 := (run d es1).1 in
    m = alert_message (now - lastActivity d1) /\
    timeoutMs d <= now - lastActivity d1 /\
    alertSent d1 = false /\ callback d1 = true.
Proof.
  revert d. induction es as [|e es IH]; intros d Hin.
  - by apply elem_of_nil in Hin.
  - rewrite alerts_cons in Hin. apply elem_of_app in Hin as [Hin|Hin].
    + destruct e as [now|now|now|]; simpl in Hin;
        try (by apply elem_of_nil in Hin).
      destruct (timer d) as [due|]; [|by apply elem_of_nil in Hin].
      destruct (due <=? now); [|by apply elem_of_nil in Hin].
      exists [], now, es. split; [done|]. simpl. by apply checkHang_alert.
    + destruct (IH _ Hin) as (es1 & now & es2 & -> & Hm & HT & Ha & Hc).
      exists (e :: es1), now, es2. split; [done|]. cbv zeta.
      rewrite run_fst_cons. rewrite step_timeoutMs in HT. done.
Qed.

Lemma watchdog_no_false_alarm_witness :
  exists es1 now es2,
    [Start 0; Fire 10000; Fire 20000] = es1 ++ Fire now :: es2 /\
    10000 <= now - lastActivity (run (create 10000 0) es1).1.
Proof.
  destruct (watchdog_no_false_alarm (create 10000 0) [Start 0; Fire 10000; Fire 20000]
              "No output for 10s - command may be hung or waiting for input")
    as (es1 & now & es2 & Hes & _ & HT & _).
  - vm_compute. by left.
  - exists es1, now, es2. split; [exact Hes|exact HT].
Defined.

Lemma unarmed_is_silent es : forall d,
  callback d = false -> Forall (fun e => is_start e = false) es -> alerts d es = [].
Proof.
  induction es as [|e es IH]; intros d Hc Hes; [done|].
  apply Forall_cons in Hes as [He Hes]. rewrite alerts_cons.
  destruct e as [now|now|now|]; try discriminate; simpl.
  - by apply IH.
  - destruct (timer d) as [due|]; [|by apply IH].
    destruct (due <=? now); [|by apply IH].
    destruct (checkHang_fields d now) as (_ & _ & Hcb & _).
    unfold checkHang in *. rewrite Hc, andb_false_r in *. simpl in *.
    by apply IH.
  - by apply IH.
Qed.

(** X2.  A detector that was stopped, or never started, delivers nothing:
    whatever activity signals, timer runs and further stops follow, no
    message is delivered until [start] is called again. *)
Theorem watchdog_silent_unless_started (es : list event) :
  Forall (fun e => is_start e = false) es ->
  (forall d, alerts (stop d) es = []) /\
  (forall hangTimeoutMs now, alerts (create hangTimeoutMs now) es = []) /\
  (forall d, timer (stop d) = None).
Proof.
  intros Hes. split; [|split]; [| |done].
  - intros d. by apply unarmed_is_silent.
  - intros T now. by apply unarmed_is_silent.
Qed.

Lemma watchdog_silent_unless_started_witness :
  alerts (stop (start (create 10000 0) 0)) [Fire 10000; Activity 15000; Fire 40000] = [].
Proof.
  apply (watchdog_silent_unless_started [Fire 10000; Activity 15000; Fire 40000]).
  repeat constructor.
Defined.

End HangDetectorMore.

(** ** Connection pool: [getConnection], [connect], [close], [closeAll], [exec] *)

Section ConnectionManagerMore.
Import ConnectionManager.

Lemma connect_outcome hostName o (m : ConnectionManager.t) :
  connections m !! hostName = None ->
  match connect hostName o m with
  | (inr c, m') =>
      exists entry, connections m' !! hostName = Some entry /\
                    client entry = c /\ ready entry = true
  | (inl _, m') => connections m' !! hostName = None
  end /\
  (forall other, other <> hostName ->
     connections (connect hostName o m).2 !! other = connections m !! other) /\
  ended m ⊆ ended (connect hostName o m).2.
Proof.
  intros Hnone. destruct o as [|keyPath|c t|c msg|c]; simpl.
  - by repeat split.
  - by repeat split.
  - split; [|split; [|done]].
    + eexists. rewrite lookup_insert_eq. by repeat split.
    + intros other Hne. by rewrite lookup_insert_ne.
  - split; [|split; [|done]].
    + by rewrite lookup_delete_eq.
    + intros other Hne. by rewrite lookup_delete_ne.
  - split; [done|]. split; [done|]. set_solver.
Qed.

(** X3.  Acquiring a session.  When [getConnection] returns a client, the
    pool holds a ready entry for the host with that client, and
    [isConnected] answers yes; a ready entry already in the pool is reused
    whatever a connection attempt would have given.  When it fails, the
    pool holds no entry for the host.  In both cases the entries of all
    other hosts are as before, and no client that was told to end is
    forgotten. *)
Theorem getConnection_outcome (hostName : string) (now : Z) (o : ConnectOutcome)
    (m : ConnectionManager.t) :
  match getConnection hostName now o m with
  | (inr c, m') =>
      (exists entry, connections m' !! hostName = Some entry /\
                     client entry = c /\ ready entry = true) /\
      isConnected hostName m' = true
  | (inl _, m') =>
      connections m' !! hostName = None /\ isConnected hostName m' = false
  end /\
  (forall entry, connections m !! hostName = Some entry -> ready entry = true ->
     (getConnection hostName now o m).1 = inr (client entry) /\
     connections (getConnection hostName now o m).2 !! hostName =
       Some {| client := client entry; lastUsed := now;
               connecting := connecting entry; ready := true |}) /\
  (forall other, other <> hostName ->
     connections (getConnection hostName now o m).2 !! other = connections m !! other) /\
  ended m ⊆ ended (getConnection hostName now o m).2.
Proof.
  assert (forall m0 : ConnectionManager.t,
            connections m0 !! hostName = None ->
            match connect hostName o m0 with
            | (inr c, m') =>
                (exists entry, connections m' !! hostName = Some entry /\
                               client entry = c /\ ready entry = true) /\
                isConnected hostName m' = true
            | (inl _, m') =>
                connections m' !! hostName = None /\ isConnected hostName m' = false
            end) as Hconn.
  { intros m0 H0. destruct (connect_outcome hostName o m0 H0) as [Hc _].
    destruct (connect hostName o m0) as [[e|c] m']; unfold isConnected.
    - by rewrite Hc.
    - destruct Hc as (entry & He & Hcl & Hr). rewrite He. eauto. }
  unfold getConnection.
  destruct (connections m !! hostName) as [entry|] eqn:Hm.
  - destruct (ready entry) eqn:Hr.
    + simpl. unfold isConnected. simpl. rewrite lookup_insert_eq. simpl.
      split; [split; [eauto|done]|]. split.
      { by intros ? [= <-] _. }
      split; [|done]. intros other Hne. by rewrite lookup_insert_ne.
    + set (m0 := {| connections := delete hostName (connections m);
                    ended := {[client entry]} ∪ ended m |}).
      assert (connections m0 !! hostName = None) as H0
        by (simpl; apply lookup_delete_eq).
      destruct (connect_outcome hostName o m0 H0) as (_ & Hother & Hend).
      split; [apply Hconn, H0|]. split; [intros ? [= <-]; congruence|].
      split.
      * intros other Hne. rewrite Hother by done. simpl.
        by rewrite lookup_delete_ne.
      * etrans; [|exact Hend]. simpl. set_solver.
  - destruct (connect_outcome hostName o m Hm) as (_ & Hother & Hend).
    split; [by apply Hconn|]. split; [done|]. split; done.
Qed.

(** X4.  A command keeps its session alive.  After [exec] or
    [execStreaming] ran on a host with a ready session at time [now],
    every eviction sweep that comes within the idle window of [now] leaves
    the host connected. *)
Theorem exec_keeps_session_alive (hostName : string) (now : Z) (o : ConnectOutcome)
    (startTime : Z) (s : ExecStart) (m : ConnectionManager.t)
    (entry : ConnectionEntry) (t : Z) :
  connections m !! hostName = Some entry -> ready entry = true ->
  t - now <= idleTimeout ->
  isConnected hostName (idleCheck t (exec hostName now o startTime s m).2) = true /\
  isConnected hostName (idleCheck t (execStreaming hostName now o startTime s m).2) = true.
Proof.
  intros Hm Hr Ht.
  assert (connections (getConnection hostName now o m).2 !! hostName =
            Some {| client := client entry; lastUsed := now;
                    connecting := connecting entry; ready := true |} /\
          exists c, (getConnection hostName now o m).1 = inr c) as [Hg [c Hc]].
  { unfold getConnection. rewrite Hm, Hr. simpl. rewrite lookup_insert_eq. eauto. }
  assert (forall m', connections m' !! hostName =
                       Some {| client := client entry; lastUsed := now;
                               connecting := connecting entry; ready := true |} ->
                     isConnected hostName (idleCheck t m') = true) as Hkeep.
  { intros m' Hm'. unfold isConnected, idleCheck.
    destruct (sweep_fold t m' (connections m')) as [H1 _]. rewrite H1, Hm'. simpl.
    destruct (Z.ltb_spec idleTimeout (t - now)); [lia|]. done. }
  unfold exec, execStreaming.
  destruct (getConnection hostName now o m) as [[e|c'] m']; [done|].
  split; by apply Hkeep.
Qed.

Lemma exec_keeps_session_alive_witness :
  isConnected "web"
    (idleCheck 600000
       (exec "web" 400000 NoHostConfig 400000 (Stream [Close 0 400010]) Examples.pool).2) = true.
Proof.
  apply (exec_keeps_session_alive "web" 400000 NoHostConfig 400000
           (Stream [Close 0 400010]) Examples.pool Examples.web_entry 600000).
  - reflexivity.
  - reflexivity.
  - unfold idleTimeout. lia.
Defined.

Lemma closeAll_fold (m0 : ConnectionManager.t) (tbl : gmap string ConnectionEntry) :
  let r := map_fold (fun name (_ : ConnectionEntry) acc => close name acc) m0 tbl in
  (forall k, connections r !! k =
             match tbl !! k with Some _ => None | None => connections m0 !! k end) /\
  (forall k e e', tbl !! k = Some e -> connections m0 !! k = Some e' ->
                  client e' ∈ ended r) /\
  ended m0 ⊆ ended r.
Proof.
  cbv zeta.
  apply (map_fold_weak_ind (fun r tbl =>
    (forall k, connections r !! k =
               match tbl !! k with Some _ => None | None => connections m0 !! k end) /\
    (forall k e e', tbl !! k = Some e -> connections m0 !! k = Some e' ->
                    client e' ∈ ended r) /\
    ended m0 ⊆ ended r)).
  - split; [intros k; by rewrite lookup_empty|]. split; [|done].
    intros k e e'. by rewrite lookup_empty.
  - intros i x tb r Hi (IH1 & IH2 & IH3). split; [|split].
    + intros k. rewrite close_lookup, lookup_insert.
      case_decide; [done|]. apply IH1.
    + intros k e e'. rewrite lookup_insert. case_decide as Hk.
      * intros _ He'. subst k. apply close_ends. by rewrite IH1, Hi.
      * intros He He'. eauto using close_ended.
    + intros c Hc. apply close_ended. by apply IH3.
Qed.

(** X5.  Shutdown.  [closeAll] stops the eviction timer, leaves the pool
    empty, and has told the client of every session of the pool to end
    (and forgets none that was told so before); afterwards no host is
    connected and an eviction sweep finds nothing to do. *)
Theorem closeAll_empties_pool (armed : bool) (m : ConnectionManager.t) :
  (closeAll armed m).1 = false /\
  connections (closeAll armed m).2 = ∅ /\
  (forall hostName entry,
     connections m !! hostName = Some entry -> client entry ∈ ended (closeAll armed m).2) /\
  ended m ⊆ ended (closeAll armed m).2 /\
  (forall hostName, isConnected hostName (closeAll armed m).2 = false) /\
  (forall now, idleCheck now (closeAll armed m).2 = (closeAll armed m).2).
Proof.
  destruct (closeAll_fold m (connections m)) as (H1 & H2 & H3).
  assert (connections (closeAll armed m).2 = ∅) as Hempty.
  { apply map_eq. intros k. simpl. rewrite H1, lookup_empty.
    by destruct (connections m !! k). }
  split; [done|]. split; [exact Hempty|]. split; [|split; [exact H3|split]].
  - intros hostName entry He. eapply H2; eauto.
  - intros hostName. unfold isConnected. by rewrite Hempty, lookup_empty.
  - intros now. unfold idleCheck. rewrite Hempty. apply map_fold_empty.
Qed.

Lemma closeAll_empties_pool_witness :
  connections (closeAll true Examples.pool).2 = ∅ /\
  1%nat ∈ ended (closeAll true Examples.pool).2.
Proof.
  destruct (closeAll_empties_pool true Examples.pool) as (_ & He & Hc & _).
  split; [exact He|]. apply (Hc "web" Examples.web_entry). reflexivity.
Defined.

Lemma output_settles b st es : forall c,
  settled c = None ->
  (settled (foldl (on_event b st) c es) = None <-> Forall is_output es).
Proof.
  induction es as [|e es IH]; intros c Hc; simpl.
  - split; [constructor|done].
  - destruct e as [chunk|chunk|msg|code t].
    + rewrite IH by done. split; [by constructor|by inversion 1].
    + rewrite IH by done. split; [by constructor|by inversion 1].
    + split; [|by inversion 1].
      intros Hnone. erewrite events_keep in Hnone; [done|].
      simpl. by rewrite Hc.
    + split; [|by inversion 1].
      intros Hnone. erewrite events_keep in Hnone; [done|].
      simpl. by rewrite Hc.
Qed.

(** X6.  When a command returns.  The promise of [exec] stays pending for
    ever exactly when a client was acquired, the command was started, and
    its stream neither closes nor reports an error, however much output
    it delivers; in every other case the call settles. *)
Theorem exec_pending_without_close (hostName : string) (now : Z) (o : ConnectOutcome)
    (startTime : Z) (s : ExecStart) (m : ConnectionManager.t) :
  (exec hostName now o startTime s m).1 = None <->
  (exists c, (getConnection hostName now o m).1 = inr c) /\
  exists events, s = Stream events /\ Forall is_output events.
Proof.
  unfold exec. destruct (getConnection hostName now o m) as [[e|c] m']; simpl.
  - split; [done|]. by intros [[c Hc] _].
  - destruct s as [msg|events]; simpl.
    + split; [done|]. by intros (_ & events & Hs & _).
    + rewrite (output_settles false startTime events new_call eq_refl).
      split; [eauto|]. by intros (_ & events' & [= <-] & Hes).
Qed.

Lemma append_assoc (a b c : string) : (a +:+ b) +:+ c = a +:+ (b +:+ c).
Proof.
  induction a as [|x a IH]; [done|].
  change (String x ((a +:+ b) +:+ c) = String x (a +:+ (b +:+ c))). by rewrite IH.
Qed.

Lemma append_empty_r (a : string) : a +:+ "" = a.
Proof.
  induction a as [|x a IH]; [done|].
  change (String x (a +:+ "") = String x a). by rewrite IH.
Qed.

Lemma chunks_of_events st es : forall c,
  chunks (foldl (on_event true st) c es) = chunks c ++ omap chunk_of es.
Proof.
  induction es as [|e es IH]; intros c; simpl; [by rewrite app_nil_r|].
  rewrite IH. destruct e; simpl; by rewrite <- ?app_assoc.
Qed.

Lemma stdout_joined es : forall acc,
  foldl (fun acc e => match e with Data chunk => acc +:+ chunk | _ => acc end) acc es =
  acc +:+ joined false (omap chunk_of es).
Proof.
  induction es as [|e es IH]; intros acc; simpl; [by rewrite append_empty_r|].
  rewrite IH. destruct e; simpl; by rewrite ?append_assoc.
Qed.

Lemma stderr_joined es : forall acc,
  foldl (fun acc e => match e with StderrData chunk => acc +:+ chunk | _ => acc end) acc es =
  acc +:+ joined true (omap chunk_of es).
Proof.
  induction es as [|e es IH]; intros acc; simpl; [by rewrite append_empty_r|].
  rewrite IH. destruct e; simpl; by rewrite ?append_assoc.
Qed.

(** X7.  Streaming.  [execStreaming] calls [onData] once for every chunk
    of output, in the order of arrival, with the flag telling standard
    error from standard output; when the stream closes after its output,
    the chunks handed over for each of the two streams, joined in order,
    are the [stdout] and the [stderr] of the result.  When no client is
    acquired or the command cannot be started, [onData] is not called. *)
Theorem execStreaming_chunks (hostName : string) (now : Z) (o : ConnectOutcome)
    (startTime : Z) (s : ExecStart) (m : ConnectionManager.t) :
  let calls := (execStreaming hostName now o startTime s m).1.2 in
  let result := (execStreaming hostName now o startTime s m).1.1 in
  ((forall c, (getConnection hostName now o m).1 <> inr c) -> calls = []) /\
  (forall msg, s = StartError msg -> calls = []) /\
  (forall c events,
     (getConnection hostName now o m).1 = inr c -> s = Stream events ->
     calls = omap chunk_of events /\
     forall output code t,
       events = output ++ [Close code t] -> Forall is_output output ->
       result = Some (inr {| stdout := joined false calls;
                             stderr := joined true calls;
                             exitCode := code;
                             duration := t - startTime |})).
Proof.
  cbv zeta. unfold execStreaming.
  destruct (getConnection hostName now o m) as [[e|c] m']; simpl.
  - split; [done|]. split; [done|]. by intros c events.
  - split; [intros Hno; by destruct (Hno c)|]. split; [by intros msg ->|].
    intros c' events _ ->. simpl. rewrite chunks_of_events. simpl.
    split; [done|]. intros output code t -> Hout.
    rewrite foldl_app. simpl.
    destruct (output_events true startTime output new_call Hout) as (-> & -> & ->).
    simpl. rewrite omap_app. simpl. rewrite app_nil_r.
    by rewrite stdout_joined, stderr_joined.
Qed.

Lemma execStreaming_chunks_witness :
  (execStreaming "web" 1000 NoHostConfig 1000
     (Stream [Data "a"; StderrData "b"; Data "c"; Close 2 1050]) Examples.pool).1 =
  (Some (inr {| stdout := "ac"; stderr := "b"; exitCode := 2; duration := 50 |}),
   [("a", false); ("b", true); ("c", false)]).
Proof.
  destruct (execStreaming_chunks "web" 1000 NoHostConfig 1000
              (Stream [Data "a"; StderrData "b"; Data "c"; Close 2 1050]) Examples.pool)
    as (_ & _ & H).
  destruct (H 1%nat _ eq_refl eq_refl) as [Hcalls Hres].
  specialize (Hres [Data "a"; StderrData "b"; Data "c"] 2 1050 eq_refl
                ltac:(repeat constructor)).
  rewrite Hcalls in Hres. simpl in Hres.
  rewrite (surjective_pairing (execStreaming _ _ _ _ _ _).1).
  rewrite Hres, Hcalls. reflexivity.
Defined.

End ConnectionManagerMore.

(** ** Job supervisor: [start], [getStatus], [getOutput], [list], [kill], [cleanup] *)

Section JobTrackerMore.
Context `{Remote}.

Lemma get_app_None k (l1 l2 : list (string * Job.t)) :
  JobTracker.get k l1 = None -> JobTracker.get k (l1 ++ l2) = JobTracker.get k l2.
Proof.
  induction l1 as [|[k0 j0] l1 IH]; [done|]. simpl.
  destruct (String.eqb k0 k); [done|]. apply IH.
Qed.

Lemma get_app_Some k j (l1 l2 : list (string * Job.t)) :
  JobTracker.get k l1 = Some j -> JobTracker.get k (l1 ++ l2) = Some j.
Proof.
  induction l1 as [|[k0 j0] l1 IH]; [done|]. simpl.
  destruct (String.eqb k0 k); [done|]. apply IH.
Qed.

Lemma get_None_keys k (l : list (string * Job.t)) :
  JobTracker.get k l = None <-> k ∉ l.*1.
Proof.
  induction l as [|[k0 j0] l IH].
  - split; [intros _; apply not_elem_of_nil|done].
  - rewrite fmap_cons, not_elem_of_cons. simpl.
    destruct (String.eqb_spec k0 k) as [->|Hne]; [split; [done|tauto]|].
    rewrite IH. split; [split; [congruence|done]|tauto].
Qed.

Lemma get_set_eq k j (l : list (string * Job.t)) :
  JobTracker.get k (JobTracker.set k j l) = Some j.
Proof.
  unfold JobTracker.set. destruct (JobTracker.get k l) as [j0|] eqn:Hg.
  - by rewrite get_update_eq, Hg.
  - rewrite get_app_None by done. simpl. by rewrite String.eqb_refl.
Qed.

Lemma get_set_ne k k' j (l : list (string * Job.t)) :
  k <> k' -> JobTracker.get k (JobTracker.set k' j l) = JobTracker.get k l.
Proof.
  intros Hne. unfold JobTracker.set.
  destruct (JobTracker.get k' l) as [j0|] eqn:Hg; [by apply get_update_ne|].
  destruct (JobTracker.get k l) as [j1|] eqn:Hk.
  - by apply get_app_Some.
  - rewrite get_app_None by done. simpl.
    destruct (String.eqb_spec k' k); [congruence|done].
Qed.

Lemma wf_set k j (l : list (string * Job.t)) :
  JobTracker.wf_jobs l -> Job.id j = k -> JobTracker.wf_jobs (JobTracker.set k j l).
Proof.
  intros Hwf Hj. unfold JobTracker.set.
  destruct (JobTracker.get k l) as [j0|] eqn:Hg; [by apply wf_update|].
  destruct Hwf as [Hnd Hid]. split.
  - rewrite fmap_app. apply NoDup_app. split; [done|]. split.
    + intros x Hx [->|[]%elem_of_nil]%elem_of_cons.
      by apply get_None_keys in Hg.
    + apply NoDup_singleton.
  - apply Forall_app. split; [done|]. by constructor.
Qed.

Lemma get_remove_eq k (l : list (string * Job.t)) :
  JobTracker.get k (JobTracker.remove k l) = None.
Proof.
  induction l as [|[k0 j0] l IH]; [done|]. simpl.
  destruct (String.eqb k0 k) eqn:E; [done|]. simpl. by rewrite E.
Qed.

Lemma get_remove_ne k k' (l : list (string * Job.t)) :
  k <> k' -> JobTracker.get k (JobTracker.remove k' l) = JobTracker.get k l.
Proof.
  intros Hne. induction l as [|[k0 j0] l IH]; [done|]. simpl.
  destruct (String.eqb_spec k0 k') as [->|Hne']; simpl.
  - destruct (String.eqb_spec k' k); [congruence|done].
  - by rewrite IH.
Qed.

Lemma remove_sublist k (l : list (string * Job.t)) :
  JobTracker.remove k l `sublist_of` l.
Proof.
  induction l as [|[k0 j0] l IH]; [done|]. simpl.
  destruct (String.eqb k0 k); [by apply sublist_cons|by apply sublist_skip].
Qed.

Lemma wf_remove k (l : list (string * Job.t)) :
  JobTracker.wf_jobs l -> JobTracker.wf_jobs (JobTracker.remove k l).
Proof.
  intros [Hnd Hid]. split.
  - eapply sublist_NoDup; [exact Hnd|]. apply fmap_sublist, remove_sublist.
  - rewrite Forall_forall in Hid |- *. intros e He. apply Hid.
    eapply elem_of_sublist; [exact He|apply remove_sublist].
Qed.

(** What [start] and [cleanup] do, case by case. *)

Lemma start_unfold id hostName command name s :
  JobTracker.start id hostName command name s =
  match remote_exec hostName (JobTracker.wrappedCmd id command) (world s) with
  | (inl e, w1) =>
      (inl e, mkServer w1 (issued s ++ [(hostName, JobTracker.wrappedCmd id command)])
                (jobs s) (metadata s))
  | (inr _, w1) =>
      match remote_exec hostName (JobTracker.readPidCmd id) w1 with
      | (inl e, w2) =>
          (inl e, mkServer w2
                    (issued s ++ [(hostName, JobTracker.wrappedCmd id command);
                                  (hostName, JobTracker.readPidCmd id)])
                    (jobs s) (metadata s))
      | (inr r2, w2) =>
          let job :=
            {| Job.id := id; Job.host := hostName; Job.command := command;
               Job.name := name; Job.status := running;
               Job.pid := JS.parseInt (JS.trim (stdout r2));
               Job.startTime := date_now w2; Job.endTime := None;
               Job.exitCode := None;
               Job.outputFile := JobTracker.outputFileOf id |} in
          (inr job, mkServer w2
                      (issued s ++ [(hostName, JobTracker.wrappedCmd id command);
                                    (hostName, JobTracker.readPidCmd id)])
                      (JobTracker.set id job (jobs s)) (metadata s))
      end
  end.
Proof.
  unfold JobTracker.start, bind, exec, now, gets.
  destruct (remote_exec _ _ (world s)) as [[e|r1] w1]; simpl; [done|].
  destruct (remote_exec _ _ w1) as [[e|r2] w2]; simpl; by rewrite <- app_assoc.
Qed.

Lemma cleanup_unfold jobId s :
  JobTracker.cleanup jobId s =
  match JobTracker.get jobId (jobs s) with
  | None => (inr tt, s)
  | Some job =>
      (inr tt,
       mkServer (remote_exec (Job.host job) (JobTracker.removeFilesCmd job) (world s)).2
         (issued s ++ [(Job.host job, JobTracker.removeFilesCmd job)])
         (JobTracker.remove jobId (jobs s)) (metadata s))
  end.
Proof.
  unfold JobTracker.cleanup. unfold bind at 1. unfold gets.
  destruct (JobTracker.get jobId (jobs s)) as [job|]; [|done].
  unfold bind, try_, exec, ret.
  by destruct (remote_exec _ _ (world s)) as [[e|r] w].
Qed.

(** X8.  Launching a job.  [start] first sends the launch command,
    [nohup sh -c '<command, quotes escaped>' > "<output file>" 2>&1 &
    echo $! > "<pid file>"], to the host.  When that fails, [start] fails
    with that error, having sent nothing else and leaving the table as it
    was.  Otherwise it sends [cat "<pid file>"]; when that fails, [start]
    fails with that error and the table is as it was.  When both are
    answered, [start] returns a job that is running, bears the given
    identifier, host, command and name, starts at the time of the second
    answer, writes to the output file named after the identifier and has
    no end time or exit code; its pid is the number printed by the second
    command when that is an integer of magnitude at most 2^53, and [NaN]
    when the answer is not a number; the table holds the job under its
    identifier, and every other job is as before. *)
Theorem start_records_job (id hostName command : string) (name : option string)
    (s : Server) :
  let q := String "034"%char EmptyString in
  let outputFile := "/tmp/enrichedlab_job_" +:+ id +:+ ".out" in
  let pidFile := "/tmp/enrichedlab_job_" +:+ id +:+ ".pid" in
  let launch :=
    (hostName,
     "nohup sh -c '" +:+ JobTracker.escape_quotes command +:+ "' > "
       +:+ q +:+ outputFile +:+ q +:+ " 2>&1 & echo $! > " +:+ q +:+ pidFile +:+ q) in
  let readPid := (hostName, "cat " +:+ q +:+ pidFile +:+ q) in
  let out := JobTracker.start id hostName command name s in
  let first := remote_exec launch.1 launch.2 (world s) in
  let second := remote_exec readPid.1 readPid.2 first.2 in
  metadata out.2 = metadata s /\
  match first.1 with
  | inl e =>
      out.1 = inl e /\ jobs out.2 = jobs s /\ issued out.2 = issued s ++ [launch] /\
      world out.2 = first.2
  | inr _ =>
      issued out.2 = issued s ++ [launch; readPid] /\ world out.2 = second.2 /\
      match second.1 with
      | inl e => out.1 = inl e /\ jobs out.2 = jobs s
      | inr r2 =>
          exists job,
            out.1 = inr job /\
            Job.id job = id /\ Job.host job = hostName /\ Job.command job = command /\
            Job.name job = name /\ Job.status job = running /\
            Job.startTime job = date_now second.2 /\
            Job.endTime job = None /\ Job.exitCode job = None /\
            Job.outputFile job = outputFile /\
            (forall n, JS.parseInt (JS.trim (stdout r2)) = Some n ->
               Z.abs n <= 9007199254740992 -> Job.pid job = Some n) /\
            (JS.parseInt (JS.trim (stdout r2)) = None -> Job.pid job = None) /\
            JobTracker.get id (jobs out.2) = Some job /\
            (forall k, k <> id ->
               JobTracker.get k (jobs out.2) = JobTracker.get k (jobs s))
      end
  end.
Proof.
  cbv zeta. rewrite start_unfold.
  unfold JobTracker.wrappedCmd, JobTracker.readPidCmd, JobTracker.outputFileOf,
    JobTracker.pidFileOf, JS.quoted.
  change JS.dq with (String "034"%char EmptyString). simpl fst. simpl snd.
  rewrite !append_assoc.
  destruct (remote_exec hostName _ (world s)) as [[e|r1] w1]; simpl; [done|].
  destruct (remote_exec hostName _ w1) as [[e|r2] w2]; simpl; [done|].
  do 3 (split; [done|]). eexists. split; [reflexivity|]. simpl.
  do 9 (split; [done|]). split; [by intros n -> _|]. split; [done|].
  split; [apply get_set_eq|]. intros k Hne. by apply get_set_ne.
Qed.

(** The invariant of the job table. *)

Lemma keeps_wf_bind {A B} (m : M A) (f : A -> M B) :
  JobTracker.keeps_wf m -> (forall a, JobTracker.keeps_wf (f a)) ->
  JobTracker.keeps_wf (bind m f).
Proof.
  intros Hm Hf s Hs. unfold bind. specialize (Hm s Hs).
  destruct (m s) as [[e|a] s']; [done|]. by apply Hf.
Qed.

Lemma keeps_wf_ret {A} (a : A) : JobTracker.keeps_wf (ret a).
Proof. by intros s. Qed.

Lemma keeps_wf_gets {A} (f : Server -> A) : JobTracker.keeps_wf (gets f).
Proof. by intros s. Qed.

Lemma keeps_wf_for_each {A} (l : list A) (body : A -> M unit) :
  (forall x, JobTracker.keeps_wf (body x)) -> JobTracker.keeps_wf (for_each l body).
Proof.
  intros Hb. induction l as [|x l IH]; simpl; [apply keeps_wf_ret|].
  apply keeps_wf_bind; auto.
Qed.

Lemma keeps_wf_getStatus jobId : JobTracker.keeps_wf (JobTracker.getStatus jobId).
Proof.
  intros s Hwf.
  destruct (JobTracker.get jobId (jobs s)) as [job|] eqn:Hg;
    [|by rewrite (getStatus_unknown _ _ Hg)].
  destruct (status_running_dec job) as [Hrun|Hrun];
    [|by rewrite (getStatus_terminal _ _ _ Hg Hrun)].
  rewrite (getStatus_running _ _ _ Hg Hrun).
  destruct (remote_exec _ _ (world s)) as [[e|r1] w1]; [done|].
  destruct (JobTracker.process_gone r1); [|done].
  destruct (remote_exec _ _ w1) as [[e|r2] w2]; [done|].
  simpl. apply wf_update; [done|]. simpl. eauto using wf_get_id.
Qed.

Lemma keeps_wf_kill jobId : JobTracker.keeps_wf (JobTracker.kill jobId).
Proof.
  intros s Hwf.
  destruct (JobTracker.get jobId (jobs s)) as [job|] eqn:Hg;
    [|by rewrite (kill_unknown _ _ Hg)].
  destruct (status_running_dec job) as [Hrun|Hrun];
    [|by rewrite (kill_terminal _ _ _ Hg Hrun)].
  rewrite (kill_running _ _ _ Hg Hrun).
  destruct (remote_exec _ _ (world s)) as [[e|r] w]; [done|].
  destruct (String.eqb (JS.trim (stdout r)) "killed"); [|done].
  simpl. apply wf_update; [done|]. simpl. eauto using wf_get_id.
Qed.

Lemma keeps_wf_list hostName : JobTracker.keeps_wf (JobTracker.list hostName).
Proof.
  unfold JobTracker.list.
  apply keeps_wf_bind; [apply keeps_wf_gets|]. intros table.
  apply keeps_wf_bind.
  { apply keeps_wf_for_each. intros key. unfold JobTracker.refresh.
    apply keeps_wf_bind; [apply keeps_wf_gets|]. intros table'.
    destruct (JobTracker.get key table') as [job|]; [|apply keeps_wf_ret].
    destruct (JobTracker.is_running job); [|apply keeps_wf_ret].
    apply keeps_wf_bind; [apply keeps_wf_getStatus|]. intros _. apply keeps_wf_ret. }
  intros _. apply keeps_wf_bind; [apply keeps_wf_gets|]. intros t'. apply keeps_wf_ret.
Qed.

Lemma keeps_wf_start id hostName command name :
  JobTracker.keeps_wf (JobTracker.start id hostName command name).
Proof.
  intros s Hwf. rewrite start_unfold.
  destruct (remote_exec _ _ (world s)) as [[e|r1] w1]; [done|].
  destruct (remote_exec _ _ w1) as [[e|r2] w2]; [done|].
  simpl. by apply wf_set.
Qed.

Lemma keeps_wf_cleanup jobId : JobTracker.keeps_wf (JobTracker.cleanup jobId).
Proof.
  intros s Hwf. rewrite cleanup_unfold.
  destruct (JobTracker.get jobId (jobs s)); [|done]. simpl. by apply wf_remove.
Qed.

Lemma keeps_wf_getOutput jobId tail : JobTracker.keeps_wf (JobTracker.getOutput jobId tail).
Proof.
  intros s Hwf. unfold JobTracker.getOutput, JobTracker.lookup_job, bind, gets, exec, ret, throw.
  destruct (JobTracker.get jobId (jobs s)) as [job|]; [|done]. simpl.
  by destruct (remote_exec _ _ (world s)) as [[e|r] w].
Qed.

(** X9.  The job table stays well formed.  The empty table of a new
    tracker holds every job under its own identifier, without duplicate
    identifiers, and every method of the tracker keeps it so, whatever the
    remote side answers and whether the method returns or throws. *)
Theorem job_table_stays_well_formed (s : Server) :
  JobTracker.wf_jobs [] /\
  (JobTracker.wf_jobs (jobs s) ->
   (forall id hostName command name,
      JobTracker.wf_jobs (jobs (JobTracker.start id hostName command name s).2)) /\
   (forall jobId, JobTracker.wf_jobs (jobs (JobTracker.getStatus jobId s).2)) /\
   (forall jobId tail, JobTracker.wf_jobs (jobs (JobTracker.getOutput jobId tail s).2)) /\
   (forall hostName, JobTracker.wf_jobs (jobs (JobTracker.list hostName s).2)) /\
   (forall jobId, JobTracker.wf_jobs (jobs (JobTracker.kill jobId s).2)) /\
   (forall jobId, JobTracker.wf_jobs (jobs (JobTracker.cleanup jobId s).2))).
Proof.
  split; [split; constructor|]. intros Hwf.
  split; [intros; by apply keeps_wf_start|].
  split; [intros; by apply keeps_wf_getStatus|].
  split; [intros; by apply keeps_wf_getOutput|].
  split; [intros; by apply keeps_wf_list|].
  split; [intros; by apply keeps_wf_kill|].
  intros; by apply keeps_wf_cleanup.
Qed.

(** X10.  Forgetting a job.  [cleanup] never fails; for an unknown
    identifier it does nothing at all; for a known job it issues the
    removal of the two remote files once and forgets the job whether or
    not that removal succeeded, leaving every other job as it was.
    Afterwards [getStatus], [getOutput] and [kill] fail with JobNotFound
    for that identifier. *)
Theorem cleanup_forgets_job (jobId : string) (s : Server) :
  let s' := (JobTracker.cleanup jobId s).2 in
  (JobTracker.cleanup jobId s).1 = inr tt /\
  (JobTracker.get jobId (jobs s) = None -> s' = s) /\
  (forall job, JobTracker.get jobId (jobs s) = Some job ->
     issued s' = issued s ++ [(Job.host job, JobTracker.removeFilesCmd job)]) /\
  JobTracker.get jobId (jobs s') = None /\
  (forall k, k <> jobId -> JobTracker.get k (jobs s') = JobTracker.get k (jobs s)) /\
  JobTracker.getStatus jobId s' = (inl (JobTracker.JobNotFound jobId), s') /\
  (forall tail, JobTracker.getOutput jobId tail s' = (inl (JobTracker.JobNotFound jobId), s')) /\
  JobTracker.kill jobId s' = (inl (JobTracker.JobNotFound jobId), s').
Proof.
  cbv zeta. rewrite cleanup_unfold.
  assert (forall s0, JobTracker.get jobId (jobs s0) = None ->
            JobTracker.getStatus jobId s0 = (inl (JobTracker.JobNotFound jobId), s0) /\
            (forall tail, JobTracker.getOutput jobId tail s0 =
                            (inl (JobTracker.JobNotFound jobId), s0)) /\
            JobTracker.kill jobId s0 = (inl (JobTracker.JobNotFound jobId), s0)) as Hgone.
  { intros s0 H0. split; [by apply getStatus_unknown|]. split; [|by apply kill_unknown].
    intros tail. unfold JobTracker.getOutput, JobTracker.lookup_job, bind, gets, throw.
    by rewrite H0. }
  destruct (JobTracker.get jobId (jobs s)) as [job|] eqn:Hg; simpl.
  - split; [done|]. split; [done|]. split; [by intros ? [= <-]|].
    split; [apply get_remove_eq|]. split; [intros k Hne; by apply get_remove_ne|].
    apply Hgone. simpl. apply get_remove_eq.
  - split; [done|]. split; [done|]. split; [done|]. split; [done|]. split; [done|].
    by apply Hgone.
Qed.

(** X11.  [getStatus] and [kill] touch one job only.  Neither changes a
    job other than the one it is called for, nor the identifiers of the
    table or their order; and what they do to the job they are called for
    is nothing or its finalization: the table afterwards is the table
    before, or the table before with that job, which was running, marked
    completed or failed with an exit code and an end time. *)
Theorem status_and_kill_touch_one_job (jobId : string) (s : Server) :
  forall s', s' = (JobTracker.getStatus jobId s).2 \/ s' = (JobTracker.kill jobId s).2 ->
  (forall k, k <> jobId -> JobTracker.get k (jobs s') = JobTracker.get k (jobs s)) /\
  (jobs s').*1 = (jobs s).*1 /\
  metadata s' = metadata s /\
  (jobs s' = jobs s \/
   exists job st code t,
     JobTracker.get jobId (jobs s) = Some job /\ Job.status job = running /\
     st <> running /\
     jobs s' = JobTracker.update jobId (JobTracker.finalized job st code t) (jobs s)).
Proof.
  pose (P := fun s' : Server =>
    (forall k, k <> jobId -> JobTracker.get k (jobs s') = JobTracker.get k (jobs s)) /\
    (jobs s').*1 = (jobs s).*1 /\
    metadata s' = metadata s /\
    (jobs s' = jobs s \/
     exists job st code t,
       JobTracker.get jobId (jobs s) = Some job /\ Job.status job = running /\
       st <> running /\
       jobs s' = JobTracker.update jobId (JobTracker.finalized job st code t) (jobs s))).
  assert (forall job st code t w i,
            JobTracker.get jobId (jobs s) = Some job -> Job.status job = running ->
            st <> running ->
            P (mkServer w i
                 (JobTracker.update jobId (JobTracker.finalized job st code t) (jobs s))
                 (metadata s))) as Hfin.
  { intros job st code t w i Hg Hrun Hst. unfold P. simpl.
    split; [intros k Hne; by apply get_update_ne|]. split; [apply update_keys|].
    split; [done|]. right. by exists job, st, code, t. }
  assert (forall w i, P (mkServer w i (jobs s) (metadata s))) as Hsame.
  { intros w i. unfold P. simpl. split; [done|]. split; [done|]. split; [done|]. by left. }
  assert (P s) as Hrefl.
  { unfold P. split; [done|]. split; [done|]. split; [done|]. by left. }
  change (forall s', s' = (JobTracker.getStatus jobId s).2 \/
                     s' = (JobTracker.kill jobId s).2 -> P s').
  intros s' [->| ->].
  - destruct (JobTracker.get jobId (jobs s)) as [job|] eqn:Hg;
      [|by rewrite (getStatus_unknown _ _ Hg)].
    destruct (status_running_dec job) as [Hrun|Hrun];
      [|by rewrite (getStatus_terminal _ _ _ Hg Hrun)].
    rewrite (getStatus_running _ _ _ Hg Hrun).
    destruct (remote_exec _ _ (world s)) as [[e|r1] w1]; [apply Hsame|].
    destruct (JobTracker.process_gone r1); [|apply Hsame].
    destruct (remote_exec _ _ w1) as [[e|r2] w2]; [apply Hsame|].
    apply Hfin; [done|done|]. by destruct (_ =? 0).
  - destruct (JobTracker.get jobId (jobs s)) as [job|] eqn:Hg;
      [|by rewrite (kill_unknown _ _ Hg)].
    destruct (status_running_dec job) as [Hrun|Hrun];
      [|by rewrite (kill_terminal _ _ _ Hg Hrun)].
    rewrite (kill_running _ _ _ Hg Hrun).
    destruct (remote_exec _ _ (world s)) as [[e|r] w]; [apply Hsame|].
    destruct (String.eqb (JS.trim (stdout r)) "killed"); [|apply Hsame].
    by apply Hfin.
Qed.

(** X12.  A kill is final.  After a [kill] that returned [true], a second
    [kill] of the same job returns [false], and [getStatus] returns the job
    as the kill left it, failed with exit code -9; both leave the state
    exactly as it is, so neither issues a remote command. *)
Theorem kill_is_final (jobId : string) (s s' : Server) :
  JobTracker.kill jobId s = (inr true, s') ->
  JobTracker.kill jobId s' = (inr false, s') /\
  exists job,
    JobTracker.getStatus jobId s' = (inr job, s') /\
    Job.status job = failed /\ Job.exitCode job = Some (-9) /\
    Job.endTime job = Some (date_now (world s')).
Proof.
  intros Hkill.
  destruct (JobTracker.get jobId (jobs s)) as [job|] eqn:Hg;
    [|by rewrite (kill_unknown _ _ Hg) in Hkill].
  destruct (status_running_dec job) as [Hrun|Hrun];
    [|by rewrite (kill_terminal _ _ _ Hg Hrun) in Hkill].
  rewrite (kill_running _ _ _ Hg Hrun) in Hkill.
  destruct (remote_exec _ _ (world s)) as [[e|r] w]; [done|].
  destruct (String.eqb (JS.trim (stdout r)) "killed"); [|done].
  injection Hkill as <-.
  set (job' := JobTracker.finalized job failed (-9) (date_now w)).
  set (s' := mkServer w _ _ _).
  assert (JobTracker.get jobId (jobs s') = Some job') as Hg'
    by (simpl; by rewrite get_update_eq, Hg).
  split; [by apply (kill_terminal _ _ job')|].
  exists job'. split; [by apply getStatus_terminal|done].
Qed.

(** X13.  Nothing to list.  When no job of the table is on the host asked
    for (in particular when the table is empty), [list] returns the empty
    sequence, issues no command and leaves the state as it is. *)
Theorem list_of_unknown_host_is_empty (hostName : option string) (s : Server) :
  Forall (fun e => selects hostName (Job.host e.2) = false) (jobs s) ->
  JobTracker.list hostName s = (inr [], s).
Proof.
  intros Hnone. rewrite list_unfold. cbv zeta.
  assert (filter (fun e : string * Job.t => selects hostName (Job.host e.2) = true) (jobs s)
          = []) as ->.
  { induction (jobs s) as [|e l IH]; [done|].
    apply Forall_cons in Hnone as [He Hl].
    rewrite filter_cons_False by congruence. by apply IH. }
  done.
Qed.

(** X14.  Reading the output of a job.  [getOutput] fails with JobNotFound
    for an unknown identifier and then issues nothing; for a known job it
    issues one command on the host of the job and returns what that
    command printed, or fails as that command failed; it never changes a
    job.  A tail that is absent, zero or negative asks for the whole
    file. *)
Theorem getOutput_reads_remote_file (jobId : string) (tail : option Z) (s : Server) :
  (JobTracker.get jobId (jobs s) = None ->
     JobTracker.getOutput jobId tail s = (inl (JobTracker.JobNotFound jobId), s)) /\
  (forall job, JobTracker.get jobId (jobs s) = Some job ->
     let cmd := JobTracker.outputCmd job tail in
     issued (JobTracker.getOutput jobId tail s).2 = issued s ++ [(Job.host job, cmd)] /\
     (JobTracker.getOutput jobId tail s).1 =
       match (remote_exec (Job.host job) cmd (world s)).1 with
       | inr result => inr (stdout result)
       | inl e => inl e
       end) /\
  jobs (JobTracker.getOutput jobId tail s).2 = jobs s /\
  (forall n, tail = Some n -> n <= 0 ->
     JobTracker.getOutput jobId tail s = JobTracker.getOutput jobId None s).
Proof.
  unfold JobTracker.getOutput, JobTracker.lookup_job, bind, gets, exec, ret, throw.
  destruct (JobTracker.get jobId (jobs s)) as [job|] eqn:Hg; simpl.
  - split; [done|]. split.
    { intros ? [= <-]. by destruct (remote_exec _ _ (world s)) as [[e|r] w]. }
    split; [by destruct (remote_exec _ _ (world s)) as [[e|r] w]|].
    intros n -> Hn. unfold JobTracker.outputCmd.
    by destruct (Z.ltb_spec 0 n); [lia|].
  - split; [done|]. split; [done|]. split; [done|]. by intros n -> _.
Qed.

End JobTrackerMore.

Lemma start_records_job_witness :
  exists job,
    (@JobTracker.start Examples.scripted "job_d" "web" "echo 'hi'" None
       (Examples.server 5000 [Examples.answer ""; Examples.answer "4321"] [])).1 =
      inr job /\
    Job.status job = running /\ Job.pid job = Some 4321.
Proof.
  destruct (@start_records_job Examples.scripted "job_d" "web" "echo 'hi'" None
              (Examples.server 5000 [Examples.answer ""; Examples.answer "4321"] []))
    as (_ & _ & _ & job & Hjob & _ & _ & _ & _ & Hrun & _ & _ & _ & _ & Hpid & _).
  exists job. split; [exact Hjob|]. split; [exact Hrun|].
  apply Hpid; [reflexivity|]. vm_compute. discriminate.
Defined.

Lemma job_table_stays_well_formed_witness :
  JobTracker.wf_jobs
    (jobs (@JobTracker.list Examples.steady (Some "web") Examples.steady_server).2).
Proof.
  destruct (@job_table_stays_well_formed Examples.steady Examples.steady_server)
    as [_ Hkeep].
  apply Hkeep. split; [|repeat constructor].
  apply (bool_decide_unpack _). vm_compute. reflexivity.
Defined.

Lemma cleanup_forgets_job_witness :
  JobTracker.get "job_b"
    (jobs (@JobTracker.cleanup Examples.scripted "job_b" (Examples.server 5000 [] [])).2) = None /\
  issued (@JobTracker.cleanup Examples.scripted "job_b" (Examples.server 5000 [] [])).2 =
    [("db", JobTracker.removeFilesCmd Examples.backup_job)].
Proof.
  destruct (@cleanup_forgets_job Examples.scripted "job_b" (Examples.server 5000 [] []))
    as (_ & _ & Hiss & Hnone & _).
  split; [exact Hnone|]. apply (Hiss Examples.backup_job). reflexivity.
Defined.

Lemma status_and_kill_touch_one_job_witness :
  JobTracker.get "job_c"
    (jobs (@JobTracker.getStatus Examples.scripted "job_a"
             (Examples.server 5000 [Examples.answer "done"; Examples.answer "0"] [])).2) =
  Some Examples.test_job.
Proof.
  destruct (@status_and_kill_touch_one_job Examples.scripted "job_a"
              (Examples.server 5000 [Examples.answer "done"; Examples.answer "0"] [])
              _ (or_introl eq_refl)) as [Hframe _].
  rewrite Hframe; [reflexivity|discriminate].
Defined.

Lemma kill_is_final_witness :
  exists s',
    @JobTracker.kill Examples.scripted "job_a"
      (Examples.server 5000 [Examples.answer "killed"] []) = (inr true, s') /\
    @JobTracker.kill Examples.scripted "job_a" s' = (inr false, s').
Proof.
  eexists. split; [vm_compute; reflexivity|].
  eapply (@kill_is_final Examples.scripted "job_a"
            (Examples.server 5000 [Examples.answer "killed"] [])).
  vm_compute. reflexivity.
Defined.

Lemma list_of_unknown_host_is_empty_witness :
  @JobTracker.list Examples.scripted (Some "mail") (Examples.server 5000 [] []) =
  (inr [], Examples.server 5000 [] []).
Proof.
  apply (@list_of_unknown_host_is_empty Examples.scripted (Some "mail")
           (Examples.server 5000 [] [])).
  repeat constructor.
Defined.

Lemma getOutput_reads_remote_file_witness :
  (@JobTracker.getOutput Examples.scripted "job_a" (Some 0)
     (Examples.server 5000 [Examples.answer "compiling"] [])).1 =
  inr ("compiling" +:+ String (ascii_of_nat 10) EmptyString).
Proof.
  destruct (@getOutput_reads_remote_file Examples.scripted "job_a" (Some 0)
              (Examples.server 5000 [Examples.answer "compiling"] []))
    as (_ & Hknown & _).
  destruct (Hknown Examples.build_job eq_refl) as [_ Hres].
  rewrite Hres. reflexivity.
Defined.

(** ** Snapshot store: [create], [createFileSnapshot], [list], [restore], [cleanup] *)

Section SnapshotManagerMore.
Context `{Remote}.
Variable dirname : string -> string.
Variable remotePath : string.
Variable basename : string -> string.
Variable toISOString : Z -> string.

Local Abbreviation create := (SnapshotManager.create remotePath basename toISOString).
Local Abbreviation restore := (SnapshotManager.restore dirname).
Local Abbreviation tarFileOf := (SnapshotManager.tarFileOf remotePath basename).
Local Abbreviation tarCmd := (SnapshotManager.tarCmd remotePath basename).
Local Abbreviation commitCmd := (SnapshotManager.commitCmd toISOString).
Local Abbreviation listed := SnapshotManager.listed.
Local Abbreviation matching := SnapshotManager.matching.

(** Whether the remote side answered a probe with the expected word; a
    probe that throws counts as a no. *)
Local Abbreviation answered probe word :=
  (match probe with
   | inr r => String.eqb (JS.trim (stdout r)) word
   | inl _ => false
   end).

Lemma create_unfold id hostName path s :
  create id hostName path s =
  let t := date_now (world s) in
  let probe := remote_exec hostName (SnapshotManager.isGitCmd path) (world s) in
  let i1 := issued s ++ [(hostName, SnapshotManager.isGitCmd path)] in
  if answered probe.1 "git" then
    match remote_exec hostName (commitCmd path (date_now probe.2)) probe.2 with
    | (inr r, w) =>
        (inr id,
         mkServer w (i1 ++ [(hostName, commitCmd path (date_now probe.2))]) (jobs s)
           (metadata s ++
              [Some {| Snapshot.ts := t; Snapshot.id := id; Snapshot.type := git;
                       Snapshot.host := hostName; Snapshot.path := path;
                       Snapshot.backup := None;
                       Snapshot.commit := Some (JS.trim (stdout r)) |}]))
    | (inl e, w) =>
        (inl e, mkServer w (i1 ++ [(hostName, commitCmd path (date_now probe.2))])
                  (jobs s) (metadata s))
    end
  else
    match remote_exec hostName (tarCmd path t) probe.2 with
    | (inr r, w) =>
        (inr id,
         mkServer w (i1 ++ [(hostName, tarCmd path t)]) (jobs s)
           (metadata s ++
              [Some {| Snapshot.ts := t; Snapshot.id := id; Snapshot.type := tar;
                       Snapshot.host := hostName; Snapshot.path := path;
                       Snapshot.backup := Some (tarFileOf path t);
                       Snapshot.commit := None |}]))
    | (inl e, w) =>
        (inl e, mkServer w (i1 ++ [(hostName, tarCmd path t)]) (jobs s) (metadata s))
    end.
Proof.
  unfold SnapshotManager.create, SnapshotManager.isGitDirectory,
    SnapshotManager.createGitSnapshot, SnapshotManager.createTarSnapshot,
    SnapshotManager.saveMetadata, SnapshotManager.try_or, bind, now, gets, exec, ret.
  cbv zeta. simpl.
  destruct (remote_exec hostName (SnapshotManager.isGitCmd path) (world s))
    as [[e|r] w1]; simpl.
  - by destruct (remote_exec _ _ w1) as [[e2|r2] w2].
  - destruct (String.eqb (JS.trim (stdout r)) "git"); simpl;
      by destruct (remote_exec _ _ w1) as [[e2|r2] w2].
Qed.

Lemma create_appends_one_record_aux id hostName path s :
  match (create id hostName path s).1 with
  | inl _ => True
  | inr _ =>
      exists snap,
        metadata (create id hostName path s).2 = metadata s ++ [Some snap] /\
        Snapshot.id snap = id /\ Snapshot.host snap = hostName /\
        Snapshot.ts snap = date_now (world s)
  end.
Proof.
  rewrite create_unfold. cbv zeta.
  destruct (answered _ "git");
    destruct (remote_exec hostName _ _) as [[e|r] w]; simpl; eauto.
Qed.

(** X15.  Creating a snapshot.  [create] never touches the job table.
    When it returns, it returns the identifier it was given and the log
    has grown by exactly one line, at its end: a record with that
    identifier, the host, the path and the time of the call; a
    version-control record, holding the revision the remote side printed
    and no backup path, exactly when the probe for a [.git] directory was
    answered with [git], and an archive record with the archive path and
    no revision otherwise, in particular when the probe itself failed.
    When it fails, the log is as before. *)
Theorem create_appends_one_record (id hostName path : string) (s : Server) :
  let t := date_now (world s) in
  let probe := remote_exec hostName (SnapshotManager.isGitCmd path) (world s) in
  let s' := (create id hostName path s).2 in
  jobs s' = jobs s /\
  match (create id hostName path s).1 with
  | inl _ => metadata s' = metadata s
  | inr id' =>
      id' = id /\
      exists snap,
        metadata s' = metadata s ++ [Some snap] /\
        Snapshot.id snap = id /\ Snapshot.host snap = hostName /\
        Snapshot.path snap = path /\ Snapshot.ts snap = t /\
        if answered probe.1 "git" then
          Snapshot.type snap = git /\ Snapshot.backup snap = None /\
          exists r w,
            remote_exec hostName (commitCmd path (date_now probe.2)) probe.2 = (inr r, w) /\
            Snapshot.commit snap = Some (JS.trim (stdout r))
        else
          Snapshot.type snap = tar /\ Snapshot.commit snap = None /\
          Snapshot.backup snap = Some (tarFileOf path t)
  end.
Proof.
  cbv zeta. rewrite create_unfold. cbv zeta.
  destruct (answered (remote_exec hostName (SnapshotManager.isGitCmd path) (world s)).1 "git").
  - destruct (remote_exec hostName (commitCmd path _) _) as [[e|r] w] eqn:He; simpl;
      [done|].
    split; [done|]. split; [done|]. eexists. split; [reflexivity|]. simpl.
    do 6 (split; [done|]). by exists r, w.
  - destruct (remote_exec hostName (tarCmd path _) _) as [[e|r] w] eqn:He; simpl;
      [done|].
    split; [done|]. split; [done|]. eexists. split; [reflexivity|]. simpl. done.
Qed.

(** *** The newest record of the log *)

Lemma parse_lines_app lines1 lines2 : forall i,
  SnapshotManager.parse_lines i (lines1 ++ lines2) =
  SnapshotManager.parse_lines i lines1 ++
  SnapshotManager.parse_lines (i + length lines1) lines2.
Proof.
  induction lines1 as [|[snap|] lines1 IH]; intros i; simpl.
  - by rewrite Nat.add_0_r.
  - rewrite IH. do 3 f_equal. lia.
  - rewrite IH. do 2 f_equal. lia.
Qed.

Lemma matching_snoc hostName lines snap :
  matching hostName (lines ++ [Some snap]) =
  matching hostName lines ++
    (if selects hostName (Snapshot.host snap)
     then [mkObj (length lines) snap] else []).
Proof.
  unfold SnapshotManager.matching.
  rewrite parse_lines_app, filter_app. f_equal. simpl.
  rewrite filter_cons, filter_nil. simpl.
  destruct (selects hostName (Snapshot.host snap)); by case_decide.
Qed.

Lemma insert_newest (x : Obj) l : forall acc,
  Forall (fun y => Snapshot.ts (val y) < Snapshot.ts (val x)) l ->
  foldr (JS.insert_by SnapshotManager.byTsDesc) (x :: acc) l =
  x :: foldr (JS.insert_by SnapshotManager.byTsDesc) acc l.
Proof.
  intros acc. induction 1 as [|y l Hy _ IH]; [done|].
  simpl. rewrite IH. simpl. unfold SnapshotManager.byTsDesc at 1.
  by destruct (Z.ltb_spec 0 (Snapshot.ts (val x) - Snapshot.ts (val y))); [|lia].
Qed.

Lemma sort_snoc_newest (x : Obj) l :
  Forall (fun y => Snapshot.ts (val y) < Snapshot.ts (val x)) l ->
  JS.sort SnapshotManager.byTsDesc (l ++ [x]) =
  x :: JS.sort SnapshotManager.byTsDesc l.
Proof.
  intros Hl. unfold JS.sort. rewrite foldr_app. simpl. by apply insert_newest.
Qed.

Lemma slice0_cons {B} limit (x : B) l :
  0 < limit -> JS.slice0 limit (x :: l) = x :: JS.slice0 (limit - 1) l.
Proof.
  intros Hpos. unfold JS.slice0.
  destruct (Z.ltb_spec limit 0); [lia|].
  destruct (Z.ltb_spec (limit - 1) 0); [lia|].
  replace (Z.to_nat limit) with (S (Z.to_nat (limit - 1))) by lia. done.
Qed.

Lemma matching_older hostName lines (t : Z) :
  (forall old, Some old ∈ lines ->
     selects hostName (Snapshot.host old) = true -> Snapshot.ts old < t) ->
  Forall (fun y => Snapshot.ts (val y) < t) (matching hostName lines).
Proof.
  intros Hold. apply Forall_forall. intros o Ho.
  apply list_elem_of_filter in Ho as [Hsel Ho].
  apply parse_lines_elem in Ho. by apply Hold.
Qed.

Lemma listed_snoc hostName limit lines snap :
  0 < limit ->
  (forall old, Some old ∈ lines ->
     selects hostName (Snapshot.host old) = true ->
     Snapshot.ts old < Snapshot.ts snap) ->
  listed hostName limit (lines ++ [Some snap]) =
  if selects hostName (Snapshot.host snap)
  then mkObj (length lines) snap :: listed hostName (limit - 1) lines
  else listed hostName limit lines.
Proof.
  intros Hpos Hold. rewrite !listed_eq, matching_snoc.
  destruct (selects hostName (Snapshot.host snap)); [|by rewrite app_nil_r].
  rewrite sort_snoc_newest by by apply matching_older.
  by rewrite slice0_cons.
Qed.

Lemma append_nonempty (a : string) c b : a +:+ String c b <> "".
Proof. by destruct a. Qed.

(** What [restore] does with the identifier of the last line of the log,
    when that line is the newest record. *)
Lemma restore_newest snap s lines :
  metadata s = lines ++ [Some snap] ->
  (forall old, Some old ∈ lines -> Snapshot.ts old < Snapshot.ts snap) ->
  restore (Snapshot.id snap) s =
  match Snapshot.type snap with
  | git => SnapshotManager.restoreGit snap s
  | tar => SnapshotManager.restoreTar dirname snap s
  | sftp => SnapshotManager.restoreFile snap s
  end.
Proof.
  intros Hmeta Hold. rewrite (restore_unfold dirname), Hmeta.
  rewrite listed_snoc; [|lia|eauto]. simpl.
  by rewrite String.eqb_refl.
Qed.

(** X16.  A snapshot just created heads the listing.  After a successful
    [create] on a host, when every earlier record that passes the host
    filter of the listing is strictly older than the call, [list] with a
    positive limit returns the new record first, followed by what [list]
    returned before with a limit one less; a listing for another host is
    what it was. *)
Theorem created_snapshot_is_listed_first (id hostName path : string)
    (filter_ : option string) (limit : Z) (s s1 : Server) :
  create id hostName path s = (inr id, s1) ->
  0 < limit ->
  (forall old, Some old ∈ metadata s ->
     selects filter_ (Snapshot.host old) = true ->
     Snapshot.ts old < date_now (world s)) ->
  exists snap,
    metadata s1 = metadata s ++ [Some snap] /\
    Snapshot.id snap = id /\
    SnapshotManager.list filter_ limit s1 =
      (inr (if selects filter_ hostName
            then mkObj (length (metadata s)) snap
                   :: listed filter_ (limit - 1) (metadata s)
            else listed filter_ limit (metadata s)), s1).
Proof.
  intros Hc Hpos Hold.
  pose proof (create_appends_one_record_aux id hostName path s) as Haux.
  rewrite Hc in Haux. simpl in Haux.
  destruct Haux as (snap & Hmeta & Hid & Hhost & Hts).
  exists snap. split; [done|]. split; [done|].
  unfold SnapshotManager.list, bind, gets, ret. rewrite Hmeta.
  rewrite listed_snoc; [by rewrite Hhost|done|].
  rewrite Hts. exact Hold.
Qed.

(** X17.  Create, then restore.  After a successful [create], when every
    earlier record of the log is strictly older than the call, [restore]
    of the returned identifier finds the new record.  For an archive
    snapshot it unpacks the archive [create] wrote into the parent
    directory of the path, on the same host.  For a version-control
    snapshot it checks out the revision the remote side printed when the
    snapshot was taken; when that output was blank, the record cannot be
    restored: the call fails with CorruptRecord and issues nothing. *)
Theorem restore_after_create (id hostName path : string) (s s1 : Server) :
  create id hostName path s = (inr id, s1) ->
  (forall old, Some old ∈ metadata s -> Snapshot.ts old < date_now (world s)) ->
  let t := date_now (world s) in
  let probe := remote_exec hostName (SnapshotManager.isGitCmd path) (world s) in
  if answered probe.1 "git" then
    exists r,
      (remote_exec hostName (commitCmd path (date_now probe.2)) probe.2).1 = inr r /\
      let commit := JS.trim (stdout r) in
      restore id s1 =
        if String.eqb commit "" then (inl (SnapshotManager.CorruptRecord git), s1)
        else
          (exec hostName (SnapshotManager.checkoutCmd path commit) ;;
           ret ("Restored git commit " +:+ substring 0 8 commit +:+ " in " +:+ path))%server
            s1
  else
    restore id s1 =
      (exec hostName (SnapshotManager.untarCmd (tarFileOf path t) (dirname path)) ;;
       ret ("Restored " +:+ path +:+ " from tar backup"))%server s1.
Proof.
  intros Hc Hold. cbv zeta. rewrite create_unfold in Hc. cbv zeta in Hc.
  destruct (answered _ "git").
  - destruct (remote_exec hostName (commitCmd path _) _) as [[e|r] w]; [done|].
    injection Hc as <-. exists r. split; [done|]. cbv zeta.
    erewrite (restore_newest
                {| Snapshot.ts := date_now (world s); Snapshot.id := id;
                   Snapshot.type := git; Snapshot.host := hostName;
                   Snapshot.path := path; Snapshot.backup := None;
                   Snapshot.commit := Some (JS.trim (stdout r)) |});
      [|reflexivity|exact Hold].
    simpl. unfold SnapshotManager.restoreGit. simpl.
    by destruct (String.eqb (JS.trim (stdout r)) "").
  - destruct (remote_exec hostName (tarCmd path _) _) as [[e|r] w]; [done|].
    injection Hc as <-.
    erewrite (restore_newest
                {| Snapshot.ts := date_now (world s); Snapshot.id := id;
                   Snapshot.type := tar; Snapshot.host := hostName;
                   Snapshot.path := path;
                   Snapshot.backup := Some (tarFileOf path (date_now (world s)));
                   Snapshot.commit := None |});
      [|reflexivity|exact Hold].
    simpl. unfold SnapshotManager.restoreTar. simpl.
    destruct (String.eqb_spec (tarFileOf path (date_now (world s))) "") as [He|_];
      [|done].
    by apply append_nonempty in He.
Qed.

(** *** Snapshots of single files *)

Variable autoSnapshotOnUpload : bool.

Local Abbreviation createFileSnapshot :=
  (SnapshotManager.createFileSnapshot remotePath autoSnapshotOnUpload basename).
Local Abbreviation backupPathOf := (SnapshotManager.backupPathOf remotePath basename).
Local Abbreviation backupCmd := (SnapshotManager.backupCmd remotePath basename).

(** The record [createFileSnapshot] writes. *)
Local Abbreviation file_record id hostName path t :=
  {| Snapshot.ts := t; Snapshot.id := id; Snapshot.type := sftp;
     Snapshot.host := hostName; Snapshot.path := path;
     Snapshot.backup := Some (backupPathOf path t);
     Snapshot.commit := None |}.

Lemma createFileSnapshot_unfold id hostName path s :
  createFileSnapshot id hostName path s =
  if negb autoSnapshotOnUpload then (inr None, s)
  else
    let probe := remote_exec hostName (SnapshotManager.fileExistsCmd path) (world s) in
    let i1 := issued s ++ [(hostName, SnapshotManager.fileExistsCmd path)] in
    if answered probe.1 "exists" then
      let t := date_now probe.2 in
      match remote_exec hostName (backupCmd path t) probe.2 with
      | (inr r, w) =>
          (inr (Some id),
           mkServer w (i1 ++ [(hostName, backupCmd path t)]) (jobs s)
             (metadata s ++ [Some (file_record id hostName path t)]))
      | (inl e, w) =>
          (inl e, mkServer w (i1 ++ [(hostName, backupCmd path t)]) (jobs s)
                    (metadata s))
      end
    else (inr None, mkServer probe.2 i1 (jobs s) (metadata s)).
Proof.
  unfold SnapshotManager.createFileSnapshot.
  destruct autoSnapshotOnUpload; [|done]. simpl.
  unfold SnapshotManager.fileExists, SnapshotManager.saveMetadata,
    SnapshotManager.try_or, bind, now, gets, exec, ret.
  destruct (remote_exec hostName (SnapshotManager.fileExistsCmd path) (world s))
    as [[e|r] w1]; simpl; [done|].
  destruct (String.eqb (JS.trim (stdout r)) "exists"); simpl; [|done].
  by destruct (remote_exec _ _ w1) as [[e2|r2] w2].
Qed.

(** X18.  Snapshot before an upload.  With [autoSnapshotOnUpload] off,
    [createFileSnapshot] returns [null] and does nothing at all.  With it
    on, the call first asks the host whether the file exists; unless the
    answer is [exists] (also when asking fails) it returns [null], having
    issued that one command and written nothing.  Otherwise it copies the
    file into a snapshot directory named after the time read after the
    probe, and when the copy succeeds it appends one single-file record,
    naming the copy, to the log and returns the identifier; when the copy
    fails the call fails with that error and the log is as before.  The
    job table is never touched. *)
Theorem createFileSnapshot_contract (id hostName path : string) (s : Server) :
  let out := createFileSnapshot id hostName path s in
  let probe := remote_exec hostName (SnapshotManager.fileExistsCmd path) (world s) in
  let ask := (hostName, SnapshotManager.fileExistsCmd path) in
  jobs out.2 = jobs s /\
  if negb autoSnapshotOnUpload then out = (inr None, s)
  else if negb (answered probe.1 "exists") then
    out.1 = inr None /\ metadata out.2 = metadata s /\
    issued out.2 = issued s ++ [ask]
  else
    let t := date_now probe.2 in
    issued out.2 = issued s ++ [ask; (hostName, backupCmd path t)] /\
    match (remote_exec hostName (backupCmd path t) probe.2).1 with
    | inr _ =>
        out.1 = inr (Some id) /\
        metadata out.2 = metadata s ++ [Some (file_record id hostName path t)]
    | inl e => out.1 = inl e /\ metadata out.2 = metadata s
    end.
Proof.
  cbv zeta. rewrite createFileSnapshot_unfold. cbv zeta.
  destruct (negb autoSnapshotOnUpload); [done|].
  destruct (answered _ "exists"); simpl; [|done].
  destruct (remote_exec hostName (backupCmd path _) _) as [[e|r] w]; simpl;
    by rewrite <- app_assoc.
Qed.

(** X19.  The copy comes back.  After [createFileSnapshot] has returned an
    identifier, when every earlier record of the log is strictly older
    than the time it stamped, [restore] of that identifier copies the
    backup it made over the original path, on the same host, and reports
    the file restored. *)
Theorem restore_after_createFileSnapshot (id hostName path : string)
    (s s1 : Server) :
  createFileSnapshot id hostName path s = (inr (Some id), s1) ->
  (forall old, Some old ∈ metadata s ->
     Snapshot.ts old <
     date_now (remote_exec hostName (SnapshotManager.fileExistsCmd path) (world s)).2) ->
  let t :=
    date_now (remote_exec hostName (SnapshotManager.fileExistsCmd path) (world s)).2 in
  restore id s1 =
    (exec hostName (SnapshotManager.copyCmd (backupPathOf path t) path) ;;
     ret ("Restored file " +:+ path))%server s1.
Proof.
  intros Hc Hold. cbv zeta. rewrite createFileSnapshot_unfold in Hc. cbv zeta in Hc.
  destruct (negb autoSnapshotOnUpload); [done|].
  destruct (answered _ "exists"); [|done].
  destruct (remote_exec hostName (backupCmd path _) _) as [[e|r] w]; [done|].
  injection Hc as <-.
  erewrite (restore_newest (file_record id hostName path _));
    [|reflexivity|exact Hold].
  simpl. unfold SnapshotManager.restoreFile. simpl.
  destruct (String.eqb_spec (backupPathOf path
              (date_now (remote_exec hostName (SnapshotManager.fileExistsCmd path)
                           (world s)).2)) "") as [He|_]; [|done].
  by apply append_nonempty in He.
Qed.

(** *** Listing *)

Lemma listed_selects hostName limit lines o :
  o ∈ listed hostName limit lines ->
  selects hostName (Snapshot.host (val o)) = true.
Proof.
  rewrite listed_eq. intros Hin.
  eapply elem_of_sublist in Hin; [|apply slice0_sublist].
  rewrite sort_perm in Hin. unfold matching in Hin.
  by apply list_elem_of_filter in Hin as [Hsel _].
Qed.

Lemma sorted_app_elem {B} (R : B -> B -> Prop) l1 : forall l2 a b,
  StronglySorted R (l1 ++ l2) -> a ∈ l1 -> b ∈ l2 -> R a b.
Proof.
  induction l1 as [|x l1 IH]; intros l2 a b Hs Ha Hb.
  - by apply elem_of_nil in Ha.
  - simpl in Hs. apply StronglySorted_inv in Hs as [Hs Hx].
    apply elem_of_cons in Ha as [->|Ha]; [|by eapply IH].
    rewrite Forall_forall in Hx. apply Hx, elem_of_app. by right.
Qed.

(** X20.  The listing.  [list] with a limit that is not negative never
    fails and changes nothing.  It returns at most [limit] records, each
    parsed from a line of the log and passing the host filter, no line
    twice, newest first.  They are the most recent ones: a record that
    passes the filter and is left out is no newer than any record
    returned; and when no more than [limit] records pass the filter, all
    of them are returned. *)
Theorem list_contract (hostName : option string) (limit : Z) (s : Server) :
  0 <= limit ->
  exists l,
    SnapshotManager.list hostName limit s = (inr l, s) /\
    Z.of_nat (length l) <= limit /\
    StronglySorted (fun a b => Snapshot.ts (val b) <= Snapshot.ts (val a)) l /\
    NoDup (addr <$> l) /\
    (forall o, o ∈ l ->
       Some (val o) ∈ metadata s /\
       selects hostName (Snapshot.host (val o)) = true) /\
    (forall o o', o ∈ matching hostName (metadata s) -> o ∉ l -> o' ∈ l ->
       Snapshot.ts (val o) <= Snapshot.ts (val o')) /\
    (Z.of_nat (length (matching hostName (metadata s))) <= limit ->
     l ≡ₚ matching hostName (metadata s)).
Proof.
  intros Hlimit. exists (listed hostName limit (metadata s)).
  split; [done|]. split; [by apply slice0_length|].
  split; [apply listed_sorted|]. split; [apply listed_NoDup|].
  split; [|split; [|apply listed_all]].
  - intros o Ho. split; [by eapply listed_elem|by eapply listed_selects].
  - intros o o' Ho Hout Ho'. rewrite listed_eq in Hout, Ho'.
    unfold JS.slice0 in Hout, Ho'.
    set (sorted := JS.sort SnapshotManager.byTsDesc (matching hostName (metadata s))) in *.
    set (n := Z.to_nat _) in *.
    assert (o ∈ take n sorted ++ drop n sorted) as Hin.
    { rewrite take_drop. unfold sorted. by rewrite sort_perm. }
    apply elem_of_app in Hin as [Hin|Hin]; [done|].
    apply (sorted_app_elem
             (fun a b => Snapshot.ts (val b) <= Snapshot.ts (val a))
             (take n sorted) (drop n sorted)); [|done|done].
    rewrite take_drop. apply (sort_sorted (fun o => Snapshot.ts (val o))).
Qed.

(** *** Cleanup *)

Variable retention : SnapshotRetention.

Local Abbreviation cleanup := (SnapshotManager.cleanup retention).
Local Abbreviation cleanup_loop := (SnapshotManager.cleanup_loop retention).
Local Abbreviation doomed := (SnapshotManager.doomed retention).
Local Abbreviation rm_command := SnapshotManager.rm_command.



Lemma cleanup_loop_noop cutoffDate byHost snaps : forall removed s,
  Forall (fun o => doomed cutoffDate byHost o = false) snaps ->
  cleanup_loop cutoffDate byHost snaps removed s = (inr removed, s).
Proof.
  induction snaps as [|o snaps IH]; intros removed s Hall; [done|].
  apply Forall_cons in Hall as [Ho Hall]. simpl.
  unfold SnapshotManager.doomed in Ho.
  destruct (_ <? keepMinCount retention); [by apply IH|].
  simpl in Ho. rewrite Ho. by apply IH.
Qed.

Lemma indexOf_from_bound (l : list Obj) o : forall i,
  o ∈ l ->
  i <= SnapshotManager.indexOf_from i l o < i + Z.of_nat (length l).
Proof.
  induction l as [|y l IH]; intros i Ho; [by apply elem_of_nil in Ho|].
  simpl SnapshotManager.indexOf_from.
  destruct (Nat.eqb_spec (addr y) (addr o)) as [|Hne]; [simpl; lia|].
  apply elem_of_cons in Ho as [->|Ho]; [done|].
  specialize (IH (i + 1) Ho). simpl length. lia.
Qed.

Lemma indexOf_bound (l : list Obj) o :
  o ∈ l -> 0 <= SnapshotManager.indexOf l o < Z.of_nat (length l).
Proof. intros Ho. apply (indexOf_from_bound l o 0 Ho). Qed.

(** X22.  Nothing to clean.  When no record that passes the host filter
    was created before the cutoff, or when no more than [keepMinCount]
    records pass it, [cleanup] reports 0 and leaves everything as it was:
    no command is issued. *)
Theorem cleanup_nothing_to_do (hostName : option string) (s : Server) :
  (forall snap, Some snap ∈ metadata s ->
     selects hostName (Snapshot.host snap) = true ->
     SnapshotManager.cutoff retention (date_now (world s)) <= Snapshot.ts snap) \/
  Z.of_nat (length (matching hostName (metadata s))) <= keepMinCount retention ->
  cleanup hostName s = (inr 0, s).
Proof.
  intros Hcase.
  unfold SnapshotManager.cleanup, SnapshotManager.list, now, bind, gets, ret. simpl.
  apply cleanup_loop_noop, Forall_forall. intros o Ho.
  unfold SnapshotManager.doomed. destruct Hcase as [Hrecent|Hfew].
  - apply andb_false_iff. right. apply Z.ltb_ge.
    apply Hrecent; [by eapply listed_elem|by eapply listed_selects].
  - apply andb_false_iff. left. apply negb_false_iff, Z.ltb_lt.
    rewrite group_host.
    set (mine := filter (SnapshotManager.of_host (Snapshot.host (val o))) _).
    assert (o ∈ mine) as Hin by (by apply list_elem_of_filter).
    pose proof (indexOf_bound mine o Hin) as Hix.
    pose proof (length_filter (SnapshotManager.of_host (Snapshot.host (val o)))
                  (listed hostName 10000 (metadata s))) as Hl1.
    fold mine in Hl1.
    pose proof (sublist_length _ _
                  (slice0_sublist 10000
                     (JS.sort SnapshotManager.byTsDesc
                        (matching hostName (metadata s))))) as Hl2.
    rewrite sort_length, <- listed_eq in Hl2. lia.
Qed.

(** *** The horizon of [restore] *)

Lemma filter_none {B} (P : B -> Prop) `{forall x, Decision (P x)} (l : list B) :
  Forall (fun x => ~ P x) l -> filter P l = [].
Proof.
  induction 1 as [|x l Hx _ IH]; [done|]. by rewrite filter_cons_False.
Qed.

Lemma filter_all {B} (P : B -> Prop) `{forall x, Decision (P x)} (l : list B) :
  Forall P l -> filter P l = l.
Proof.
  induction 1 as [|x l Hx _ IH]; [done|]. rewrite filter_cons_True by done.
  by rewrite IH.
Qed.

Lemma newest_first_prefix (bound : Z) (l : list Obj) : forall n,
  StronglySorted (fun a b => Snapshot.ts (val b) <= Snapshot.ts (val a)) l ->
  (n <= length (filter (fun o => (bound < Snapshot.ts (val o))%Z) l))%nat ->
  Forall (fun o => bound < Snapshot.ts (val o)) (take n l).
Proof.
  induction l as [|y l IH]; intros n Hs Hn; [by rewrite take_nil|].
  destruct n as [|n]; [constructor|].
  apply StronglySorted_inv in Hs as [Hs Hy]. simpl.
  rewrite filter_cons in Hn. case_decide as Hnew.
  - constructor; [done|]. apply IH; [done|]. simpl in Hn. lia.
  - assert (filter (fun o => bound < Snapshot.ts (val o)) l = []) as Hnone.
    { apply filter_none, Forall_forall. intros o Ho.
      rewrite Forall_forall in Hy. specialize (Hy o Ho). lia. }
    rewrite Hnone in Hn. simpl in Hn. lia.
Qed.

(** X23.  The horizon of [restore].  [restore] reads the 1000 newest
    records only: an identifier whose records in the log are all older
    than 1000 other records is not found, although the log holds it; the
    call fails with SnapshotNotFound and issues nothing. *)
Theorem restore_forgets_beyond_1000 (snapshotId : string) (bound : Z) (s : Server) :
  (forall snap, Some snap ∈ metadata s -> Snapshot.id snap = snapshotId ->
     Snapshot.ts snap <= bound) ->
  1000 <= Z.of_nat (length (filter (fun o => bound < Snapshot.ts (val o))
                               (SnapshotManager.parse_lines 0 (metadata s)))) ->
  restore snapshotId s = (inl (SnapshotManager.SnapshotNotFound snapshotId), s).
Proof.
  intros Hold Hmany. rewrite (restore_unfold dirname).
  destruct (JS.find _ _) as [o|] eqn:Hfind; [exfalso|done].
  apply find_some in Hfind as [Hin Hid].
  apply String.eqb_eq in Hid. apply list_elem_of_In in Hin.
  pose proof (listed_elem _ _ _ _ Hin) as Hlog.
  specialize (Hold _ Hlog Hid).
  rewrite listed_eq in Hin. unfold JS.slice0 in Hin. simpl in Hin.
  assert (matching None (metadata s) = SnapshotManager.parse_lines 0 (metadata s))
    as Hall.
  { unfold SnapshotManager.matching. apply filter_all, Forall_forall. done. }
  rewrite Hall in Hin.
  pose proof (newest_first_prefix bound
                (JS.sort SnapshotManager.byTsDesc
                   (SnapshotManager.parse_lines 0 (metadata s))) 1000
                (sort_sorted (fun o => Snapshot.ts (val o)) _)) as Hpre.
  assert (length (filter (fun o => bound < Snapshot.ts (val o))
                    (JS.sort SnapshotManager.byTsDesc
                       (SnapshotManager.parse_lines 0 (metadata s)))) =
          length (filter (fun o => bound < Snapshot.ts (val o))
                    (SnapshotManager.parse_lines 0 (metadata s)))) as Hlen
    by (by rewrite sort_perm).
  specialize (Hpre ltac:(lia)).
  rewrite Forall_forall in Hpre. specialize (Hpre o Hin). lia.
Qed.

End SnapshotManagerMore.

Lemma log_forallb (p : Snapshot.t -> bool) (lines : list (option Snapshot.t)) :
  forallb (fun line => match line with Some snap => p snap | None => true end)
    lines = true ->
  forall snap, Some snap ∈ lines -> p snap = true.
Proof.
  intros Hall snap Hin. rewrite forallb_forall in Hall.
  apply list_elem_of_In in Hin. exact (Hall _ Hin).
Qed.

Lemma created_snapshot_is_listed_first_witness :
  let s :=
    Examples.server 1000000000
      [Examples.answer "git"; Examples.answer "0123456789abcdef"] Examples.log in
  let s1 :=
    (@SnapshotManager.create Examples.scripted "/var/log/mcp" Examples.last_segment
       Examples.iso "snap_x" "web" "/srv/repo" s).2 in
  exists snap,
    metadata s1 = Examples.log ++ [Some snap] /\
    Snapshot.id snap = "snap_x" /\
    SnapshotManager.list (Some "web") 2 s1 =
      (inr [mkObj 4 snap; mkObj 3 Examples.recent_file], s1).
Proof.
  cbv zeta.
  apply (@created_snapshot_is_listed_first Examples.scripted "/var/log/mcp"
           Examples.last_segment Examples.iso "snap_x" "web" "/srv/repo"
           (Some "web") 2
           (Examples.server 1000000000
              [Examples.answer "git"; Examples.answer "0123456789abcdef"]
              Examples.log)).
  - vm_compute. reflexivity.
  - lia.
  - intros old Hin _.
    apply Z.ltb_lt.
    apply (log_forallb (fun snap => Snapshot.ts snap <? 1000000000) Examples.log);
      [vm_compute; reflexivity|exact Hin].
Defined.

Lemma restore_after_create_witness :
  let s :=
    Examples.server 1000000000
      [Examples.answer "git"; Examples.answer "0123456789abcdef"] Examples.log in
  let s1 :=
    (@SnapshotManager.create Examples.scripted "/var/log/mcp" Examples.last_segment
       Examples.iso "snap_x" "web" "/srv/repo" s).2 in
  exists r,
    (@remote_exec Examples.scripted "web"
       (SnapshotManager.commitCmd Examples.iso "/srv/repo" 1000000001)
       (1000000001, [Examples.answer "0123456789abcdef"])).1 = inr r /\
    @SnapshotManager.restore Examples.scripted Examples.parent "snap_x" s1 =
      if String.eqb (JS.trim (stdout r)) "" then
        (inl (SnapshotManager.CorruptRecord git), s1)
      else
        (exec "web" (SnapshotManager.checkoutCmd "/srv/repo" (JS.trim (stdout r))) ;;
         ret ("Restored git commit " +:+ substring 0 8 (JS.trim (stdout r))
                +:+ " in " +:+ "/srv/repo"))%server s1.
Proof.
  cbv zeta.
  apply (@restore_after_create Examples.scripted Examples.parent "/var/log/mcp"
           Examples.last_segment Examples.iso "snap_x" "web" "/srv/repo"
           (Examples.server 1000000000
              [Examples.answer "git"; Examples.answer "0123456789abcdef"]
              Examples.log)).
  - vm_compute. reflexivity.
  - intros old Hin.
    apply Z.ltb_lt.
    apply (log_forallb (fun snap => Snapshot.ts snap <? 1000000000) Examples.log);
      [vm_compute; reflexivity|exact Hin].
Defined.

Lemma restore_after_createFileSnapshot_witness :
  let s :=
    Examples.server 1000000000 [Examples.answer "exists"] Examples.log in
  let s1 :=
    (@SnapshotManager.createFileSnapshot Examples.scripted "/var/log/mcp" true
       Examples.last_segment "snap_f" "web" "/etc/app.conf" s).2 in
  @SnapshotManager.restore Examples.scripted Examples.parent "snap_f" s1 =
    (exec "web"
       (SnapshotManager.copyCmd "/var/log/mcp/snapshots/1000000001/app.conf"
          "/etc/app.conf") ;;
     ret "Restored file /etc/app.conf")%server s1.
Proof.
  cbv zeta.
  apply (@restore_after_createFileSnapshot Examples.scripted Examples.parent
           "/var/log/mcp" Examples.last_segment true "snap_f" "web" "/etc/app.conf"
           (Examples.server 1000000000 [Examples.answer "exists"] Examples.log)).
  - vm_compute. reflexivity.
  - intros old Hin.
    apply Z.ltb_lt.
    apply (log_forallb (fun snap => Snapshot.ts snap <? 1000000001) Examples.log);
      [vm_compute; reflexivity|exact Hin].
Defined.

Lemma list_contract_witness :
  exists l,
    @SnapshotManager.list Examples.scripted (Some "web") 2
      (Examples.server 1000000000 [] Examples.log) =
      (inr l, Examples.server 1000000000 [] Examples.log) /\
    Z.of_nat (length l) <= 2.
Proof.
  destruct (@list_contract Examples.scripted (Some "web") 2
              (Examples.server 1000000000 [] Examples.log) ltac:(lia))
    as (l & Hl & Hlen & _).
  by exists l.
Defined.


Lemma cleanup_nothing_to_do_witness :
  @SnapshotManager.cleanup Examples.scripted
    {| maxAgeDays := 1; maxSizeMB := 1000; keepMinCount := 3 |} (Some "web")
    (Examples.server 1000000000 [] Examples.log) =
  (inr 0, Examples.server 1000000000 [] Examples.log).
Proof.
  apply (@cleanup_nothing_to_do Examples.scripted
           {| maxAgeDays := 1; maxSizeMB := 1000; keepMinCount := 3 |} (Some "web")
           (Examples.server 1000000000 [] Examples.log)).
  right. vm_compute. discriminate.
Defined.

Lemma restore_forgets_beyond_1000_witness :
  Some (Examples.tar_at 0) ∈ Examples.long_log /\
  @SnapshotManager.restore Examples.scripted Examples.parent "snap_0"
    (Examples.server 1000000000 [] Examples.long_log) =
  (inl (SnapshotManager.SnapshotNotFound "snap_0"),
   Examples.server 1000000000 [] Examples.long_log).
Proof.
  split; [by left|].
  apply (@restore_forgets_beyond_1000 Examples.scripted Examples.parent "snap_0" 0
           (Examples.server 1000000000 [] Examples.long_log)).
  - intros snap Hin Hid.
    pose proof (log_forallb
                  (fun snap => negb (String.eqb (Snapshot.id snap) "snap_0")
                               || (Snapshot.ts snap <=? 0))
                  Examples.long_log ltac:(vm_compute; reflexivity) snap Hin) as Hp.
    cbv beta in Hp. rewrite Hid in Hp. simpl in Hp. by apply Z.leb_le.
  - vm_compute. discriminate.
Defined.

(** ** Audit log and the [sudo_exec] tool *)

Section AuditMore.
Context `{Remote}.
Variable localPath : string.
Variable remotePath : string.
Variable join : list string -> string.
Variable dirname : string -> string.
Variable stringify : AuditLogger.Entry -> string.

Local Abbreviation log := (AuditLogger.log localPath remotePath join dirname stringify).
Local Abbreviation logLocal := (AuditLogger.logLocal localPath join).
Local Abbreviation remoteLogCmd := (AuditLogger.remoteLogCmd remotePath dirname).
Local Abbreviation getLocalLogPath := (AuditLogger.getLocalLogPath localPath join).

Lemma log_unfold entry files s :
  let line := stringify entry +:+ AuditLogger.nl in
  log entry files s =
  (inr (logLocal (AuditLogger.host entry) line files),
   mkServer
     (remote_exec (AuditLogger.host entry) (remoteLogCmd line) (world s)).2
     (issued s ++ [(AuditLogger.host entry, remoteLogCmd line)])
     (jobs s) (metadata s)).
Proof.
  cbv zeta. unfold AuditLogger.log, AuditLogger.logRemote, try_, bind, exec, ret.
  simpl. by destruct (remote_exec _ _ (world s)) as [[e|r] w].
Qed.

(** X24.  The audit log is best effort on the remote side only.  [log]
    never fails, whatever the remote host answers.  It appends the
    serialized entry, followed by a line feed, to the local audit file of
    the host of the entry and touches no other local file; it sends one
    command to that host, the one that appends the same line to the remote
    audit file; it changes neither the job table nor the snapshot log. *)
Theorem audit_log_best_effort (entry : AuditLogger.Entry)
    (files : AuditLogger.Files) (s : Server) :
  let line := stringify entry +:+ AuditLogger.nl in
  let path := getLocalLogPath (AuditLogger.host entry) in
  exists files' s',
    log entry files s = (inr files', s') /\
    files' !! path = Some (default [] (files !! path) ++ [line]) /\
    (forall other, other <> path -> files' !! other = files !! other) /\
    issued s' = issued s ++ [(AuditLogger.host entry, remoteLogCmd line)] /\
    jobs s' = jobs s /\ metadata s' = metadata s.
Proof.
  cbv zeta. rewrite log_unfold. cbv zeta. eexists _, _. split; [reflexivity|].
  unfold AuditLogger.logLocal. cbv zeta. split; [apply lookup_insert_eq|].
  split; [|done]. intros other Hne. by apply lookup_insert_ne.
Qed.

(** *** The blocklist of [sudo_exec] *)

Variable defaultHost : string.
Variable users : gmap string string.
Variable blockedPatterns : option (list string).

Local Abbreviation sudo_exec :=
  (SudoTool.sudo_exec localPath remotePath join dirname stringify defaultHost users
     blockedPatterns).
Local Abbreviation blocked := (SudoTool.blocked blockedPatterns).
Local Abbreviation hostOrDefault := (SudoTool.hostOrDefault defaultHost).

Lemma prefix_app (p : string) : forall s,
  String.prefix p s = true <-> exists post, s = p +:+ post.
Proof.
  induction p as [|a p IH]; intros s.
  - split; [by exists s|by destruct s].
  - destruct s as [|b s]; simpl.
    + split; [done|]. by intros [post Hpost].
    + destruct (ascii_dec a b) as [->|Hne].
      * rewrite IH. split; intros [post Hpost]; exists post; [by rewrite Hpost|].
        by injection Hpost.
      * split; [done|]. intros [post Hpost]. injection Hpost as Hab _.
        by destruct Hne.
Qed.

(** [includes] finds exactly the substrings. *)
Lemma includes_spec (pattern : string) : forall s,
  SudoTool.includes s pattern = true <->
  exists pre post, s = pre +:+ pattern +:+ post.
Proof.
  induction s as [|c s IH].
  - change (SudoTool.includes "" pattern) with (String.prefix pattern "").
    rewrite prefix_app. split.
    + intros [post Hpost]. by exists "", post.
    + intros (pre & post & Heq). destruct pre; [|done]. by exists post.
  - change (SudoTool.includes (String c s) pattern)
      with (String.prefix pattern (String c s) || SudoTool.includes s pattern).
    rewrite orb_true_iff, prefix_app, IH. split.
    + intros [[post Hpost]|(pre & post & Heq)].
      * by exists "", post.
      * exists (String c pre), post. simpl. by rewrite Heq.
    + intros (pre & post & Heq). destruct pre as [|c' pre].
      * left. by exists post.
      * right. exists pre, post. simpl in Heq. by injection Heq.
Qed.

(** X25.  A blocked command never leaves the server.  When the command
    contains one of the blocked patterns anywhere, [sudo_exec] answers
    with an error that names the first pattern of the blocklist the
    command contains; nothing is sent to any host and nothing is written
    to the audit log. *)
Theorem sudo_blocklist_stops_command (command : string) (host : option string)
    (files : AuditLogger.Files) (s : Server) (pattern pre post : string) :
  pattern ∈ blocked ->
  command = pre +:+ pattern +:+ post ->
  exists first before after,
    blocked = before ++ first :: after /\
    SudoTool.includes command first = true /\
    Forall (fun earlier => SudoTool.includes command earlier = false) before /\
    sudo_exec command host files s =
      (inr ({| SudoTool.text := SudoTool.blockedText first;
               SudoTool.isError := true |}, files), s).
Proof.
  intros Hin Hcmd.
  assert (SudoTool.includes command pattern = true) as Hinc.
  { apply includes_spec. by exists pre, post. }
  unfold SudoTool.sudo_exec, bind, now, gets, ret. simpl.
  unfold JS.find.
  assert (forall l : list string, pattern ∈ l ->
            exists first before after,
              l = before ++ first :: after /\
              SudoTool.includes command first = true /\
              Forall (fun earlier => SudoTool.includes command earlier = false) before /\
              List.find (fun p => SudoTool.includes command p) l = Some first)
    as Hfind.
  { induction l as [|x l IH]; intros Hl; [by apply elem_of_nil in Hl|].
    simpl. destruct (SudoTool.includes command x) eqn:Hx.
    - by exists x, [], l.
    - apply elem_of_cons in Hl as [->|Hl]; [congruence|].
      destruct (IH Hl) as (first & before & after & -> & Hf & Hb & Hfd).
      exists first, (x :: before), after.
      split; [done|]. split; [done|]. split; [by constructor|done]. }
  destruct (Hfind _ Hin) as (first & before & after & Heq & Hf & Hb & Hfd).
  exists first, before, after. by rewrite Hfd.
Qed.


End AuditMore.

Lemma sudo_blocklist_stops_command_witness :
  exists first,
    first ∈ SudoTool.blocked Examples.blocklist /\
    @SudoTool.sudo_exec Examples.scripted "/home/me/.mcp/logs" "/var/log/mcp"
      Examples.join_paths Examples.parent Examples.render "web" Examples.users
      Examples.blocklist "echo hi; rm -rf /tmp" None ∅
      (Examples.server 1000 [] []) =
    (inr ({| SudoTool.text := SudoTool.blockedText first;
             SudoTool.isError := true |}, ∅),
     Examples.server 1000 [] []).
Proof.
  destruct (@sudo_blocklist_stops_command Examples.scripted "/home/me/.mcp/logs"
              "/var/log/mcp" Examples.join_paths Examples.parent Examples.render
              "web" Examples.users Examples.blocklist "echo hi; rm -rf /tmp" None ∅
              (Examples.server 1000 [] []) "rm -rf /" "echo hi; " "tmp")
    as (first & before & after & Hsplit & _ & _ & Hres).
  - apply list_elem_of_here.
  - reflexivity.
  - exists first. split; [|exact Hres].
    rewrite Hsplit. apply elem_of_app. right. apply list_elem_of_here.
Defined.


(** ** Summary of an output *)

Section ProgressParserMore.
Import ProgressParser.

Lemma summarize_loop_cons raw rest acc :
  summarize_loop (raw :: rest) acc =
  if (length acc <? 3)%nat then
    if meaningful (trim raw) then summarize_loop rest (trim raw :: acc)
    else summarize_loop rest acc
  else acc.
Proof. reflexivity. Qed.

Lemma summarize_loop_spec (rest : list ustring) : forall acc,
  summarize_loop rest acc =
  rev (take (3 - length acc)
         (filter (fun line => meaningful line = true) (trim <$> rest))) ++ acc.
Proof.
  induction rest as [|raw rest IH]; intros acc;
    [by destruct (3 - length acc)%nat|].
  rewrite summarize_loop_cons, fmap_cons, filter_cons.
  destruct (Nat.ltb_spec (length acc) 3) as [Hlt|Hge].
  - destruct (meaningful (trim raw)) eqn:Hm.
    + rewrite decide_True by done. rewrite IH.
      replace (3 - length acc)%nat with (S (3 - length (trim raw :: acc)))
        by (simpl; lia).
      simpl. by rewrite <- app_assoc.
    + rewrite decide_False by done. apply IH.
  - by replace (3 - length acc)%nat with 0%nat by lia.
Qed.

Lemma rev_reverse {B} (l : list B) : rev l = reverse l.
Proof. unfold reverse. apply rev_alt. Qed.

Lemma meaningful_spec (line : ustring) :
  meaningful line = true <-> line <> [] /\ (length line < 200)%nat.
Proof.
  unfold meaningful.
  rewrite !andb_true_iff, negb_true_iff, bool_decide_eq_false, Nat.ltb_lt, Nat.ltb_lt.
  split; [tauto|]. intros [Hne Hlen]. split; [split; [done|]|done].
  destruct line; [done|simpl; lia].
Qed.

Lemma trimStart_head (s : ustring) u rest :
  trimStart s = u :: rest -> is_white u = false.
Proof.
  induction s as [|v s IH]; [done|]. simpl.
  destruct (is_white v) eqn:Hv; [done|]. by intros [= <- _].
Qed.

Lemma trimStart_idem (s : ustring) : trimStart (trimStart s) = trimStart s.
Proof.
  induction s as [|v s IH]; [done|]. simpl.
  destruct (is_white v) eqn:Hv; [done|]. simpl. by rewrite Hv.
Qed.

Lemma trimStart_last (s : ustring) u :
  last s = Some u -> is_white u = false -> last (trimStart s) = Some u.
Proof.
  intros Hlast Hu. induction s as [|v s IH]; [done|]. simpl.
  destruct (is_white v) eqn:Hv; [|done].
  destruct s as [|w s]; [|by apply IH].
  simpl in Hlast. congruence.
Qed.

(** A trimmed line neither begins nor ends with white space. *)
Lemma trim_ends (s : ustring) :
  (forall u, head (trim s) = Some u -> is_white u = false) /\
  (forall u, last (trim s) = Some u -> is_white u = false).
Proof.
  unfold trim, trimEnd. rewrite !rev_reverse.
  assert (forall u, last (reverse (trimStart (reverse (trimStart s)))) = Some u ->
                    is_white u = false) as Hlast.
  { intros u. rewrite last_reverse.
    destruct (trimStart (reverse (trimStart s))) as [|v r] eqn:Hr; [done|].
    intros [= <-]. by eapply trimStart_head. }
  split; [|done].
  intros u Hhead.
  destruct (trimStart s) as [|v t] eqn:Ht; [done|].
  pose proof (trimStart_head _ _ _ Ht) as Hv.
  assert (last (reverse (v :: t)) = Some v) as Hlv
    by (by rewrite last_reverse).
  pose proof (trimStart_last _ _ Hlv Hv) as Hkeep.
  rewrite <- (reverse_involutive (trimStart (reverse (v :: t)))) in Hkeep.
  rewrite last_reverse in Hkeep. congruence.
Qed.

(** X27.  The summary of an output.  With strings taken as sequences of
    UTF-16 code units, as [length], [split] and [trim] take them,
    [summarize] returns, joined by line feeds, the last three lines of
    the output that are meaningful once trimmed of the white space of
    JavaScript (not empty and shorter than 200 code units), in their
    order in the output, or all of them when there are fewer than three;
    none of the lines returned begins or ends with white space. *)
Theorem summarize_last_three (output : ustring) :
  let shown :=
    filter (fun line => line <> [] /\ (length line < 200)%nat)
      (trim <$> split_nl output) in
  summarize output = join_nl (drop (length shown - 3) shown) /\
  (length (drop (length shown - 3) shown) <= 3)%nat /\
  Forall (fun line =>
            (forall u, head line = Some u -> is_white u = false) /\
            (forall u, last line = Some u -> is_white u = false))
    (drop (length shown - 3) shown).
Proof.
  cbv zeta.
  assert (filter (fun line => line <> [] /\ (length line < 200)%nat)
            (trim <$> split_nl output) =
          filter (fun line => meaningful line = true) (trim <$> split_nl output))
    as ->.
  { apply list_filter_iff. intros line. symmetry. apply meaningful_spec. }
  unfold summarize. cbv zeta.
  rewrite summarize_loop_spec, app_nil_r. simpl length.
  rewrite !rev_reverse, fmap_reverse, filter_reverse, reverse_take.
  rewrite length_reverse, reverse_involutive, Nat.sub_0_r.
  set (shown := filter (fun line => meaningful line = true)
                  (trim <$> split_nl output)).
  split; [done|]. split; [rewrite length_drop; lia|].
  apply Forall_drop, Forall_forall. intros line Hin.
  apply list_elem_of_filter in Hin as [_ Hin].
  apply list_elem_of_fmap in Hin as (raw & -> & _). apply trim_ends.
Qed.

(** On the output of a package install: the progress bar, 87 code units
    of box-drawing characters, is kept. *)
Example summarize_progress_bar :
  let bar := replicate 87 9608%N in
  summarize (units "Get:1 http://deb" ++ [LF] ++ bar ++ [LF] ++ units "  done  " ++ [LF])
  = units "Get:1 http://deb" ++ [LF] ++ bar ++ [LF] ++ units "done".
Proof. vm_compute. reflexivity. Qed.

End ProgressParserMore.
